(** * Clone finder: the term model, the dependency DAG, the goal generaliser
      and the clone search, embedded from the Python sources.

    Source files embedded here:
    - [src/parsing/ast/goal_ast.py]  (terms, [==], [subst], [free_vars], [alpha_equiv],
                                      [Product.build])
    - [src/var_dag.py]               ([VarDAG])
    - [src/util.py]                  ([make_dag], [generalize], [is_prod_body])
    - [src/main.py]                  (the collection of the candidates, the
                                      redundancy filter)
    - [src/alpha.py]                 ([find_alpha_equiv_goals])
    - [src/proof_tree.py]            ([get_proof], [get_local_context], [get_nodes])

    Modelling conventions.
    - A Python [Var] used as a binder name, a key of a set or of a dict is
      its name, a [string]; [Var.__eq__] and [Var.__hash__] only look at it.
      An alias that [goal_parser.py] builds is a [Var] whose name is itself
      a [Var]; the model holds its name, and [alias_free] marks the terms
      without one.
    - Terms are trees, so the in-place [subst] is the function from the
      object's state before the call to its state after the call.
      ([Product.build] and [Fun.build] put one type object in all the
      layers of a binder; the model gives every layer its own copy.)
    - A Python exception is a value [Raise e] of the result type [exc]. *)

From Stdlib Require Import String Ascii List Bool Arith Lia DecimalString Sorted.
From stdpp Require Import base gmap sets list strings.

Local Open Scope string_scope.
Local Open Scope list_scope.

(** ** Exceptions *)

Inductive exn : Type :=
| AttributeError   (* [None.subst(...)] *)
| ValueError       (* ['Not a DAG'], [str.index] without a match *)
| KeyError         (* a missing dict key *)
| RecursionError.  (* the recursion budget of the model is used up *)

Inductive exc (A : Type) : Type :=
| Ok (a : A)
| Raise (e : exn).
Arguments Ok {A} a.
Arguments Raise {A} e.

#[global] Instance exc_ret : MRet exc := fun A a => Ok a.
#[global] Instance exc_bind : MBind exc := fun A B k m =>
  match m with
  | Ok a => k a
  | Raise e => Raise e
  end.

(** Python's [a and b] on fallible operands: [b] is not evaluated when [a]
    is false. *)
Definition and_then (a : exc bool) (b : exc bool) : exc bool :=
  a ≫= (fun x : bool => if x then b else Ok false).

(** ** The term model ([goal_ast.py]) *)

(** [Pattern(names, alias)]: [names[0]] is the constructor tag and always
    exists, so [names] is [pat_ctor :: pat_args]. *)
Record Pattern : Type := mkPattern {
  pat_ctor : string;
  pat_args : list string;
  pat_alias : option string
}.

#[warnings="-register-all"]
Inductive Term : Type :=
| Var (name : string)
| Sort (name : string) (annotation : option string)
| Fun (var : string) (var_type body : Term)
| Product (var : string) (var_type body : Term)
| Let (var : string) (var_type var_def body : Term)
| Cond (guard ret_ty then_branch else_branch : Term) (guard_alias : option string)
| Fix (name : string) (params : list Binder) (ret_ty body : Term) (struct : option string)
| Match (subjects : list MatchSubject) (cases : list CaseClause) (ret_ty : option Term)
| Cast (term term_type : Term)
| App (func arg : Term)
with Binder : Type :=
| mkBinder (names : list string) (ty : Term)
with MatchSubject : Type :=
| mkMatchSubject (term : Term) (term_alias : option string) (pattern : option Pattern)
with CaseClause : Type :=
| mkCaseClause (patterns : list Pattern) (body : Term).

(** The depth of a term: the recursion budget literal equality needs. *)
Fixpoint height (t : Term) : nat :=
  match t with
  | Var _ | Sort _ _ => 0
  | Fun _ ty b | Product _ ty b => S (Nat.max (height ty) (height b))
  | Let _ ty d b => S (Nat.max (height ty) (Nat.max (height d) (height b)))
  | Cond g r th el _ =>
      S (Nat.max (height g) (Nat.max (height r) (Nat.max (height th) (height el))))
  | Fix _ ps r b _ =>
      S (Nat.max
           (list_max (map (fun p => match p with mkBinder _ ty => height ty end) ps))
           (Nat.max (height r) (height b)))
  | Match ss cs r =>
      S (Nat.max
           (list_max (map (fun s => match s with mkMatchSubject tm _ _ => height tm end) ss))
           (Nat.max
              (list_max (map (fun c => match c with mkCaseClause _ b => height b end) cs))
              (match r with Some ty => height ty | None => 0 end)))
  | Cast a b | App a b => S (Nat.max (height a) (height b))
  end.

Definition Binder_height (p : Binder) : nat :=
  match p with mkBinder _ ty => height ty end.
Definition MatchSubject_height (s : MatchSubject) : nat :=
  match s with mkMatchSubject tm _ _ => height tm end.
Definition CaseClause_height (c : CaseClause) : nat :=
  match c with mkCaseClause _ b => height b end.

(** ** Literal equality: the [__eq__] methods *)

(** [Var.__eq__] on names, and [==] on an optional [Var] ([None == None]
    holds, [None] equals no [Var]). *)
Definition Var_eqb (x y : string) : bool := String.eqb x y.

Definition opt_Var_eqb (a b : option string) : bool :=
  match a, b with
  | None, None => true
  | Some x, Some y => Var_eqb x y
  | _, _ => false
  end.

(** [list.__eq__]: the lengths are compared first, then the items. *)
Fixpoint list_items_eq {A : Type} (eqA : A -> A -> exc bool) (l l' : list A) : exc bool :=
  match l, l' with
  | x :: l, y :: l' => and_then (eqA x y) (list_items_eq eqA l l')
  | _, _ => Ok true
  end.

Definition list_eq {A : Type} (eqA : A -> A -> exc bool) (l l' : list A) : exc bool :=
  if Nat.eqb (length l) (length l') then list_items_eq eqA l l' else Ok false.

Definition Var_list_eqb (l l' : list string) : bool :=
  Nat.eqb (length l) (length l') && forallb (fun p => Var_eqb p.1 p.2) (combine l l').

(** [Pattern.__eq__]: same names and same alias. *)
Definition Pattern_eqb (p q : Pattern) : bool :=
  Var_list_eqb (pat_ctor p :: pat_args p) (pat_ctor q :: pat_args q)
  && opt_Var_eqb (pat_alias p) (pat_alias q).

(** [Pattern.__hash__] is the hash of [names[0]] and [CaseClause.__hash__]
    the hash of the tuple of its patterns; two hashes are equal exactly when
    the hashed names are (a collision would only add a comparison that
    fails). *)
Definition CaseClause_hash (c : CaseClause) : list string :=
  match c with mkCaseClause ps _ => map pat_ctor ps end.

Section eq_methods.
(** [==] on the subterms, at the remaining recursion budget. *)
Variable eqb : Term -> Term -> exc bool.

Definition opt_Term_eq (a b : option Term) : exc bool :=
  match a, b with
  | None, None => Ok true
  | Some t, Some u => eqb t u
  | _, _ => Ok false
  end.

(** [Binder.__eq__] *)
Definition Binder_eq (p q : Binder) : exc bool :=
  match p, q with
  | mkBinder ns ty, mkBinder ns' ty' =>
      and_then (Ok (Var_list_eqb ns ns')) (eqb ty ty')
  end.

(** [MatchSubject.__eq__] *)
Definition MatchSubject_eq (s s' : MatchSubject) : exc bool :=
  match s, s' with
  | mkMatchSubject tm al pt, mkMatchSubject tm' al' pt' =>
      if negb (opt_Var_eqb al al') then Ok false
      else if negb (match pt, pt' with
                    | None, None => true
                    | Some p, Some p' => Pattern_eqb p p'
                    | _, _ => false
                    end) then Ok false
      else eqb tm tm'
  end.

(** [CaseClause.__eq__] *)
Definition CaseClause_eq (c c' : CaseClause) : exc bool :=
  match c, c' with
  | mkCaseClause ps b, mkCaseClause ps' b' =>
      and_then (list_eq (fun p p' => Ok (Pattern_eqb p p')) ps ps') (eqb b b')
  end.

(** Membership in a set of case clauses: a stored element with the same
    hash that is [==] to the key. *)
Fixpoint set_contains (s : list CaseClause) (key : CaseClause) : exc bool :=
  match s with
  | [] => Ok false
  | stored :: s' =>
      if bool_decide (CaseClause_hash stored = CaseClause_hash key) then
        CaseClause_eq stored key ≫= (fun b : bool =>
          if b then Ok true else set_contains s' key)
      else set_contains s' key
  end.

(** [set(l)]: the elements are added one by one. *)
Fixpoint set_add_all (l : list CaseClause) (s : list CaseClause) : exc (list CaseClause) :=
  match l with
  | [] => Ok s
  | c :: l' =>
      set_contains s c ≫= (fun b : bool =>
        set_add_all l' (if b then s else s ++ [c]))
  end.

Definition set_of (l : list CaseClause) : exc (list CaseClause) := set_add_all l [].

(** [set.__eq__]: same size and every element of the left set is in the
    right one. *)
Fixpoint set_subset (s s' : list CaseClause) : exc bool :=
  match s with
  | [] => Ok true
  | c :: r => and_then (set_contains s' c) (set_subset r s')
  end.

Definition set_eq (s s' : list CaseClause) : exc bool :=
  if Nat.eqb (length s) (length s') then set_subset s s' else Ok false.

(** One level of [__eq__], by the class of [self]. *)
Definition Term_eq_step (t u : Term) : exc bool :=
  match t, u with
  | Var x, Var y => Ok (Var_eqb x y)
  | Sort n a, Sort n' a' =>
      Ok (String.eqb n n' && bool_decide (a = a'))
  | Fun _ ty b, Fun _ ty' b' => and_then (eqb ty ty') (eqb b b')
  | Product _ ty b, Product _ ty' b' => and_then (eqb ty ty') (eqb b b')
  | Let _ ty d b, Let _ ty' d' b' =>
      and_then (and_then (eqb ty ty') (eqb b b')) (eqb d d')
  | Cond g r th el al, Cond g' r' th' el' al' =>
      if negb (opt_Var_eqb al al') then Ok false
      else and_then (eqb g g')
             (and_then (eqb r r') (and_then (eqb th th') (eqb el el')))
  | Fix f ps r b st, Fix f' ps' r' b' st' =>
      if negb (opt_Var_eqb st st') then Ok false
      else and_then (Ok (Var_eqb f f'))
             (and_then (list_eq Binder_eq ps ps')
                (and_then (eqb r r') (eqb b b')))
  | Match ss cs r, Match ss' cs' r' =>
      and_then (list_eq MatchSubject_eq ss ss')
        (and_then
           (set_of cs ≫= (fun s => set_of cs' ≫= (fun s' => set_eq s s')))
           (opt_Term_eq r r'))
  | Cast a b, Cast a' b' => and_then (eqb a a') (eqb b b')
  | App a b, App a' b' => and_then (eqb a a') (eqb b b')
  | _, _ => Ok false
  end.
End eq_methods.

Fixpoint Term_eqb_n (n : nat) (t u : Term) : exc bool :=
  match n with
  | 0 => Raise RecursionError
  | S n' => Term_eq_step (Term_eqb_n n') t u
  end.

(** [t == u].  The budget is the depth of the deeper operand, which is what
    the nested [__eq__] calls need ([Term_eqb_total] below). *)
Definition Term_eqb (t u : Term) : exc bool :=
  Term_eqb_n (S (Nat.max (height t) (height u))) t u.

(** ** Bound variables of patterns and match subjects *)

(** [Pattern.get_bound_vars]: [set(names[1:] + [alias])]. *)
Definition Pattern_get_bound_vars (p : Pattern) : gset string :=
  list_to_set (pat_args p ++ match pat_alias p with Some a => [a] | None => [] end).

(** [Pattern.free_vars]: the constructor tag unless it is the wildcard. *)
Definition Pattern_free_vars (p : Pattern) : gset string :=
  if String.eqb (pat_ctor p) "_" then ∅ else {[ pat_ctor p ]}.

(** [MatchSubject.get_bound_vars] *)
Definition MatchSubject_get_bound_vars (s : MatchSubject) : gset string :=
  match s with
  | mkMatchSubject _ al pt =>
      (match al with Some a => {[ a ]} | None => ∅ end)
      ∪ (match pt with Some p => Pattern_get_bound_vars p | None => ∅ end)
  end.

Definition Binder_get_names (p : Binder) : list string :=
  match p with mkBinder ns _ => ns end.

Definition CaseClause_get_patterns (c : CaseClause) : list Pattern :=
  match c with mkCaseClause ps _ => ps end.

Definition CaseClause_get_body (c : CaseClause) : Term :=
  match c with mkCaseClause _ b => b end.

(** ** Substitution: the [subst] methods

    [subst t var replacement] is the state of the object [t] after the call
    [t.subst(var, replacement)], or the exception the call raises. *)

Fixpoint exc_map {A : Type} (f : A -> exc A) (l : list A) : exc (list A) :=
  match l with
  | [] => Ok []
  | x :: l' => f x ≫= (fun y => exc_map f l' ≫= (fun r => Ok (y :: r)))
  end.

Fixpoint subst (t : Term) (var replacement : string) {struct t} : exc Term :=
  match t with
  | Var x => Ok (Var (if String.eqb x var then replacement else x))
  | Sort _ _ => Ok t
  | Fun x ty b =>
      subst ty var replacement ≫= (fun ty' =>
      (if negb (Var_eqb var x) then subst b var replacement else Ok b) ≫= (fun b' =>
      Ok (Fun x ty' b')))
  | Product x ty b =>
      subst ty var replacement ≫= (fun ty' =>
      (if negb (Var_eqb var x) then subst b var replacement else Ok b) ≫= (fun b' =>
      Ok (Product x ty' b')))
  | Let x ty d b =>
      subst ty var replacement ≫= (fun ty' =>
      (if negb (Var_eqb var x) then subst b var replacement else Ok b) ≫= (fun b' =>
      subst d var replacement ≫= (fun d' =>
      Ok (Let x ty' d' b'))))
  | Cond g r th el al =>
      subst th var replacement ≫= (fun th' =>
      subst el var replacement ≫= (fun el' =>
      (if negb (opt_Var_eqb al (Some var)) then subst r var replacement else Ok r)
        ≫= (fun r' =>
      Ok (Cond g r' th' el' al))))
  | Fix f ps r b st =>
      if Var_eqb f var then Ok t
      else if bool_decide (var ∈ (list_to_set (concat (map Binder_get_names ps)) : gset string))
      then Ok t
      else
        exc_map (fun p => match p with
                          | mkBinder ns ty =>
                              subst ty var replacement ≫= (fun ty' => Ok (mkBinder ns ty'))
                          end) ps ≫= (fun ps' =>
        subst r var replacement ≫= (fun r' =>
        subst b var replacement ≫= (fun b' =>
        Ok (Fix f ps' r' b' st))))
  | Match ss cs r =>
      exc_map (fun s => match s with
                        | mkMatchSubject tm al pt =>
                            subst tm var replacement ≫= (fun tm' =>
                            Ok (mkMatchSubject tm' al pt))
                        end) ss ≫= (fun ss' =>
      (if bool_decide (var ∈ ⋃ (map MatchSubject_get_bound_vars ss))
       then Ok r
       else match r with
            | None => Raise AttributeError
            | Some ty => subst ty var replacement ≫= (fun ty' => Ok (Some ty'))
            end) ≫= (fun r' =>
      exc_map (fun c => match c with
                        | mkCaseClause pts b =>
                            if bool_decide (var ∈ ⋃ (map Pattern_get_bound_vars pts))
                            then Ok c
                            else subst b var replacement ≫= (fun b' =>
                                 Ok (mkCaseClause pts b'))
                        end) cs ≫= (fun cs' =>
      Ok (Match ss' cs' r'))))
  | Cast a b =>
      subst a var replacement ≫= (fun a' =>
      subst b var replacement ≫= (fun b' => Ok (Cast a' b')))
  | App a b =>
      subst a var replacement ≫= (fun a' =>
      subst b var replacement ≫= (fun b' => Ok (App a' b')))
  end.

(** [Fix.subst] leaves through a bare [return] when [var] is one of the
    names the [Fix] binds: the call then evaluates to [None], not to
    [self]. *)
Definition subst_returns_None (t : Term) (var : string) : bool :=
  match t with
  | Fix f ps _ _ _ =>
      Var_eqb f var
      || bool_decide (var ∈ (list_to_set (concat (map Binder_get_names ps)) : gset string))
  | _ => false
  end.

(** The value of the expression [t.subst(var, replacement)]. *)
Definition subst_value (t : Term) (var replacement : string) : exc (option Term) :=
  subst t var replacement ≫= (fun t' =>
  Ok (if subst_returns_None t var then None else Some t')).

(** [o.subst(var, replacement)] on a Python variable that holds a term or
    [None]. *)
Definition subst_object (o : option Term) (var replacement : string) : exc (option Term) :=
  match o with
  | None => Raise AttributeError
  | Some t => subst t var replacement ≫= (fun t' => Ok (Some t'))
  end.

(** ** Free variables: the [free_vars] methods *)

(** The names a clause binds, wildcards left out:
    [bv for bv in pattern.get_bound_vars() if bv.get_name() != '_']. *)
Definition non_wildcard (s : gset string) : gset string := s ∖ {[ "_" ]}.

Fixpoint free_vars (t : Term) : gset string :=
  match t with
  | Var x => {[ x ]}
  | Sort _ _ => ∅
  | Fun x ty b | Product x ty b => (free_vars b ∖ {[ x ]}) ∪ free_vars ty
  | Let x ty d b => ((free_vars b ∖ {[ x ]}) ∪ free_vars ty) ∪ free_vars d
  | Cond g r th el al =>
      ((free_vars r ∖ (match al with Some a => {[ a ]} | None => ∅ end))
       ∪ free_vars th) ∪ free_vars el
  | Fix f ps r b st =>
      let names : gset string := list_to_set (concat (map Binder_get_names ps)) in
      let param_types_fvs :=
        ⋃ (map (fun p => match p with
                         | mkBinder ns ty => free_vars ty ∖ list_to_set ns
                         end) ps) ∖ names in
      let body_fvs := (free_vars b ∖ {[ f ]}) ∖ names in
      (free_vars r ∪ param_types_fvs) ∪ body_fvs
  | Match ss cs r =>
      (⋃ (map (fun s => match s with
                        | mkMatchSubject tm _ pt =>
                            free_vars tm
                            ∪ (match pt with Some p => Pattern_free_vars p | None => ∅ end)
                        end) ss)
       ∪ (match r with Some ty => free_vars ty | None => ∅ end))
      ∪ ⋃ (map (fun c => match c with
                         | mkCaseClause pts b =>
                             free_vars b
                             ∖ ⋃ (map (fun p => non_wildcard (Pattern_get_bound_vars p)) pts)
                         end) cs)
  | Cast a b | App a b => free_vars a ∪ free_vars b
  end.

(** ** Alpha-equivalence: the [alpha_equiv] methods *)

(** [Var('SynthesizedVar#%d' % i)] *)
Definition SynthesizedVar (i : nat) : string :=
  "SynthesizedVar#" +:+ NilZero.string_of_uint (Nat.to_uint i).

(** [l.sort(key=lambda x: x.get_name())]: a stable sort on the names. *)
Fixpoint insert_by_name (x : string) (l : list string) : list string :=
  match l with
  | [] => [x]
  | y :: l' => if String.leb x y then x :: l else y :: insert_by_name x l'
  end.

Definition sort_by_name (l : list string) : list string :=
  foldr insert_by_name [] l.

(** [[bv for x in xs for bv in x.get_bound_vars() if bv.get_name() != '_']],
    sorted.  The order in which a Python set is walked does not matter
    once the list is sorted.

    The names are strings here, and [list.sort] on strings returns.  A term
    that [goal_parser.py] builds holds an alias as [Var(Var(name))]
    ([visitAlias]), whose [get_name()] is a [Var]: on a list of two or more
    bound variables with such an alias [list.sort] raises [TypeError].  So
    what is stated below of comparisons that return is stated of terms
    without aliases ([alias_free]). *)
Definition sorted_bound_vars {A : Type} (bound : A -> gset string) (xs : list A) : list string :=
  sort_by_name
    (concat (map (fun x => List.filter (fun bv => negb (String.eqb bv "_")) (elements (bound x))) xs)).

(** The renaming loop
    [for i in range(n): this.subst(this_bvs[i], v); other.subst(other_bvs[i], v)]
    on two objects that hold a term or [None]; the two lists have the same
    length [n]. *)
Fixpoint rename_bound_vars (i : nat) (this_bvs other_bvs : list string)
    (this other : option Term) : exc (option Term * option Term) :=
  match this_bvs, other_bvs with
  | x :: xs, y :: ys =>
      subst_object this x (SynthesizedVar i) ≫= (fun this' =>
      subst_object other y (SynthesizedVar i) ≫= (fun other' =>
      rename_bound_vars (S i) xs ys this' other'))
  | _, _ => Ok (this, other)
  end.

(** [a == b] on two objects that hold a term or [None]. *)
Definition object_eq (a b : option Term) : exc bool := opt_Term_eq Term_eqb a b.

(** [CaseClause.alpha_equiv] *)
Definition CaseClause_alpha_equiv (c other : CaseClause) : exc bool :=
  match c, other with
  | mkCaseClause pts b, mkCaseClause pts' b' =>
      if negb (Nat.eqb (length pts) (length pts')) then Ok false
      else
        let this_bvs := sorted_bound_vars Pattern_get_bound_vars pts in
        let other_bvs := sorted_bound_vars Pattern_get_bound_vars pts' in
        if negb (Nat.eqb (length this_bvs) (length other_bvs)) then Ok false
        else
          rename_bound_vars 0 this_bvs other_bvs (Some b) (Some b') ≫= (fun r =>
          object_eq r.1 r.2)
  end.

(** The loop over all pairs of clauses in [Match.alpha_equiv]:
    [for c1 in self.cases: for c2 in other.cases:
       if not c1.alpha_equiv(c2): return False];
    the result is [true] when the loop runs to its end. *)
Fixpoint all_alpha_equiv_to (c1 : CaseClause) (others : list CaseClause) : exc bool :=
  match others with
  | [] => Ok true
  | c2 :: r => and_then (CaseClause_alpha_equiv c1 c2) (all_alpha_equiv_to c1 r)
  end.

Fixpoint all_pairs_alpha_equiv (cs others : list CaseClause) : exc bool :=
  match cs with
  | [] => Ok true
  | c1 :: r => and_then (all_alpha_equiv_to c1 others) (all_pairs_alpha_equiv r others)
  end.

(** [TermAbstraction.alpha_equiv], given [var_type.alpha_equiv] and
    [body.alpha_equiv] of [self]. *)
Definition TermAbstraction_alpha_equiv
    (var_type_alpha_equiv body_alpha_equiv : Term -> exc bool)
    (x : string) (b : Term) (y : string) (ty' b' : Term) : exc bool :=
  var_type_alpha_equiv ty' ≫= (fun same_type : bool =>
  if negb same_type then Ok false
  else if Var_eqb x y then body_alpha_equiv b'
  else
    subst_value b x (SynthesizedVar 0) ≫= (fun this_body =>
    subst_value b' y (SynthesizedVar 0) ≫= (fun other_body =>
    object_eq this_body other_body))).

Fixpoint alpha_equiv (t other : Term) {struct t} : exc bool :=
  match t with
  | Var _ | Sort _ _ => Term_eqb t other
  | Fun x ty b =>
      match other with
      | Fun y ty' b' =>
          TermAbstraction_alpha_equiv (alpha_equiv ty) (alpha_equiv b) x b y ty' b'
      | _ => Ok false
      end
  | Product x ty b =>
      match other with
      | Product y ty' b' =>
          TermAbstraction_alpha_equiv (alpha_equiv ty) (alpha_equiv b) x b y ty' b'
      | _ => Ok false
      end
  | Let x ty d b =>
      match other with
      | Let y ty' d' b' =>
          and_then
            (TermAbstraction_alpha_equiv (alpha_equiv ty) (alpha_equiv b) x b y ty' b')
            (alpha_equiv d d')
      | _ => Ok false
      end
  | Cond g r th el al =>
      match other with
      | Cond g' r' th' el' al' =>
          match al, al' with
          | None, None =>
              and_then (alpha_equiv g g')
                (and_then (alpha_equiv th th') (alpha_equiv el el'))
          | Some a, Some a' =>
              subst_value r a (SynthesizedVar 0) ≫= (fun this_ret_ty =>
              subst_value r' a' (SynthesizedVar 0) ≫= (fun other_ret_ty =>
              object_eq this_ret_ty other_ret_ty ≫= (fun same : bool =>
              if negb same then Ok false
              else
                and_then (alpha_equiv g g')
                  (and_then (alpha_equiv th th') (alpha_equiv el el')))))
          | _, _ => Ok false
          end
      | _ => Ok false
      end
  | Fix f ps r b st =>
      match other with
      | Fix f' ps' r' b' st' =>
          if negb (Nat.eqb (length ps) (length ps')) then Ok false
          else
            alpha_equiv r r' ≫= (fun same_ret : bool =>
            if negb same_ret then Ok false
            else
              let bvs := fun (g : string) (qs : list Binder) =>
                g :: concat (map (fun q => List.filter (fun n => negb (String.eqb n "_"))
                                             (Binder_get_names q)) qs) in
              let this_bvs := bvs f ps in
              let other_bvs := bvs f' ps' in
              if negb (Nat.eqb (length this_bvs) (length other_bvs)) then Ok false
              else
                rename_bound_vars 0 (sort_by_name this_bvs) (sort_by_name other_bvs)
                  (Some b) (Some b') ≫= (fun p =>
                object_eq p.1 p.2))
      | _ => Ok false
      end
  | Match ss cs r =>
      match other with
      | Match ss' cs' r' =>
          if negb (Nat.eqb (length cs) (length cs')) then Ok false
          else if negb (Nat.eqb (length ss) (length ss')) then Ok false
          else
            all_pairs_alpha_equiv cs cs' ≫= (fun all_cases : bool =>
            if negb all_cases then Ok false
            else
              let this_bvs := sorted_bound_vars MatchSubject_get_bound_vars ss in
              let other_bvs := sorted_bound_vars MatchSubject_get_bound_vars ss' in
              if negb (Nat.eqb (length this_bvs) (length other_bvs)) then Ok false
              else
                rename_bound_vars 0 this_bvs other_bvs r r' ≫= (fun p =>
                object_eq p.1 p.2))
      | _ => Ok false
      end
  | Cast a b =>
      match other with
      | Cast a' b' => and_then (alpha_equiv a a') (alpha_equiv b b')
      | _ => Ok false
      end
  | App a b =>
      match other with
      | App a' b' => and_then (alpha_equiv a a') (alpha_equiv b b')
      | _ => Ok false
      end
  end.

(** ** The variable dependency DAG ([var_dag.py]) *)

(** [adj] is a Python dict, walked in insertion order: an association list
    with one entry per node.  [visited] and [topo_sort_res] are the two
    other fields of the object. *)
Record VarDAG : Type := mkVarDAG {
  adj : list (string * list string);
  visited : gset string;
  topo_sort_res : list string
}.

(** [VarDAG()] *)
Definition VarDAG_new : VarDAG := mkVarDAG [] ∅ [].

(** [self.__adj[node]] *)
Fixpoint adj_lookup (node : string) (a : list (string * list string)) : option (list string) :=
  match a with
  | [] => None
  | (k, vs) :: a' => if String.eqb k node then Some vs else adj_lookup node a'
  end.

(** [self.__adj[src].append(dst)] *)
Fixpoint adj_append (src dst : string) (a : list (string * list string))
    : list (string * list string) :=
  match a with
  | [] => []
  | (k, vs) :: a' =>
      if String.eqb k src then (k, vs ++ [dst]) :: a' else (k, vs) :: adj_append src dst a'
  end.

Definition adj_add_node (node : string) (a : list (string * list string))
    : list (string * list string) :=
  match adj_lookup node a with
  | Some _ => a
  | None => a ++ [(node, [])]
  end.

Definition add_node (node : string) (g : VarDAG) : VarDAG :=
  mkVarDAG (adj_add_node node (adj g)) (visited g) (topo_sort_res g).

Definition add_edge (src dst : string) (g : VarDAG) : VarDAG :=
  mkVarDAG (adj_append src dst (adj_add_node dst (adj_add_node src (adj g))))
           (visited g) (topo_sort_res g).

(** The state [__dfs_visit] works on: the two fields of the DAG it writes
    and the set [local_visited] that all the nested calls share. *)
Record dfs_state : Type := mkDfs {
  dfs_visited : gset string;
  dfs_local_visited : gset string;
  dfs_res : list string
}.

(** The loop [for v in self.__adj[node]] of [__dfs_visit]; [visit] is the
    nested call [self.__dfs_visit]. *)
Fixpoint dfs_loop (visit : string -> dfs_state -> exc dfs_state)
    (vs : list string) (st : dfs_state) {struct vs} : exc dfs_state :=
  match vs with
  | [] => Ok st
  | v :: vs' =>
      if bool_decide (v ∉ dfs_visited st) then
        visit v st ≫= dfs_loop visit vs'
      else if bool_decide (v ∈ dfs_local_visited st) then
        Raise ValueError
      else dfs_loop visit vs' st
  end.

(** [__dfs_visit]; [budget] bounds the depth of the nested calls. *)
Fixpoint dfs_visit (budget : nat) (a : list (string * list string))
    (node : string) (st : dfs_state) {struct budget} : exc dfs_state :=
  match budget with
  | 0 => Raise RecursionError
  | S budget' =>
      let st1 := mkDfs ({[ node ]} ∪ dfs_visited st)
                       ({[ node ]} ∪ dfs_local_visited st)
                       (dfs_res st) in
      match adj_lookup node a with
      | None => Raise KeyError
      | Some succs =>
          dfs_loop (dfs_visit budget' a) succs st1 ≫= (fun st2 =>
          Ok (mkDfs (dfs_visited st2)
                    (dfs_local_visited st2 ∖ {[ node ]})
                    (node :: dfs_res st2)))
      end
  end.

(** The loop of [get_topological_ordering] over the nodes; every top-level
    visit gets a fresh [local_visited]. *)
Fixpoint visit_all (budget : nat) (a : list (string * list string))
    (nodes : list string) (vis : gset string) (res : list string)
    : exc (gset string * list string) :=
  match nodes with
  | [] => Ok (vis, res)
  | node :: nodes' =>
      if bool_decide (node ∉ vis) then
        dfs_visit budget a node (mkDfs vis ∅ res) ≫= (fun st =>
        visit_all budget a nodes' (dfs_visited st) (dfs_res st))
      else visit_all budget a nodes' vis res
  end.

(** [get_topological_ordering]: the DAG after the call and the list it
    returns.  A visit never nests deeper than the number of nodes. *)
Definition get_topological_ordering (g : VarDAG) : exc (VarDAG * list string) :=
  visit_all (length (adj g)) (adj g) (map fst (adj g)) ∅ [] ≫= (fun r =>
  Ok (mkVarDAG (adj g) r.1 r.2, r.2)).

(** A sequence of calls on a fresh [VarDAG]. *)
Inductive dag_call : Type :=
| call_add_node (node : string)
| call_add_edge (src dst : string).

Definition run_call (g : VarDAG) (c : dag_call) : VarDAG :=
  match c with
  | call_add_node n => add_node n g
  | call_add_edge s d => add_edge s d g
  end.

Definition build (calls : list dag_call) : VarDAG := foldl run_call VarDAG_new calls.

(** [s -> d] is an edge when [d] is in [adj[s]]. *)
Definition edge (a : list (string * list string)) (s d : string) : Prop :=
  exists ds, adj_lookup s a = Some ds /\ In d ds.

(** A non-empty path. *)
Inductive path (a : list (string * list string)) : string -> string -> Prop :=
| path_edge s d : edge a s d -> path a s d
| path_step s m d : edge a s m -> path a m d -> path a s d.

Definition acyclic (a : list (string * list string)) : Prop :=
  forall x, ~ path a x x.

(** [x] comes before [y] in [l]. *)
Definition before (x y : string) (l : list string) : Prop :=
  exists l1 l2 l3, l = l1 ++ x :: l2 ++ y :: l3.

(** ** The goal generaliser ([util.py]) *)

(** *** The string operations [generalize] uses *)

(** [s.index(c)] *)
Fixpoint str_index (c : ascii) (s : string) : exc nat :=
  match s with
  | EmptyString => Raise ValueError
  | String a s' =>
      if Ascii.eqb a c then Ok 0 else str_index c s' ≫= (fun i => Ok (S i))
  end.

(** [s[:i]] and [s[i:]] *)
Fixpoint str_take (i : nat) (s : string) : string :=
  match i, s with
  | S i', String a s' => String a (str_take i' s')
  | _, _ => EmptyString
  end.

Fixpoint str_drop (i : nat) (s : string) : string :=
  match i, s with
  | S i', String _ s' => str_drop i' s'
  | _, _ => s
  end.

(** The characters [str.strip()] removes, those for which [str.isspace]
    holds: a character of a [string] is a code point below 256, and there
    these are 9 to 13, 28 to 32, 133 and 160. *)
Definition is_space (a : ascii) : bool :=
  let n := nat_of_ascii a in
  (Nat.leb 9 n && Nat.leb n 13) || (Nat.leb 28 n && Nat.leb n 32)
  || Nat.eqb n 133 || Nat.eqb n 160.

Fixpoint lstrip (s : string) : string :=
  match s with
  | EmptyString => EmptyString
  | String a s' => if is_space a then lstrip s' else s
  end.

Fixpoint rstrip (s : string) : string :=
  match s with
  | EmptyString => EmptyString
  | String a s' =>
      match rstrip s' with
      | EmptyString => if is_space a then EmptyString else String a EmptyString
      | r => String a r
      end
  end.

(** [s.strip()] *)
Definition strip (s : string) : string := rstrip (lstrip s).

(** [s.split(c)] *)
Fixpoint split (c : ascii) (s : string) : list string :=
  match s with
  | EmptyString => [EmptyString]
  | String a s' =>
      if Ascii.eqb a c then EmptyString :: split c s'
      else match split c s' with
           | h :: t => String a h :: t
           | [] => [String a EmptyString]
           end
  end.

Section generalize.
(** [GoalParser(text).parse()]: the parser generated from the grammar,
    which is not part of the sources. *)
Variable parse : string -> Term.

(** The order in which Python walks a set. *)
Variable set_iter : gset string -> list string.

(** The body of the loop over the local context: one line
    [name{,name}* : type] defines every name it lists. *)
Definition add_definitions (local_context : gmap string (string * gset string))
    (d : string) : exc (gmap string (string * gset string)) :=
  str_index ":" d ≫= (fun index_of_colon =>
  let defn_body := strip (str_drop (index_of_colon + 1) d) in
  Ok (foldl (fun ctx defn_var =>
               <[ strip defn_var := (defn_body, free_vars (parse defn_body)) ]> ctx)
            local_context
            (split "," (str_take index_of_colon d)))).

Fixpoint read_local_context (lines : list string)
    (local_context : gmap string (string * gset string))
    : exc (gmap string (string * gset string)) :=
  match lines with
  | [] => Ok local_context
  | d :: lines' => add_definitions local_context d ≫= read_local_context lines'
  end.

(** [make_dag] *)
Definition make_dag (locally_defined_fvs : gset string)
    (local_context : gmap string (string * gset string)) : exc VarDAG :=
  foldl (fun (acc : exc VarDAG) (s : string) =>
           acc ≫= (fun dag =>
           match local_context !! s with
           | None => Raise KeyError
           | Some (_, fvs) =>
               Ok (foldl (fun dag d =>
                            if bool_decide (is_Some (local_context !! d))
                            then add_edge s d dag else dag)
                         (add_node s dag) (set_iter fvs))
           end))
        (Ok VarDAG_new) (set_iter locally_defined_fvs).

(** One step of the wrapping loop:
    ['forall (%s : %s), (%s)' % (fv, local_context[fv][0], goal)]. *)
Definition wrap_forall (local_context : gmap string (string * gset string))
    (goal : exc string) (fv : string) : exc string :=
  goal ≫= (fun g =>
  match local_context !! fv with
  | None => Raise KeyError
  | Some (defn_body, _) =>
      Ok ("forall (" +:+ fv +:+ " : " +:+ defn_body +:+ "), (" +:+ g +:+ ")")
  end).

(** The body of [generalize] after its first step
    [proof_tree.get_local_context(goal)], whose result is the first
    argument; [generalize_goal] below is the whole call, with the lookup
    and its [KeyError]. *)
Definition generalize (goal_local_context : list string) (goal : string) : exc string :=
  read_local_context goal_local_context ∅ ≫= (fun local_context =>
  let locally_defined_fvs : gset string :=
    list_to_set (List.filter (fun fv => bool_decide (is_Some (local_context !! fv)))
                        (set_iter (free_vars (parse goal)))) in
  make_dag locally_defined_fvs local_context ≫= (fun dag =>
  get_topological_ordering dag ≫= (fun r =>
  let rev_top_order := rev r.2 in
  foldl (wrap_forall local_context) (Ok goal) rev_top_order))).
End generalize.

(** [is_prod_body] *)
Fixpoint is_prod_body (p t : Term) : exc bool :=
  match p with
  | Product _ _ b =>
      Term_eqb b t ≫= (fun same : bool => if same then Ok true else is_prod_body b t)
  | _ => Ok false
  end.

(** ** The clone search ([main.py], [alpha.py]) *)

(** An entry of [goals_list]: the goal, its theorem, its file, its proof,
    the generalised goal and the local context. *)
Record Candidate : Type := mkCandidate {
  goal : string;
  thm_name : string;
  file_name : string;
  proof : list string;
  goal_gen : string;
  local_context : list string
}.

(** [goal_ast_map[key]] *)
Definition ast_of (goal_ast_map : gmap string Term) (key : string) : exc Term :=
  match goal_ast_map !! key with
  | Some a => Ok a
  | None => Raise KeyError
  end.

Definition isinstance_Product (t : Term) : bool :=
  match t with
  | Product _ _ _ => true
  | _ => false
  end.

(** The inner loop of the redundancy filter, for one [a1]. *)
Fixpoint mark_redundant (goal_ast_map : gmap string Term) (a1 : Term)
    (goals : list Candidate) (redundant : gset string) : exc (gset string) :=
  match goals with
  | [] => Ok redundant
  | g2 :: goals' =>
      ast_of goal_ast_map (goal_gen g2) ≫= (fun a2 =>
      and_then (Ok (isinstance_Product a1)) (is_prod_body a1 a2) ≫= (fun hit : bool =>
      mark_redundant goal_ast_map a1 goals'
        (if hit then {[ goal_gen g2 ]} ∪ redundant else redundant)))
  end.

(** The outer loop: [outer] is what is left of [goals_list] for [i]. *)
Fixpoint redundant_goals_loop (goal_ast_map : gmap string Term)
    (outer goals_list : list Candidate) (redundant : gset string) : exc (gset string) :=
  match outer with
  | [] => Ok redundant
  | g1 :: outer' =>
      ast_of goal_ast_map (goal_gen g1) ≫= (fun a1 =>
      mark_redundant goal_ast_map a1 goals_list redundant ≫= (fun redundant' =>
      redundant_goals_loop goal_ast_map outer' goals_list redundant'))
  end.

Definition redundant_goals (goal_ast_map : gmap string Term)
    (goals_list : list Candidate) : exc (gset string) :=
  redundant_goals_loop goal_ast_map goals_list goals_list ∅.

(** [[g for g in goals_list if g[4] not in redundant_goals]] *)
Definition drop_redundant (goal_ast_map : gmap string Term)
    (goals_list : list Candidate) : exc (list Candidate) :=
  redundant_goals goal_ast_map goals_list ≫= (fun redundant =>
  Ok (List.filter (fun g => bool_decide (goal_gen g ∉ redundant)) goals_list)).

(** What [find_alpha_equiv_goals] writes for one pair. *)
Definition nl : string := String "010"%char EmptyString.
Definition tab : string := String "009"%char EmptyString.

Definition report_entry (g1 g2 : Candidate) : string :=
  String.concat EmptyString
    [ "Goal 1: " +:+ goal g1 +:+ nl;
      tab +:+ " Inside theorem: " +:+ thm_name g1 +:+ nl;
      tab +:+ " Inside file: " +:+ file_name g1 +:+ nl;
      tab +:+ " Proof:" +:+ nl;
      String.concat nl (map (fun x => tab +:+ tab +:+ x) (proof g1));
      nl +:+ "Goal 2: " +:+ goal g2 +:+ nl;
      tab +:+ " Inside theorem: " +:+ thm_name g2 +:+ nl;
      tab +:+ " Inside file: " +:+ file_name g2 +:+ nl;
      tab +:+ " Proof:" +:+ nl;
      String.concat nl (map (fun x => tab +:+ tab +:+ x) (proof g2));
      nl;
      "==================================================";
      nl ].

(** The inner loop, [for j in range(i + 1, len(goals_list))]: the pairs
    [(i, j)] that are written. *)
Fixpoint scan_against (goal_ast_map : gmap string Term) (i : nat) (g1 : Candidate)
    (a1 : Term) (j : nat) (rest : list Candidate) : exc (list (nat * nat)) :=
  match rest with
  | [] => Ok []
  | g2 :: rest' =>
      if String.eqb (thm_name g1) (thm_name g2) then
        scan_against goal_ast_map i g1 a1 (S j) rest'
      else
        ast_of goal_ast_map (goal_gen g2) ≫= (fun a2 =>
        alpha_equiv a1 a2 ≫= (fun clone : bool =>
        scan_against goal_ast_map i g1 a1 (S j) rest' ≫= (fun more =>
        Ok (if clone then (i, j) :: more else more))))
  end.

(** The outer loop, [for i in range(len(goals_list))]. *)
Fixpoint scan_from (goal_ast_map : gmap string Term) (i : nat)
    (goals : list Candidate) : exc (list (nat * nat)) :=
  match goals with
  | [] => Ok []
  | g1 :: rest =>
      ast_of goal_ast_map (goal_gen g1) ≫= (fun a1 =>
      scan_against goal_ast_map i g1 a1 (S i) rest ≫= (fun pairs =>
      scan_from goal_ast_map (S i) rest ≫= (fun more =>
      Ok (pairs ++ more))))
  end.

(** The value of the call [find_alpha_equiv_goals]: when it returns, the
    index pairs of the report in the order they are written; when a lookup
    or a comparison raises, the exception.  The pairs already written to the
    report when the exception ends the scan are those of [report_written]
    below. *)
Definition find_alpha_equiv_goals (goal_ast_map : gmap string Term)
    (goals_list : list Candidate) : exc (list (nat * nat)) :=
  scan_from goal_ast_map 0 goals_list.

(** The text of the report. *)
Definition report_text (goals_list : list Candidate) (pairs : list (nat * nat))
    : string :=
  String.concat EmptyString
    (map (fun ij =>
            match goals_list !! ij.1, goals_list !! ij.2 with
            | Some g1, Some g2 => report_entry g1 g2
            | _, _ => EmptyString
            end) pairs).

(** The tail of [main.py]: the redundant candidates are dropped, then the
    remaining ones are scanned. *)
Definition clone_search (goal_ast_map : gmap string Term)
    (goals_list : list Candidate) : exc (list Candidate * list (nat * nat)) :=
  drop_redundant goal_ast_map goals_list ≫= (fun kept =>
  find_alpha_equiv_goals goal_ast_map kept ≫= (fun pairs =>
  Ok (kept, pairs))).

(** ** Notions the statements below use *)

(** The number of [Product] layers on top of a term. *)
Fixpoint prod_depth (t : Term) : nat :=
  match t with
  | Product _ _ b => S (prod_depth b)
  | _ => 0
  end.

(** A case clause whose body fits the budget [n]. *)
Definition small (n : nat) (c : CaseClause) : Prop := CaseClause_height c < n.

(** [unwraps_to a b]: unwrapping the body of [a] through its nested
    [Product] layers reaches, at some layer, a term that is [==] to [b]. *)
Inductive unwraps_to : Term -> Term -> Prop :=
| unwraps_here x ty body t :
    Term_eqb body t = Ok true -> unwraps_to (Product x ty body) t
| unwraps_deeper x ty body t :
    unwraps_to body t -> unwraps_to (Product x ty body) t.
(** [hits m a1 g2]: [a2], the AST cached for the candidate [g2], is reached
    by unwrapping [a1]. *)
Definition hits (goal_ast_map : gmap string Term) (a1 : Term) (g2 : Candidate) : Prop :=
  exists a2, goal_ast_map !! goal_gen g2 = Some a2 /\ unwraps_to a1 a2.

(** [clone_of m g1 a1 g2]: the scan reports the candidates [g1] (with AST
    [a1]) and [g2] as clones. *)
Definition clone_of (goal_ast_map : gmap string Term) (g1 : Candidate) (a1 : Term)
    (g2 : Candidate) : Prop :=
  thm_name g1 <> thm_name g2
  /\ exists a2, goal_ast_map !! goal_gen g2 = Some a2 /\ alpha_equiv a1 a2 = Ok true.

(** The comparison of two abstraction bodies the design describes:
    substitute the placeholder for the top-level bound variable in both
    bodies, then compare the results with literal equality. *)
Definition rename_then_compare (x : string) (b : Term) (y : string) (b' : Term) : exc bool :=
  subst_value b x (SynthesizedVar 0) ≫= (fun this_body =>
  subst_value b' y (SynthesizedVar 0) ≫= (fun other_body =>
  object_eq this_body other_body)).

(** The ASTs the parser gives for the three texts of the [generalize]
    example below; any other text is read as one name. *)
Definition example_parse (text : string) : Term :=
  if String.eqb text "P s" then App (Var "P") (Var "s")
  else if String.eqb text "T d" then App (Var "T") (Var "d")
  else Var text.

(** The nodes of the DAG are the keys of [adj]; the DAG is closed when every
    edge points to a node, which [add_edge] ensures. *)
Definition is_node (a : list (string * list string)) (n : string) : Prop :=
  is_Some (adj_lookup n a).

Definition closed (a : list (string * list string)) : Prop :=
  forall s d, edge a s d -> is_node a d.

(** [topo a l]: every element of [l] is followed by all the nodes it points
    to, and occurs once. *)
Fixpoint topo (a : list (string * list string)) (l : list string) : Prop :=
  match l with
  | [] => True
  | x :: l' => ~ In x l' /\ (forall y, edge a x y -> In y l') /\ topo a l'
  end.

(** The invariant of the traversal: the visited nodes are those on the
    stack of active calls and those already in the result, and the result
    is in topological order. *)
Record dfs_inv (a : list (string * list string)) (st : dfs_state) : Prop := mkInv {
  inv_visited : forall x, x ∈ dfs_visited st <-> x ∈ dfs_local_visited st \/ In x (dfs_res st);
  inv_disjoint : forall x, In x (dfs_res st) -> x ∉ dfs_local_visited st;
  inv_topo : topo a (dfs_res st)
}.

(** The number of nodes not visited yet. *)
Definition unvisited (a : list (string * list string)) (vis : gset string) : nat :=
  length (List.filter (fun k => bool_decide (k ∉ vis)) (map fst a)).

(** What a visit of [node] from the state [st] achieves with the budget
    [budget]: it returns, keeps the invariant and the stack, and puts [node]
    in the result. *)
Definition visit_ok (a : list (string * list string))
    (visit : string -> dfs_state -> exc dfs_state) (budget : nat) : Prop :=
  forall node st,
    is_node a node ->
    node ∉ dfs_visited st ->
    dfs_inv a st ->
    (forall x, x ∈ dfs_local_visited st -> path a x node) ->
    unvisited a (dfs_visited st) <= budget ->
    exists st',
      visit node st = Ok st'
      /\ dfs_inv a st'
      /\ dfs_local_visited st' = dfs_local_visited st
      /\ dfs_visited st ⊆ dfs_visited st'
      /\ In node (dfs_res st')
      /\ (forall x, In x (dfs_res st) -> In x (dfs_res st')).

(** What a visit achieves on a graph that may have a cycle: it returns as
    [visit_ok] says, with a result made of nodes, or it raises
    [ValueError]. *)
Definition visit_sound (a : list (string * list string))
    (visit : string -> dfs_state -> exc dfs_state) (budget : nat) : Prop :=
  forall node st,
    is_node a node ->
    node ∉ dfs_visited st ->
    dfs_inv a st ->
    (forall x, In x (dfs_res st) -> is_node a x) ->
    unvisited a (dfs_visited st) <= budget ->
    (exists st',
       visit node st = Ok st'
       /\ dfs_inv a st'
       /\ dfs_local_visited st' = dfs_local_visited st
       /\ dfs_visited st ⊆ dfs_visited st'
       /\ In node (dfs_res st')
       /\ (forall x, In x (dfs_res st) -> In x (dfs_res st'))
       /\ (forall x, In x (dfs_res st') -> is_node a x))
    \/ visit node st = Raise ValueError.

(** [Match_ok allow t]: no [Match] in [t] lacks its return type, and, when
    [allow] is [false], there is no [Match] in [t] at all. *)
Fixpoint Match_ok (allow : bool) (t : Term) : bool :=
  match t with
  | Var _ | Sort _ _ => true
  | Fun _ ty b | Product _ ty b => Match_ok allow ty && Match_ok allow b
  | Let _ ty d b => Match_ok allow ty && Match_ok allow d && Match_ok allow b
  | Cond g r th el _ =>
      Match_ok allow g && Match_ok allow r && Match_ok allow th && Match_ok allow el
  | Fix _ ps r b _ =>
      forallb (fun p => match p with mkBinder _ ty => Match_ok allow ty end) ps
      && Match_ok allow r && Match_ok allow b
  | Match ss cs r =>
      allow
      && forallb (fun s => match s with mkMatchSubject tm _ _ => Match_ok allow tm end) ss
      && forallb (fun c => match c with mkCaseClause _ b => Match_ok allow b end) cs
      && match r with Some ty => Match_ok allow ty | None => false end
  | Cast a b | App a b => Match_ok allow a && Match_ok allow b
  end.

(** Every [match] of the term has a [return] clause. *)
Definition Match_typed (t : Term) : bool := Match_ok true t.

(** The term has no [match]. *)
Definition Match_free (t : Term) : bool := Match_ok false t.

(** The two terms are instances of the same class. *)
Definition same_class (t u : Term) : bool :=
  match t, u with
  | Var _, Var _ | Sort _ _, Sort _ _ | Fun _ _ _, Fun _ _ _
  | Product _ _ _, Product _ _ _ | Let _ _ _ _, Let _ _ _ _
  | Cond _ _ _ _ _, Cond _ _ _ _ _ | Fix _ _ _ _ _, Fix _ _ _ _ _
  | Match _ _ _, Match _ _ _ | Cast _ _, Cast _ _ | App _ _, App _ _ => true
  | _, _ => false
  end.

(** [Product.build]: one layer per name, the first name of the first binder
    outermost.  In Python the layers of one binder hold the same type
    object; what is proved of the built product below only reads it. *)
Definition Product_build (params : list Binder) (body : Term) : Term :=
  foldr (fun param product =>
           match param with
           | mkBinder ns ty => foldr (fun name product => Product name ty product) product ns
           end) body params.

(** The number of names a list of binders declares. *)
Definition count_names (params : list Binder) : nat :=
  length (concat (map Binder_get_names params)).

(** What [subst] guarantees for its result [t'] on [t]: no [Match] of [t']
    lacks its return type, and [t'] is [t] when the variable is not free in
    [t] or is replaced by itself. *)
Definition subst_post (allow : bool) (v r : string) (t t' : Term) : Prop :=
  Match_ok allow t' = true
  /\ (v ∉ free_vars t -> t' = t)
  /\ (r = v -> t' = t).

(** [d] is a direct dependency of [s]: a free variable of the type the local
    context gives to [s] that the local context defines too. *)
Definition direct_dependency (local_context : gmap string (string * gset string))
    (s d : string) : Prop :=
  exists defn_body fvs,
    local_context !! s = Some (defn_body, fvs) /\ d ∈ fvs /\ is_Some (local_context !! d).

(** The order of the report: by first index, then by second. *)
Definition pair_lt (p q : nat * nat) : Prop :=
  p.1 < q.1 \/ (p.1 = q.1 /\ p.2 < q.2).

(** The depth of the cached AST of a candidate ([0] without one). *)
Definition cached_depth (goal_ast_map : gmap string Term) (g : Candidate) : nat :=
  match goal_ast_map !! goal_gen g with
  | Some a => prod_depth a
  | None => 0
  end.

(** ** Proof trees ([proof_tree.py]) and the candidates of [main.py] *)

(** The entry the tree holds for a goal (written by [__add_node]). *)
Record ProofNode : Type := mkProofNode {
  locally_defined_symbols : list string;
  node_local_context : list string;
  children : list string;
  tactic : string
}.

(** [ProofTree]: the dict [__tree], in insertion order, and the name of the
    theorem. *)
Record ProofTree : Type := mkProofTree {
  tree : list (string * ProofNode);
  theorem_name : string
}.

(** [ProofForest] *)
Record ProofForest : Type := mkProofForest {
  file_path : string;
  proof_trees : list ProofTree
}.

(** [self.__tree[node]], when [node in self.__tree]. *)
Fixpoint tree_get (node : string) (t : list (string * ProofNode)) : option ProofNode :=
  match t with
  | [] => None
  | (k, m) :: t' => if String.eqb k node then Some m else tree_get node t'
  end.

(** [__get_proof(node, acc, visited)]: the state is [(acc, visited)].  The
    recursion goes one level down for every node it marks, so the budget
    [get_proof] gives it, one more than the number of nodes, is never used
    up ([get_proof_spec] below). *)
Fixpoint get_proof_visit (budget : nat) (t : list (string * ProofNode)) (node : string)
    (st : list string * gset string) : exc (list string * gset string) :=
  match budget with
  | 0 => Raise RecursionError
  | S budget' =>
      match tree_get node t with
      | None => Ok st
      | Some m =>
          if bool_decide (node ∈ st.2) then Ok st
          else
            foldl (fun (acc : exc (list string * gset string)) (child : string) =>
                     acc ≫= get_proof_visit budget' t child)
                  (Ok (st.1 ++ [tactic m], {[ node ]} ∪ st.2))
                  (children m)
      end
  end.

(** [get_proof] *)
Definition get_proof (pt : ProofTree) (node : string) : exc (list string) :=
  get_proof_visit (S (length (tree pt))) (tree pt) node ([], ∅) ≫= (fun st => Ok st.1).

(** [get_local_context] *)
Definition get_local_context (pt : ProofTree) (node : string) : exc (list string) :=
  match tree_get node (tree pt) with
  | Some m => Ok (node_local_context m)
  | None => Raise KeyError
  end.

(** [get_nodes] *)
Definition get_nodes (pt : ProofTree) : list string := map fst (tree pt).

(** [d] is [node] or one of its descendants in the tree. *)
Inductive reaches (t : list (string * ProofNode)) : string -> string -> Prop :=
| reaches_self node m : tree_get node t = Some m -> reaches t node node
| reaches_child node m child d :
    tree_get node t = Some m -> In child (children m) -> reaches t child d ->
    reaches t node d.

(** The tactic stored for a node. *)
Definition tactic_of (t : list (string * ProofNode)) (node : string) : string :=
  match tree_get node t with
  | Some m => tactic m
  | None => EmptyString
  end.

Section collect.
Variable parse : string -> Term.
Variable set_iter : gset string -> list string.

(** The body of the loop over the nodes of one proof tree in [main.py]. *)
Definition collect_node (min_proof_sz : nat) (path : string) (pt : ProofTree)
    (st : gmap string Term * list Candidate) (n : string)
    : exc (gmap string Term * list Candidate) :=
  get_proof pt n ≫= (fun prf =>
  if Nat.leb min_proof_sz (length prf) then
    get_local_context pt n ≫= (fun ctx =>
    generalize parse set_iter ctx n ≫= (fun n_gen =>
    get_proof pt n ≫= (fun proof_n =>
    get_local_context pt n ≫= (fun local_context_n =>
    Ok (<[ n_gen := parse n_gen ]> st.1,
        st.2 ++ [mkCandidate n (theorem_name pt) path proof_n n_gen local_context_n])))))
  else Ok st).

Definition collect_tree (min_proof_sz : nat) (path : string)
    (st : gmap string Term * list Candidate) (pt : ProofTree)
    : exc (gmap string Term * list Candidate) :=
  foldl (fun acc n => acc ≫= (fun st => collect_node min_proof_sz path pt st n))
        (Ok st) (get_nodes pt).

Definition collect_forest (min_proof_sz : nat)
    (st : gmap string Term * list Candidate) (forest : ProofForest)
    : exc (gmap string Term * list Candidate) :=
  foldl (fun acc pt => acc ≫= (fun st => collect_tree min_proof_sz (file_path forest) st pt))
        (Ok st) (proof_trees forest).

(** The loop of [main.py] that fills [goal_ast_map] and [goals_list]. *)
Definition collect_candidates (min_proof_sz : nat) (forests : list ProofForest)
    : exc (gmap string Term * list Candidate) :=
  foldl (fun acc forest => acc ≫= (fun st => collect_forest min_proof_sz st forest))
        (Ok (∅, [])) forests.
End collect.

(** The child relation of a proof tree, as an adjacency list. *)
Definition tree_adj (t : list (string * ProofNode)) : list (string * list string) :=
  map (fun e => (e.1, children e.2)) t.

(** What a visit of [node] adds to the state [(acc, V)]: the tactics of the
    nodes [new], which are new, distinct, descendants of [node], and all of
    whose children in the tree are marked in the end. *)
Definition visit_post (t : list (string * ProofNode)) (from : list string)
    (st st' : list string * gset string) (new : list string) : Prop :=
  st'.1 = st.1 ++ map (tactic_of t) new
  /\ (forall x, x ∈ st'.2 <-> x ∈ st.2 \/ In x new)
  /\ List.NoDup new
  /\ (forall x, In x new ->
        (x ∉ st.2) /\ exists c, In c from /\ reaches t c x)
  /\ (forall c, In c from -> is_Some (tree_get c t) -> c ∈ st'.2)
  /\ (forall x m c, In x new -> tree_get x t = Some m -> In c (children m) ->
        is_Some (tree_get c t) -> c ∈ st'.2).

(** ** The report as it is written ([alpha.py]) *)

(** The inner loop of [find_alpha_equiv_goals] with the report file: the
    pairs written, and the exception that ended the loop if one did.  A pair
    is written as soon as its comparison returns [True], so what is written
    before an exception stays in the file. *)
Fixpoint write_against (goal_ast_map : gmap string Term) (i : nat) (g1 : Candidate)
    (a1 : Term) (j : nat) (rest : list Candidate) : list (nat * nat) * option exn :=
  match rest with
  | [] => ([], None)
  | g2 :: rest' =>
      if String.eqb (thm_name g1) (thm_name g2) then
        write_against goal_ast_map i g1 a1 (S j) rest'
      else
        match ast_of goal_ast_map (goal_gen g2) with
        | Raise e => ([], Some e)
        | Ok a2 =>
            match alpha_equiv a1 a2 with
            | Raise e => ([], Some e)
            | Ok clone =>
                let r := write_against goal_ast_map i g1 a1 (S j) rest' in
                ((if clone then [(i, j)] else []) ++ r.1, r.2)
            end
        end
  end.

(** The outer loop. *)
Fixpoint write_from (goal_ast_map : gmap string Term) (i : nat)
    (goals : list Candidate) : list (nat * nat) * option exn :=
  match goals with
  | [] => ([], None)
  | g1 :: rest =>
      match ast_of goal_ast_map (goal_gen g1) with
      | Raise e => ([], Some e)
      | Ok a1 =>
          let r := write_against goal_ast_map i g1 a1 (S i) rest in
          match r.2 with
          | Some e => (r.1, Some e)
          | None =>
              let r' := write_from goal_ast_map (S i) rest in
              (r.1 ++ r'.1, r'.2)
          end
      end
  end.

(** What [find_alpha_equiv_goals] leaves in the report file, and the
    exception it ends with, if any. *)
Definition report_written (goal_ast_map : gmap string Term)
    (goals_list : list Candidate) : list (nat * nat) * option exn :=
  write_from goal_ast_map 0 goals_list.

(** ** Terms without aliases *)

Definition Pattern_alias_free (p : Pattern) : bool :=
  match pat_alias p with
  | None => true
  | Some _ => false
  end.

(** [alias_free t]: the term holds no alias, neither on the guard of a
    conditional, nor on a match subject, nor in a pattern.  These are the
    terms of [goal_parser.py] all of whose names are [Var]s of a string. *)
Fixpoint alias_free (t : Term) : bool :=
  match t with
  | Var _ | Sort _ _ => true
  | Fun _ ty b | Product _ ty b => alias_free ty && alias_free b
  | Let _ ty d b => alias_free ty && alias_free d && alias_free b
  | Cond g r th el al =>
      match al with None => true | Some _ => false end
      && alias_free g && alias_free r && alias_free th && alias_free el
  | Fix _ ps r b _ =>
      forallb (fun p => match p with mkBinder _ ty => alias_free ty end) ps
      && alias_free r && alias_free b
  | Match ss cs r =>
      forallb (fun s => match s with
                        | mkMatchSubject tm al pt =>
                            match al with None => true | Some _ => false end
                            && match pt with
                               | None => true
                               | Some p => Pattern_alias_free p
                               end
                            && alias_free tm
                        end) ss
      && forallb (fun c => match c with
                           | mkCaseClause pts b =>
                               forallb Pattern_alias_free pts && alias_free b
                           end) cs
      && match r with Some ty => alias_free ty | None => true end
  | Cast a b | App a b => alias_free a && alias_free b
  end.

(** ** [generalize] as it is called *)

Section generalize_goal.
Variable parse : string -> Term.
Variable set_iter : gset string -> list string.

End generalize_goal.

(** * Theorems *)

#[local] Set Warnings "-clear-no-such-hyp".

(** ** The exception monad *)

Lemma bind_Ok {A B : Type} (m : exc A) (k : A -> exc B) (b : B) :
  m ≫= k = Ok b <-> exists a, m = Ok a /\ k a = Ok b.
Proof.
  destruct m as [a|e]; simpl; split.
  - intros H. exists a. auto.
  - intros (a' & Ha & Hk). inversion Ha. subst. exact Hk.
  - discriminate.
  - intros (a' & Ha & _). discriminate.
Qed.

Lemma and_then_true (a b : exc bool) :
  and_then a b = Ok true <-> a = Ok true /\ b = Ok true.
Proof.
  unfold and_then. destruct a as [[|]|e]; simpl; split; try tauto;
    try (intros [H _]; discriminate); try discriminate.
Qed.

Lemma and_then_total (a b : exc bool) :
  (exists x, a = Ok x) -> (exists y, b = Ok y) -> exists z, and_then a b = Ok z.
Proof.
  intros [x ->] [y ->]. destruct x; simpl; eauto.
Qed.

(** ** Literal equality never runs out of budget and is reflexive *)

Lemma Var_eqb_refl (x : string) : Var_eqb x x = true.
Proof. apply String.eqb_refl. Qed.

Lemma opt_Var_eqb_refl (a : option string) : opt_Var_eqb a a = true.
Proof. destruct a; simpl; auto using Var_eqb_refl. Qed.

Lemma Var_list_eqb_refl (l : list string) : Var_list_eqb l l = true.
Proof.
  unfold Var_list_eqb. rewrite Nat.eqb_refl. simpl.
  induction l as [|x l IH]; simpl; [reflexivity|].
  rewrite Var_eqb_refl. exact IH.
Qed.

Lemma Pattern_eqb_refl (p : Pattern) : Pattern_eqb p p = true.
Proof.
  unfold Pattern_eqb. rewrite Var_list_eqb_refl, opt_Var_eqb_refl. reflexivity.
Qed.

Section list_eq_facts.
Context {A : Type} (eqA : A -> A -> exc bool).

Lemma list_items_eq_total (P Q : A -> Prop) (l l' : list A) :
  (forall x y, P x -> Q y -> exists b, eqA x y = Ok b) ->
  Forall P l -> Forall Q l' -> exists b, list_items_eq eqA l l' = Ok b.
Proof.
  intros Htot Hl. revert l'. induction Hl as [|x l Hx Hl IH]; intros l' Hl'.
  - simpl. eauto.
  - destruct Hl' as [|y l' Hy Hl']; simpl; [eauto|].
    apply and_then_total; auto.
Qed.

Lemma list_eq_total (P Q : A -> Prop) (l l' : list A) :
  (forall x y, P x -> Q y -> exists b, eqA x y = Ok b) ->
  Forall P l -> Forall Q l' -> exists b, list_eq eqA l l' = Ok b.
Proof.
  intros. unfold list_eq. destruct (Nat.eqb _ _); [|eauto].
  eapply list_items_eq_total; eauto.
Qed.

Lemma list_eq_refl (l : list A) :
  Forall (fun x => eqA x x = Ok true) l -> list_eq eqA l l = Ok true.
Proof.
  intros Hl. unfold list_eq. rewrite Nat.eqb_refl.
  induction Hl as [|x l Hx Hl IH]; simpl; [reflexivity|].
  apply and_then_true. auto.
Qed.
End list_eq_facts.

Section eq_step_facts.
Variable eqb : Term -> Term -> exc bool.
Variable n : nat.

(** The comparison of the subterms returns, and a subterm equals itself. *)
Hypothesis eqb_total :
  forall t u, height t < n -> height u < n -> exists b, eqb t u = Ok b.

Lemma Binder_eq_total (p q : Binder) :
  Binder_height p < n -> Binder_height q < n -> exists b, Binder_eq eqb p q = Ok b.
Proof.
  destruct p, q; simpl; intros. destruct (Var_list_eqb _ _); eauto.
Qed.

Lemma MatchSubject_eq_total (s s' : MatchSubject) :
  MatchSubject_height s < n -> MatchSubject_height s' < n ->
  exists b, MatchSubject_eq eqb s s' = Ok b.
Proof.
  destruct s, s'; simpl; intros.
  destruct (negb _); [eauto|]. destruct (negb _); eauto.
Qed.

Lemma CaseClause_eq_total (c c' : CaseClause) :
  CaseClause_height c < n -> CaseClause_height c' < n ->
  exists b, CaseClause_eq eqb c c' = Ok b.
Proof.
  destruct c as [ps b], c' as [ps' b']; simpl; intros.
  apply and_then_total; eauto.
  apply (list_eq_total _ (fun _ => True) (fun _ => True)); eauto.
  - apply Forall_forall; auto.
  - apply Forall_forall; auto.
Qed.

Lemma set_contains_total (s : list CaseClause) (key : CaseClause) :
  Forall (small n) s -> small n key -> exists b, set_contains eqb s key = Ok b.
Proof.
  intros Hs Hk. induction Hs as [|c s Hc Hs IH]; simpl; [eauto|].
  destruct (bool_decide _); [|exact IH].
  destruct (CaseClause_eq_total c key Hc Hk) as [b ->]. simpl.
  destruct b; eauto.
Qed.

Lemma set_add_all_total (l s : list CaseClause) :
  Forall (small n) l -> Forall (small n) s ->
  exists s', set_add_all eqb l s = Ok s' /\ Forall (small n) s'.
Proof.
  intros Hl. revert s. induction Hl as [|c l Hc Hl IH]; intros s Hs; simpl.
  - eauto.
  - destruct (set_contains_total s c Hs Hc) as [b ->]. simpl.
    apply IH. destruct b; [exact Hs|].
    apply Forall_app. split; [exact Hs|]. constructor; [exact Hc|constructor].
Qed.

Lemma set_of_total (l : list CaseClause) :
  Forall (small n) l -> exists s, set_of eqb l = Ok s /\ Forall (small n) s.
Proof. intros. apply set_add_all_total; [assumption|constructor]. Qed.

Lemma set_subset_total (s s' : list CaseClause) :
  Forall (small n) s -> Forall (small n) s' -> exists b, set_subset eqb s s' = Ok b.
Proof.
  intros Hs Hs'. induction Hs as [|c s Hc Hs IH]; simpl; [eauto|].
  apply and_then_total; [|exact IH]. apply set_contains_total; assumption.
Qed.

Lemma set_eq_total (s s' : list CaseClause) :
  Forall (small n) s -> Forall (small n) s' -> exists b, set_eq eqb s s' = Ok b.
Proof.
  intros. unfold set_eq. destruct (Nat.eqb _ _); [|eauto].
  apply set_subset_total; assumption.
Qed.

Lemma opt_Term_eq_total (a b : option Term) :
  match a with Some t => height t < n | None => True end ->
  match b with Some t => height t < n | None => True end ->
  exists r, opt_Term_eq eqb a b = Ok r.
Proof. destruct a, b; simpl; eauto. Qed.
End eq_step_facts.

Lemma list_max_map_lt {A : Type} (f : A -> nat) (l : list A) (n : nat) :
  S (list_max (map f l)) <= n -> Forall (fun x => f x < n) l.
Proof.
  intros H. assert (Hle : list_max (map f l) <= n - 1) by lia.
  apply list_max_le in Hle. rewrite Forall_map in Hle.
  eapply Forall_impl; [exact Hle|]. simpl. intros; lia.
Qed.

Section eq_step_total.
Variable eqb : Term -> Term -> exc bool.
Variable n : nat.
Hypothesis eqb_total :
  forall t u, height t < n -> height u < n -> exists b, eqb t u = Ok b.

Lemma Match_parts_small (ss : list MatchSubject) (cs : list CaseClause)
    (r : option Term) :
  height (Match ss cs r) <= n ->
  Forall (fun s => MatchSubject_height s < n) ss
  /\ Forall (small n) cs
  /\ match r with Some t => height t < n | None => True end.
Proof.
  cbn [height]. intros H.
  split; [|split].
  - apply list_max_map_lt.
    change (fun s => match s with mkMatchSubject tm _ _ => height tm end)
      with MatchSubject_height in H. lia.
  - apply list_max_map_lt.
    change (fun c => match c with mkCaseClause _ b => height b end)
      with CaseClause_height in H. lia.
  - destruct r; [lia|exact I].
Qed.

Lemma Fix_parts_small (f : string) (ps : list Binder) (r b : Term)
    (st : option string) :
  height (Fix f ps r b st) <= n ->
  Forall (fun p => Binder_height p < n) ps /\ height r < n /\ height b < n.
Proof.
  cbn [height]. intros H.
  change (fun p => match p with mkBinder _ ty => height ty end)
    with Binder_height in H.
  split; [|lia]. apply list_max_map_lt. lia.
Qed.

Lemma Term_eq_step_total (t u : Term) :
  height t <= n -> height u <= n -> exists b, Term_eq_step eqb t u = Ok b.
Proof.
  intros Ht Hu.
  destruct t, u; try (simpl; eauto; fail).
  - (* Fun *) cbn [height] in Ht, Hu. cbn [Term_eq_step].
    apply and_then_total; apply eqb_total; lia.
  - (* Product *) cbn [height] in Ht, Hu. cbn [Term_eq_step].
    apply and_then_total; apply eqb_total; lia.
  - (* Let *) cbn [height] in Ht, Hu. cbn [Term_eq_step].
    repeat apply and_then_total; apply eqb_total; lia.
  - (* Cond *) cbn [height] in Ht, Hu. cbn [Term_eq_step].
    destruct (negb _); [eauto|].
    repeat apply and_then_total; apply eqb_total; lia.
  - (* Fix *)
    apply Fix_parts_small in Ht as (Hps & Hr & Hb).
    apply Fix_parts_small in Hu as (Hps' & Hr' & Hb').
    cbn [Term_eq_step]. destruct (negb _); [eauto|].
    repeat apply and_then_total; eauto.
    eapply list_eq_total; [|exact Hps|exact Hps'].
    intros p q Hp Hq. apply (Binder_eq_total eqb n); assumption.
  - (* Match *)
    apply Match_parts_small in Ht as (Hss & Hcs & Hr).
    apply Match_parts_small in Hu as (Hss' & Hcs' & Hr').
    cbn [Term_eq_step].
    repeat apply and_then_total.
    + eapply list_eq_total; [|exact Hss|exact Hss'].
      intros p q Hp Hq. apply (MatchSubject_eq_total eqb n); assumption.
    + destruct (set_of_total eqb n eqb_total _ Hcs) as (s & -> & Hs).
      destruct (set_of_total eqb n eqb_total _ Hcs') as (s' & -> & Hs').
      simpl. apply (set_eq_total eqb n); assumption.
    + apply (opt_Term_eq_total eqb n); assumption.
  - (* Cast *) cbn [height] in Ht, Hu. cbn [Term_eq_step].
    apply and_then_total; apply eqb_total; lia.
  - (* App *) cbn [height] in Ht, Hu. cbn [Term_eq_step].
    apply and_then_total; apply eqb_total; lia.
Qed.
End eq_step_total.

Lemma Term_eqb_n_total (n : nat) (t u : Term) :
  height t < n -> height u < n -> exists b, Term_eqb_n n t u = Ok b.
Proof.
  revert t u. induction n as [|n IH]; intros t u Ht Hu; [lia|].
  cbn [Term_eqb_n]. apply (Term_eq_step_total _ n IH); lia.
Qed.

(** [t == u] always returns: the budget of [Term_eqb] is enough. *)
Lemma Term_eqb_total (t u : Term) : exists b, Term_eqb t u = Ok b.
Proof. unfold Term_eqb. apply Term_eqb_n_total; lia. Qed.

Section eq_step_refl.
Variable eqb : Term -> Term -> exc bool.
Variable n : nat.
Hypothesis eqb_total :
  forall t u, height t < n -> height u < n -> exists b, eqb t u = Ok b.
Hypothesis eqb_refl : forall t, height t < n -> eqb t t = Ok true.

Lemma Binder_eq_refl (p : Binder) :
  Binder_height p < n -> Binder_eq eqb p p = Ok true.
Proof.
  destruct p; simpl; intros. rewrite Var_list_eqb_refl. auto.
Qed.

Lemma MatchSubject_eq_refl (s : MatchSubject) :
  MatchSubject_height s < n -> MatchSubject_eq eqb s s = Ok true.
Proof.
  destruct s as [tm al [p|]]; simpl; intros;
    rewrite opt_Var_eqb_refl; simpl; try rewrite Pattern_eqb_refl; simpl; auto.
Qed.

Lemma CaseClause_eq_refl (c : CaseClause) :
  small n c -> CaseClause_eq eqb c c = Ok true.
Proof.
  destruct c as [ps b]; unfold small; simpl; intros.
  apply and_then_true. split; [|auto].
  apply list_eq_refl. apply Forall_forall. intros p _.
  rewrite Pattern_eqb_refl. reflexivity.
Qed.

Lemma set_contains_self (s : list CaseClause) (key : CaseClause) :
  Forall (small n) s -> In key s -> set_contains eqb s key = Ok true.
Proof.
  intros Hs Hin.
  assert (Hk : small n key) by (rewrite List.Forall_forall in Hs; auto).
  induction Hs as [|c s Hc Hs IH]; [destruct Hin|]. simpl.
  destruct (bool_decide (CaseClause_hash c = CaseClause_hash key)) eqn:Hh.
  - destruct (CaseClause_eq_total eqb n eqb_total c key Hc Hk) as [b Hb].
    rewrite Hb. simpl. destruct b; [reflexivity|].
    destruct Hin as [->|Hin]; [|auto].
    rewrite CaseClause_eq_refl in Hb by assumption. discriminate.
  - destruct Hin as [->|Hin]; [|auto].
    apply bool_decide_eq_false in Hh. congruence.
Qed.

Lemma set_subset_of_incl (r s : list CaseClause) :
  Forall (small n) s -> (forall c, In c r -> In c s) ->
  set_subset eqb r s = Ok true.
Proof.
  intros Hs. induction r as [|c r IH]; intros Hin; simpl; [reflexivity|].
  apply and_then_true. split.
  - apply set_contains_self; [assumption|]. apply Hin. left. reflexivity.
  - apply IH. intros. apply Hin. right. assumption.
Qed.

Lemma set_eq_refl (s : list CaseClause) :
  Forall (small n) s -> set_eq eqb s s = Ok true.
Proof.
  intros. unfold set_eq. rewrite Nat.eqb_refl.
  apply set_subset_of_incl; auto.
Qed.

Lemma Term_eq_step_refl (t : Term) :
  height t <= n -> Term_eq_step eqb t t = Ok true.
Proof.
  intros Ht. destruct t.
  - simpl. rewrite Var_eqb_refl. reflexivity.
  - simpl. rewrite String.eqb_refl, bool_decide_eq_true_2 by reflexivity.
    reflexivity.
  - cbn [height] in Ht. cbn [Term_eq_step].
    apply and_then_true; split; apply eqb_refl; lia.
  - cbn [height] in Ht. cbn [Term_eq_step].
    apply and_then_true; split; apply eqb_refl; lia.
  - cbn [height] in Ht. cbn [Term_eq_step].
    repeat (apply and_then_true; split); apply eqb_refl; lia.
  - cbn [height] in Ht. cbn [Term_eq_step].
    rewrite opt_Var_eqb_refl. cbn [negb].
    repeat (apply and_then_true; split); apply eqb_refl; lia.
  - apply Fix_parts_small in Ht as (Hps & Hr & Hb).
    cbn [Term_eq_step]. rewrite opt_Var_eqb_refl. cbn [negb].
    repeat (apply and_then_true; split); auto.
    + rewrite Var_eqb_refl. reflexivity.
    + apply list_eq_refl. eapply Forall_impl; [exact Hps|].
      intros p Hp. apply Binder_eq_refl. exact Hp.
  - apply Match_parts_small in Ht as (Hss & Hcs & Hr).
    cbn [Term_eq_step].
    repeat (apply and_then_true; split).
    + apply list_eq_refl. eapply Forall_impl; [exact Hss|].
      intros p Hp. apply MatchSubject_eq_refl. exact Hp.
    + destruct (set_of_total eqb n eqb_total _ Hcs) as (s & -> & Hs).
      simpl. apply set_eq_refl. exact Hs.
    + destruct ret_ty; simpl; auto.
  - cbn [height] in Ht. cbn [Term_eq_step].
    apply and_then_true; split; apply eqb_refl; lia.
  - cbn [height] in Ht. cbn [Term_eq_step].
    apply and_then_true; split; apply eqb_refl; lia.
Qed.
End eq_step_refl.

Lemma Term_eqb_n_refl (n : nat) (t : Term) :
  height t < n -> Term_eqb_n n t t = Ok true.
Proof.
  revert t. induction n as [|n IH]; intros t Ht; [lia|].
  cbn [Term_eqb_n].
  apply (Term_eq_step_refl _ n); [|exact IH|lia].
  intros. apply Term_eqb_n_total; assumption.
Qed.

(** [t == t] holds for every term. *)
Lemma Term_eqb_refl (t : Term) : Term_eqb t t = Ok true.
Proof. unfold Term_eqb. apply Term_eqb_n_refl. lia. Qed.

(** ** Literal equality ignores the bound name *)

(** C10. Literal equality [==] on [Fun], [Product] and [Let] does not look at
    the bound variable's name: for all names [x] and [y], every type [ty],
    every body [b] and every definition [d],
    [Fun(x, ty, b) == Fun(y, ty, b)], [Product(x, ty, b) == Product(y, ty, b)]
    and [Let(x, ty, d, b) == Let(y, ty, d, b)] all hold. *)
Theorem eq_ignores_bound_name (x y : string) (ty d b : Term) :
  Term_eqb (Fun x ty b) (Fun y ty b) = Ok true
  /\ Term_eqb (Product x ty b) (Product y ty b) = Ok true
  /\ Term_eqb (Let x ty d b) (Let y ty d b) = Ok true.
Proof.
  unfold Term_eqb. cbn [height Term_eqb_n Term_eq_step].
  repeat split; repeat (apply and_then_true; split);
    apply Term_eqb_n_refl; lia.
Qed.

(** ** [is_prod_body] *)

Lemma Term_eqb_n_prod_depth (n : nat) (t u : Term) :
  Term_eqb_n n t u = Ok true -> prod_depth t = prod_depth u.
Proof.
  revert t u. induction n as [|n IH]; intros t u; [discriminate|].
  cbn [Term_eqb_n].
  destruct t, u; cbn [Term_eq_step prod_depth]; try discriminate; try reflexivity.
  intros H. apply and_then_true in H as [_ H]. f_equal. auto.
Qed.

Lemma Term_eqb_prod_depth (t u : Term) :
  Term_eqb t u = Ok true -> prod_depth t = prod_depth u.
Proof. apply Term_eqb_n_prod_depth. Qed.

Lemma is_prod_body_total (p t : Term) : exists r, is_prod_body p t = Ok r.
Proof.
  induction p; simpl; eauto.
  destruct (Term_eqb_total p2 t) as [[|] ->]; simpl; eauto.
Qed.

Lemma is_prod_body_unwraps (p t : Term) :
  is_prod_body p t = Ok true <-> unwraps_to p t.
Proof.
  split.
  - induction p; simpl; try discriminate.
    destruct (Term_eqb_total p2 t) as [[|] Hb]; rewrite Hb; simpl; intros H.
    + apply unwraps_here. exact Hb.
    + apply unwraps_deeper. auto.
  - induction 1 as [x ty body t H|x ty body t H IH]; simpl.
    + rewrite H. reflexivity.
    + destruct (Term_eqb_total body t) as [[|] ->]; simpl; auto.
Qed.

Lemma unwraps_to_prod_depth (p t : Term) :
  unwraps_to p t -> prod_depth t < prod_depth p.
Proof.
  induction 1 as [x ty body t H|x ty body t H IH]; simpl.
  - apply Term_eqb_prod_depth in H. lia.
  - lia.
Qed.

Lemma unwraps_to_distinct (p t : Term) : unwraps_to p t -> p <> t.
Proof.
  intros H Heq. apply unwraps_to_prod_depth in H. subst. lia.
Qed.

Lemma unwraps_to_Product (p t : Term) :
  unwraps_to p t -> isinstance_Product p = true.
Proof. destruct 1; reflexivity. Qed.

(** ** The redundancy filter *)

Lemma ast_of_Some (m : gmap string Term) (key : string) (a : Term) :
  m !! key = Some a -> ast_of m key = Ok a.
Proof. unfold ast_of. intros ->. reflexivity. Qed.

Lemma redundancy_test (a1 a2 : Term) :
  exists hit : bool,
    and_then (Ok (isinstance_Product a1)) (is_prod_body a1 a2) = Ok hit
    /\ (hit = true <-> unwraps_to a1 a2).
Proof.
  destruct (is_prod_body_total a1 a2) as [r Hr].
  destruct (isinstance_Product a1) eqn:Hp; simpl.
  - exists r. split; [exact Hr|]. rewrite <- is_prod_body_unwraps, Hr.
    split; congruence.
  - exists false. split; [reflexivity|]. split; [discriminate|].
    intros H. apply unwraps_to_Product in H. congruence.
Qed.

Section redundancy.
Variable goal_ast_map : gmap string Term.

Lemma mark_redundant_spec (a1 : Term) (goals : list Candidate) (R : gset string) :
  (forall g, In g goals -> is_Some (goal_ast_map !! goal_gen g)) ->
  exists R', mark_redundant goal_ast_map a1 goals R = Ok R'
    /\ forall x, x ∈ R' <->
         x ∈ R \/ exists g2, In g2 goals /\ goal_gen g2 = x /\ hits goal_ast_map a1 g2.
Proof.
  revert R. induction goals as [|g2 goals IH]; intros R Hkeys;
    cbn [mark_redundant].
  - exists R. split; [reflexivity|]. intros x. split; [auto|].
    intros [H|(g & [] & _)]. exact H.
  - destruct (Hkeys g2 (or_introl eq_refl)) as [a2 Ha2].
    rewrite (ast_of_Some _ _ _ Ha2). cbn [mbind exc_bind].
    destruct (redundancy_test a1 a2) as (hit & -> & Hhit). cbn [mbind exc_bind].
    destruct (IH (if hit then {[goal_gen g2]} ∪ R else R)) as (R' & -> & HR').
    { intros g Hg. apply Hkeys. right. exact Hg. }
    exists R'. split; [reflexivity|]. intros x. rewrite HR'. split.
    + intros [Hx|(g & Hg & Hx & Hh)].
      * destruct hit.
        -- apply elem_of_union in Hx as [Hx|Hx]; [|auto].
           apply elem_of_singleton in Hx. right. exists g2.
           split; [left; reflexivity|]. split; [auto|].
           exists a2. split; [exact Ha2|]. apply Hhit. reflexivity.
        -- auto.
      * right. exists g. split; [right; exact Hg|]. auto.
    + intros [Hx|(g & [<-|Hg] & Hx & Hh)].
      * left. destruct hit; [apply elem_of_union; right; exact Hx|exact Hx].
      * left. destruct Hh as (a2' & Ha2' & Hun).
        assert (a2' = a2) by congruence. subst a2'.
        apply Hhit in Hun. subst hit.
        apply elem_of_union. left. apply elem_of_singleton. auto.
      * right. exists g. auto.
Qed.

Lemma redundant_goals_loop_spec (outer goals : list Candidate) (R : gset string) :
  (forall g, In g outer -> is_Some (goal_ast_map !! goal_gen g)) ->
  (forall g, In g goals -> is_Some (goal_ast_map !! goal_gen g)) ->
  exists R', redundant_goals_loop goal_ast_map outer goals R = Ok R'
    /\ forall x, x ∈ R' <->
         x ∈ R \/ exists g1 a1 g2,
                    In g1 outer /\ goal_ast_map !! goal_gen g1 = Some a1
                    /\ In g2 goals /\ goal_gen g2 = x /\ hits goal_ast_map a1 g2.
Proof.
  revert R. induction outer as [|g1 outer IH]; intros R Hout Hkeys; simpl.
  - exists R. split; [reflexivity|]. intros x. split; [auto|].
    intros [H|(g & a & g' & [] & _)]. exact H.
  - destruct (Hout g1 (or_introl eq_refl)) as [a1 Ha1].
    rewrite (ast_of_Some _ _ _ Ha1). simpl.
    destruct (mark_redundant_spec a1 goals R Hkeys) as (R1 & -> & HR1). simpl.
    destruct (IH R1) as (R' & -> & HR'); [|exact Hkeys|].
    { intros g Hg. apply Hout. right. exact Hg. }
    exists R'. split; [reflexivity|]. intros x. rewrite HR', HR1. split.
    + intros [[Hx|(g2 & Hg2 & Hx & Hh)]|(g & a & g2 & Hg & Ha & Hrest)].
      * auto.
      * right. exists g1, a1, g2. split; [left; reflexivity|]. auto.
      * right. exists g, a, g2. split; [right; exact Hg|]. auto.
    + intros [Hx|(g & a & g2 & [<-|Hg] & Ha & Hg2 & Hx & Hh)].
      * auto.
      * left. right. exists g2. assert (a = a1) by congruence. subst a. auto.
      * right. exists g, a, g2. auto.
Qed.
End redundancy.

(** C8. When every candidate's generalised goal has its AST in the cache (as
    [main.py] builds it), the redundancy filter returns, and it removes a
    candidate [b] if and only if some candidate [a] of the list has an AST
    that is a [Product], is distinct from the AST of [b], and reaches a term
    literally equal ([==]) to the AST of [b] by repeatedly unwrapping its
    body through nested [Product] layers.  The candidates that are kept are
    the others, in their order, and the pairwise scan runs on them only. *)
Theorem redundancy_filter_removes_stripped_tails
    (goal_ast_map : gmap string Term) (goals_list : list Candidate) :
  (forall g, In g goals_list -> is_Some (goal_ast_map !! goal_gen g)) ->
  exists redundant kept,
    redundant_goals goal_ast_map goals_list = Ok redundant
    /\ drop_redundant goal_ast_map goals_list = Ok kept
    /\ kept = List.filter (fun g => bool_decide (goal_gen g ∉ redundant)) goals_list
    /\ (forall b, In b goals_list ->
          (~ In b kept <->
           exists a ta tb,
             In a goals_list
             /\ goal_ast_map !! goal_gen a = Some ta
             /\ goal_ast_map !! goal_gen b = Some tb
             /\ ta <> tb
             /\ isinstance_Product ta = true
             /\ unwraps_to ta tb))
    /\ clone_search goal_ast_map goals_list
       = find_alpha_equiv_goals goal_ast_map kept ≫= (fun pairs => Ok (kept, pairs)).
Proof.
  intros Hkeys.
  destruct (redundant_goals_loop_spec goal_ast_map goals_list goals_list ∅ Hkeys Hkeys)
    as (R & HR & Hmem).
  exists R, (List.filter (fun g => bool_decide (goal_gen g ∉ R)) goals_list).
  unfold clone_search, drop_redundant, redundant_goals. rewrite HR. simpl.
  repeat split; try reflexivity.
  - intros Hnot.
    assert (Hb : goal_gen b ∈ R).
    { destruct (decide (goal_gen b ∈ R)) as [Hin|Hout]; [exact Hin|].
      exfalso. apply Hnot. apply filter_In. split; [assumption|].
      apply bool_decide_eq_true_2. exact Hout. }
    apply Hmem in Hb as [Hb|(g1 & a1 & g2 & Hg1 & Ha1 & Hg2 & Hgen & a2 & Ha2 & Hun)].
    { apply not_elem_of_empty in Hb. destruct Hb. }
    exists g1, a1, a2. rewrite <- Hgen.
    repeat split; auto using unwraps_to_distinct.
    eapply unwraps_to_Product. exact Hun.
  - intros (a & ta & tb & Ha & Hta & Htb & _ & _ & Hun) Hin.
    apply filter_In in Hin as [_ Hout].
    apply bool_decide_eq_true_1 in Hout. apply Hout. apply Hmem. right.
    exists a, ta, b. repeat split; auto. exists tb. auto.
Qed.

(** A run of the filter: [forall (x : T), P] makes the candidate [P]
    redundant. *)
Lemma redundancy_filter_removes_stripped_tails_witness :
  let P := App (Var "P") (Var "x") in
  let a := mkCandidate "g1" "thm1" "f.v" ["auto."] "forall (x : T), P x" [] in
  let b := mkCandidate "g2" "thm2" "f.v" ["auto."] "P x" [] in
  let m : gmap string Term :=
    <[ "forall (x : T), P x" := Product "x" (Var "T") P ]> (<[ "P x" := P ]> ∅) in
  exists redundant kept,
    redundant_goals m [a; b] = Ok redundant
    /\ drop_redundant m [a; b] = Ok kept
    /\ kept = List.filter (fun g => bool_decide (goal_gen g ∉ redundant)) [a; b]
    /\ (forall c, In c [a; b] ->
          (~ In c kept <->
           exists a' ta tb,
             In a' [a; b]
             /\ m !! goal_gen a' = Some ta
             /\ m !! goal_gen c = Some tb
             /\ ta <> tb
             /\ isinstance_Product ta = true
             /\ unwraps_to ta tb))
    /\ clone_search m [a; b]
       = find_alpha_equiv_goals m kept ≫= (fun pairs => Ok (kept, pairs)).
Proof.
  intros P a b m.
  apply (redundancy_filter_removes_stripped_tails m [a; b]).
  intros g [<-|[<-|[]]]; vm_compute; eauto.
Defined.

(** ** The pairwise scan *)

Section scan.
Variable goal_ast_map : gmap string Term.

Lemma scan_against_spec (i : nat) (g1 : Candidate) (a1 : Term) (j : nat)
    (rest : list Candidate) :
  (forall g2, In g2 rest -> thm_name g1 <> thm_name g2 ->
     exists a2 r, goal_ast_map !! goal_gen g2 = Some a2 /\ alpha_equiv a1 a2 = Ok r) ->
  exists pairs, scan_against goal_ast_map i g1 a1 j rest = Ok pairs
    /\ forall p q, In (p, q) pairs <->
         p = i /\ exists k g2, q = j + k /\ rest !! k = Some g2 /\ clone_of goal_ast_map g1 a1 g2.
Proof.
  revert j. induction rest as [|g2 rest IH]; intros j Hcmp; cbn [scan_against].
  - exists []. split; [reflexivity|]. intros p q. split; [intros []|].
    intros (_ & k & g & _ & Hk & _). rewrite lookup_nil in Hk. discriminate.
  - destruct (IH (S j)) as (more & Hmore & Hspec).
    { intros g Hg. apply Hcmp. right. exact Hg. }
    destruct (String.eqb (thm_name g1) (thm_name g2)) eqn:Hname.
    + apply String.eqb_eq in Hname.
      exists more. split; [exact Hmore|]. intros p q. rewrite Hspec. split.
      * intros (-> & k & g & -> & Hk & Hc). split; [reflexivity|].
        exists (S k), g. split; [lia|]. split; [exact Hk|exact Hc].
      * intros (-> & [|k] & g & -> & Hk & Hc).
        -- simpl in Hk. inversion Hk. subst g. destruct Hc as [Hne _]. contradiction.
        -- split; [reflexivity|]. exists k, g. split; [lia|]. split; [exact Hk|exact Hc].
    + apply String.eqb_neq in Hname.
      destruct (Hcmp g2 (or_introl eq_refl) Hname) as (a2 & r & Ha2 & Hr).
      rewrite (ast_of_Some _ _ _ Ha2). cbn [mbind exc_bind].
      rewrite Hr, Hmore. cbn [mbind exc_bind].
      exists (if r then (i, j) :: more else more). split; [reflexivity|].
      intros p q. split.
      * intros Hin.
        assert (Hcase : (r = true /\ (p, q) = (i, j)) \/ In (p, q) more).
        { destruct r; [destruct Hin as [Heq|Hin]|]; auto. }
        destruct Hcase as [[-> Heq]|Hin'].
        -- inversion Heq. subst. split; [reflexivity|].
           exists 0, g2. split; [lia|]. split; [reflexivity|].
           split; [exact Hname|]. exists a2. auto.
        -- apply Hspec in Hin' as (-> & k & g & -> & Hk & Hc).
           split; [reflexivity|]. exists (S k), g.
           split; [lia|]. split; [exact Hk|exact Hc].
      * intros (-> & [|k] & g & -> & Hk & Hc).
        -- simpl in Hk. inversion Hk. subst g.
           destruct Hc as (_ & a2' & Ha2' & Hts).
           assert (a2' = a2) by congruence. subst a2'.
           assert (r = true) by congruence. subst r.
           left. f_equal. lia.
        -- assert (Hin : In (i, S j + k) more).
           { apply Hspec. split; [reflexivity|]. exists k, g. auto. }
           replace (j + S k) with (S j + k) by lia.
           destruct r; [right|]; exact Hin.
Qed.

Lemma scan_from_spec (i : nat) (goals : list Candidate) :
  (forall g, In g goals -> is_Some (goal_ast_map !! goal_gen g)) ->
  (forall p q g1 g2 a1 a2,
     goals !! p = Some g1 -> goals !! q = Some g2 -> p < q ->
     thm_name g1 <> thm_name g2 ->
     goal_ast_map !! goal_gen g1 = Some a1 ->
     goal_ast_map !! goal_gen g2 = Some a2 ->
     exists r, alpha_equiv a1 a2 = Ok r) ->
  exists pairs, scan_from goal_ast_map i goals = Ok pairs
    /\ forall p q, In (p, q) pairs <->
         exists p' q' g1 a1 g2,
           p = i + p' /\ q = i + q' /\ p' < q'
           /\ goals !! p' = Some g1 /\ goals !! q' = Some g2
           /\ goal_ast_map !! goal_gen g1 = Some a1 /\ clone_of goal_ast_map g1 a1 g2.
Proof.
  revert i. induction goals as [|g1 rest IH]; intros i Hkeys Hcmp; cbn [scan_from].
  - exists []. split; [reflexivity|]. intros p q. split; [intros []|].
    intros (p' & q' & g & a & g' & _ & _ & _ & Hk & _).
    rewrite lookup_nil in Hk. discriminate.
  - destruct (Hkeys g1 (or_introl eq_refl)) as [a1 Ha1].
    rewrite (ast_of_Some _ _ _ Ha1). cbn [mbind exc_bind].
    destruct (scan_against_spec i g1 a1 (S i) rest) as (inner & -> & Hinner).
    { intros g2 Hg2 Hne. destruct (Hkeys g2 (or_intror Hg2)) as [a2 Ha2].
      apply list_elem_of_In, list_elem_of_lookup in Hg2 as [k Hk].
      destruct (Hcmp 0 (S k) g1 g2 a1 a2) as [r Hr]; auto with lia.
      exists a2, r. auto. }
    cbn [mbind exc_bind].
    destruct (IH (S i)) as (more & -> & Hmore).
    { intros g Hg. apply Hkeys. right. exact Hg. }
    { intros p q g g' a a' Hp Hq Hlt. apply (Hcmp (S p) (S q)); auto with lia. }
    cbn [mbind exc_bind].
    exists (inner ++ more). split; [reflexivity|]. intros p q.
    rewrite in_app_iff, Hinner, Hmore. split.
    + intros [(-> & k & g2 & -> & Hk & Hc)|
              (p' & q' & g & a & g' & -> & -> & Hlt & Hp & Hq & Ha & Hc)].
      * exists 0, (S k), g1, a1, g2. repeat split; auto with lia; apply Hc.
      * exists (S p'), (S q'), g, a, g'. repeat split; auto with lia; apply Hc.
    + intros (p' & q' & g & a & g' & -> & -> & Hlt & Hp & Hq & Ha & Hc).
      destruct p' as [|p'].
      * simpl in Hp. inversion Hp. subst g.
        assert (a = a1) by congruence. subst a.
        destruct q' as [|q']; [lia|]. left. split; [lia|].
        exists q', g'. split; [lia|]. auto.
      * destruct q' as [|q']; [lia|]. right.
        exists p', q', g, a, g'. repeat split; auto with lia; apply Hc.
Qed.
End scan.

(** A scan in which nothing raises: when every candidate's AST is cached and
    every comparison of two candidates of different theorems returns, the
    pair [(i, j)] is written to the report if and only if [i < j], the two
    candidates' theorem names differ and [alpha_equiv] holds of their cached
    generalised ASTs; so no pair of two candidates with the same theorem name
    is reported. *)
Theorem scan_reports_exactly_clones
    (goal_ast_map : gmap string Term) (goals_list : list Candidate) :
  (forall g, In g goals_list -> is_Some (goal_ast_map !! goal_gen g)) ->
  (forall i j g1 g2 a1 a2,
     goals_list !! i = Some g1 -> goals_list !! j = Some g2 -> i < j ->
     thm_name g1 <> thm_name g2 ->
     goal_ast_map !! goal_gen g1 = Some a1 ->
     goal_ast_map !! goal_gen g2 = Some a2 ->
     exists r, alpha_equiv a1 a2 = Ok r) ->
  exists pairs,
    find_alpha_equiv_goals goal_ast_map goals_list = Ok pairs
    /\ (forall i j,
          In (i, j) pairs <->
          exists g1 g2 a1 a2,
            i < j
            /\ goals_list !! i = Some g1 /\ goals_list !! j = Some g2
            /\ thm_name g1 <> thm_name g2
            /\ goal_ast_map !! goal_gen g1 = Some a1
            /\ goal_ast_map !! goal_gen g2 = Some a2
            /\ alpha_equiv a1 a2 = Ok true)
    /\ (forall i j g1 g2,
          In (i, j) pairs ->
          goals_list !! i = Some g1 -> goals_list !! j = Some g2 ->
          thm_name g1 <> thm_name g2).
Proof.
  intros Hkeys Hcmp.
  destruct (scan_from_spec goal_ast_map 0 goals_list Hkeys Hcmp) as (pairs & Hrun & Hspec).
  exists pairs. split; [exact Hrun|].
  assert (Hiff : forall i j,
            In (i, j) pairs <->
            exists g1 g2 a1 a2,
              i < j
              /\ goals_list !! i = Some g1 /\ goals_list !! j = Some g2
              /\ thm_name g1 <> thm_name g2
              /\ goal_ast_map !! goal_gen g1 = Some a1
              /\ goal_ast_map !! goal_gen g2 = Some a2
              /\ alpha_equiv a1 a2 = Ok true).
  { intros i j. rewrite Hspec. split.
    - intros (p' & q' & g1 & a1 & g2 & -> & -> & Hlt & Hp & Hq & Ha & Hne & a2 & Ha2 & Hr).
      exists g1, g2, a1, a2. simpl. auto 10.
    - intros (g1 & g2 & a1 & a2 & Hlt & Hp & Hq & Hne & Ha1 & Ha2 & Hr).
      exists i, j, g1, a1, g2. repeat split; auto. exists a2. auto. }
  split; [exact Hiff|].
  intros i j g1 g2 Hin Hi Hj.
  apply Hiff in Hin as (g1' & g2' & _ & _ & _ & Hi' & Hj' & Hne & _).
  congruence.
Qed.

(** A scan of three candidates: the first and the third are clones, the
    second comes from the theorem of the first. *)
Lemma scan_reports_exactly_clones_example :
  let t1 := Product "n" (Var "nat") (App (Var "P") (Var "n")) in
  let t2 := Product "m" (Var "nat") (App (Var "P") (Var "m")) in
  let c1 := mkCandidate "P n" "thm1" "a.v" ["auto."] "forall (n : nat), (P n)" ["n : nat"] in
  let c2 := mkCandidate "P m" "thm1" "a.v" ["auto."] "forall (m : nat), (P m)" ["m : nat"] in
  let c3 := mkCandidate "P m" "thm2" "b.v" ["auto."] "forall (m : nat), (P m)" ["m : nat"] in
  let m : gmap string Term :=
    <[ "forall (n : nat), (P n)" := t1 ]> (<[ "forall (m : nat), (P m)" := t2 ]> ∅) in
  find_alpha_equiv_goals m [c1; c2; c3] = Ok [(0, 2); (1, 2)]
  /\ exists pairs,
    find_alpha_equiv_goals m [c1; c2; c3] = Ok pairs
    /\ (forall i j,
          In (i, j) pairs <->
          exists g1 g2 a1 a2,
            i < j
            /\ [c1; c2; c3] !! i = Some g1 /\ [c1; c2; c3] !! j = Some g2
            /\ thm_name g1 <> thm_name g2
            /\ m !! goal_gen g1 = Some a1
            /\ m !! goal_gen g2 = Some a2
            /\ alpha_equiv a1 a2 = Ok true)
    /\ (forall i j g1 g2,
          In (i, j) pairs ->
          [c1; c2; c3] !! i = Some g1 -> [c1; c2; c3] !! j = Some g2 ->
          thm_name g1 <> thm_name g2).
Proof.
  intros t1 t2 c1 c2 c3 m. split; [vm_compute; reflexivity|].
  apply (scan_reports_exactly_clones m [c1; c2; c3]).
  - intros g [<-|[<-|[<-|[]]]]; vm_compute; eauto.
  - intros i j g1 g2 a1 a2 Hi Hj _ _ Ha1 Ha2.
    assert (H1 : a1 = t1 \/ a1 = t2).
    { destruct i as [|[|[|i]]]; inversion Hi; subst g1;
        vm_compute in Ha1; inversion Ha1; auto. }
    assert (H2 : a2 = t1 \/ a2 = t2).
    { destruct j as [|[|[|j]]]; inversion Hj; subst g2;
        vm_compute in Ha2; inversion Ha2; auto. }
    destruct H1 as [-> | ->], H2 as [-> | ->]; vm_compute; eauto.
Defined.

(** ** Evaluations of the term model *)

(** C1. [alpha_equiv] is not reflexive on the code: the term
    [match n with O => a | S m => m end] is not [alpha_equiv] to itself,
    because [Match.alpha_equiv] compares every clause of [self] with every
    clause of [other], and the two clauses bind different numbers of names. *)
Theorem alpha_equiv_Match_not_reflexive :
  let t := Match [mkMatchSubject (Var "n") None None]
                 [mkCaseClause [mkPattern "O" [] None] (Var "a");
                  mkCaseClause [mkPattern "S" ["m"] None] (Var "m")]
                 (Some (Var "nat")) in
  alpha_equiv t t = Ok false.
Proof. vm_compute. reflexivity. Qed.

(** The pairs of clauses in that run: the first clause against itself
    passes, the first against the second fails. *)
Lemma alpha_equiv_Match_clause_pairs :
  let c1 := mkCaseClause [mkPattern "O" [] None] (Var "a") in
  let c2 := mkCaseClause [mkPattern "S" ["m"] None] (Var "m") in
  CaseClause_alpha_equiv c1 c1 = Ok true
  /\ CaseClause_alpha_equiv c2 c2 = Ok true
  /\ CaseClause_alpha_equiv c1 c2 = Ok false
  /\ all_pairs_alpha_equiv [c1; c2] [c1; c2] = Ok false.
Proof. vm_compute. auto. Qed.

(** C4. [Cond.subst] does not touch the guard: in
    [if x then x else x] (return type [Prop], no alias) the call
    [subst(x, y)] renames the two branches and leaves the free [x] of the
    guard in place. *)
Theorem subst_Cond_skips_guard :
  let t := Cond (Var "x") (Sort "Prop" None) (Var "x") (Var "x") None in
  subst t "x" "y" = Ok (Cond (Var "x") (Sort "Prop" None) (Var "y") (Var "y") None).
Proof. vm_compute. reflexivity. Qed.

(** C5. [Match.subst] raises on a [match] without a return type: in
    [match n with O => a end] the variable [z] does not occur, and
    [subst(z, w)] raises [AttributeError] ([None.subst]), while [free_vars]
    of the same term returns. *)
Theorem subst_Match_without_return_type_raises :
  let t := Match [mkMatchSubject (Var "n") None None]
                 [mkCaseClause [mkPattern "O" [] None] (Var "a")]
                 None in
  subst t "z" "w" = Raise AttributeError
  /\ bool_decide ("z" ∈ free_vars t) = false
  /\ bool_decide ("n" ∈ free_vars t) = true.
Proof. vm_compute. auto. Qed.

(** ** Alpha-equivalence of abstractions *)

Lemma TermAbstraction_alpha_equiv_same_var
    (fty fb : Term -> exc bool) (x : string) (b ty' b' : Term) :
  fty ty' = Ok true -> TermAbstraction_alpha_equiv fty fb x b x ty' b' = fb b'.
Proof.
  intros H. unfold TermAbstraction_alpha_equiv. rewrite H. cbn [mbind exc_bind negb].
  rewrite Var_eqb_refl. reflexivity.
Qed.

Lemma TermAbstraction_alpha_equiv_other_var
    (fty fb : Term -> exc bool) (x y : string) (b ty' b' : Term) :
  fty ty' = Ok true -> x <> y ->
  TermAbstraction_alpha_equiv fty fb x b y ty' b' = rename_then_compare x b y b'.
Proof.
  intros H Hne. unfold TermAbstraction_alpha_equiv. rewrite H. cbn [mbind exc_bind negb].
  unfold Var_eqb. apply String.eqb_neq in Hne. rewrite Hne. reflexivity.
Qed.

Lemma Term_eqb_Fun_any_name (x y : string) (ty b : Term) :
  Term_eqb (Fun x ty b) (Fun y ty b) = Ok true.
Proof.
  unfold Term_eqb. cbn [height Term_eqb_n Term_eq_step].
  apply and_then_true; split; apply Term_eqb_n_refl; lia.
Qed.

Lemma rename_then_compare_nested (x y a c s : string) (ann : option string) :
  a <> x -> c <> y ->
  rename_then_compare x (Fun a (Sort s ann) (Var x)) y (Fun c (Sort s ann) (Var y))
  = Ok true.
Proof.
  intros Ha Hc. unfold rename_then_compare, subst_value. cbn [subst subst_returns_None].
  unfold Var_eqb.
  assert (Hxa : String.eqb x a = false) by (apply String.eqb_neq; congruence).
  assert (Hyc : String.eqb y c = false) by (apply String.eqb_neq; congruence).
  rewrite Hxa, Hyc, !String.eqb_refl. cbn [negb mbind exc_bind].
  unfold object_eq, opt_Term_eq. apply Term_eqb_Fun_any_name.
Qed.

(** C2, as the code has it.  For two [Fun], two [Product] or two [Let] terms
    whose variable types are [alpha_equiv]: when the two top-level bound
    variables have different names, [alpha_equiv] substitutes the placeholder
    for the top-level bound variable only, in both bodies, and compares the
    results with literal equality; when they have the same name, it compares
    the two bodies with [alpha_equiv]; for [Let] the definitions must be
    [alpha_equiv] too.  Literal equality does not look at the names of nested
    binders, so two terms that differ in the name of a nested binder (and in
    the top-level name) are still [alpha_equiv]. *)
Theorem alpha_equiv_abstraction (x y : string) (ty ty' d d' b b' : Term) :
  alpha_equiv ty ty' = Ok true ->
  (x <> y ->
     alpha_equiv (Fun x ty b) (Fun y ty' b') = rename_then_compare x b y b'
     /\ alpha_equiv (Product x ty b) (Product y ty' b') = rename_then_compare x b y b'
     /\ alpha_equiv (Let x ty d b) (Let y ty' d' b')
        = and_then (rename_then_compare x b y b') (alpha_equiv d d'))
  /\ (alpha_equiv (Fun x ty b) (Fun x ty' b') = alpha_equiv b b'
      /\ alpha_equiv (Product x ty b) (Product x ty' b') = alpha_equiv b b'
      /\ alpha_equiv (Let x ty d b) (Let x ty' d' b')
         = and_then (alpha_equiv b b') (alpha_equiv d d'))
  /\ (forall a c s ann,
        x <> y -> a <> x -> c <> y ->
        alpha_equiv (Fun x ty (Fun a (Sort s ann) (Var x)))
                    (Fun y ty' (Fun c (Sort s ann) (Var y))) = Ok true).
Proof.
  intros Hty. split; [|split].
  - intros Hne. cbn [alpha_equiv].
    rewrite !(TermAbstraction_alpha_equiv_other_var _ _ x y) by assumption. auto.
  - cbn [alpha_equiv].
    rewrite !TermAbstraction_alpha_equiv_same_var by assumption. auto.
  - intros a c s ann Hne Ha Hc. cbn [alpha_equiv].
    rewrite (TermAbstraction_alpha_equiv_other_var _ _ x y) by assumption.
    apply rename_then_compare_nested; assumption.
Qed.

(** The theorem at [x], [y] with the type [nat]. *)
Lemma alpha_equiv_abstraction_witness :
  alpha_equiv (Var "nat") (Var "nat") = Ok true
  /\ alpha_equiv (Fun "x" (Var "nat") (Fun "a" (Sort "Prop" None) (Var "x")))
                 (Fun "y" (Var "nat") (Fun "c" (Sort "Prop" None) (Var "y"))) = Ok true.
Proof.
  split; [vm_compute; reflexivity|].
  assert (H : alpha_equiv (Var "nat") (Var "nat") = Ok true) by (vm_compute; reflexivity).
  apply (alpha_equiv_abstraction "x" "y" (Var "nat") (Var "nat")
           (Var "d") (Var "d") (Var "b") (Var "b") H); discriminate.
Defined.

(** C2 fails as stated.  [fun x : nat => fun a : nat => x] and
    [fun y : nat => fun b : nat => y] have nested binders with different
    names ([a], [b]) at the same position and are [alpha_equiv]; and for
    [fun x : nat => fun a : nat => a] and [fun x : nat => fun b : nat => b]
    [alpha_equiv] holds although renaming the top-level variable and
    comparing the bodies literally fails. *)
Lemma alpha_equiv_nested_binders_counterexample :
  let nat := Var "nat" in
  "a" <> "b"
  /\ alpha_equiv (Fun "x" nat (Fun "a" nat (Var "x")))
                 (Fun "y" nat (Fun "b" nat (Var "y"))) = Ok true
  /\ alpha_equiv (Fun "x" nat (Fun "a" nat (Var "a")))
                 (Fun "x" nat (Fun "b" nat (Var "b"))) = Ok true
  /\ rename_then_compare "x" (Fun "a" nat (Var "a")) "x" (Fun "b" nat (Var "b"))
     = Ok false.
Proof. split; [discriminate|]. vm_compute. auto. Qed.

(** ** Free variables *)

(** C3, as the code has it.  A variable is its own free variable and a sort
    has none; the free variables of a [Cast] or an [App] are those of its two
    parts; the free variables of a [Fun], [Product] or [Let] are those of the
    body without the bound variable, together with those of the variable's
    type (and of the definition of a [Let]), so [x] is free in
    [Fun(x, ty, body)] exactly when it is free in [ty]; the free variables of
    a [Cond] include those of its two branches and those of its return type
    other than the guard alias. *)
Theorem free_vars_binders (x : string) (ty d b g r th el : Term) (al : option string) :
  free_vars (Var x) = {[ x ]}
  /\ (forall s ann, free_vars (Sort s ann) = ∅)
  /\ free_vars (Cast ty b) = free_vars ty ∪ free_vars b
  /\ free_vars (App ty b) = free_vars ty ∪ free_vars b
  /\ free_vars (Fun x ty b) = (free_vars b ∖ {[ x ]}) ∪ free_vars ty
  /\ free_vars (Product x ty b) = (free_vars b ∖ {[ x ]}) ∪ free_vars ty
  /\ free_vars (Let x ty d b) = (free_vars b ∖ {[ x ]}) ∪ free_vars ty ∪ free_vars d
  /\ (x ∈ free_vars (Fun x ty b) <-> x ∈ free_vars ty)
  /\ (x ∈ free_vars (Product x ty b) <-> x ∈ free_vars ty)
  /\ (x ∈ free_vars (Let x ty d b) <-> x ∈ free_vars ty \/ x ∈ free_vars d)
  /\ (forall v, v ∈ free_vars th \/ v ∈ free_vars el
                \/ (v ∈ free_vars r /\ al <> Some v) ->
                v ∈ free_vars (Cond g r th el al)).
Proof.
  cbn [free_vars]. repeat split; try reflexivity; try set_solver.
Qed.

(** C3 fails as stated: in [fun x : f x => x] the variable [x] is a free
    variable of the whole term, because it occurs in the type of the binder,
    which the binder does not scope over. *)
Lemma free_vars_Fun_counterexample :
  "x" ∈ free_vars (Fun "x" (App (Var "f") (Var "x")) (Var "x")).
Proof. cbn [free_vars]. set_solver. Qed.

(** ** The generaliser on a dependent context *)

Lemma perm_two {A : Type} (l : list A) (a b : A) :
  l ≡ₚ [a; b] -> l = [a; b] \/ l = [b; a].
Proof.
  intros H. symmetry in H. apply Permutation_length_2_inv in H. tauto.
Qed.

Section generalize_dependent_context.
(** A parser that reads the three texts of the example as expected, and
    any order of walking a set. *)
Variable parse : string -> Term.
Variable set_iter : gset string -> list string.
Hypothesis parse_goal : parse "P s" = App (Var "P") (Var "s").
Hypothesis parse_type_s : parse "T d" = App (Var "T") (Var "d").
Hypothesis parse_type_d : parse "nat" = Var "nat".
Hypothesis set_iter_elements : forall X, set_iter X ≡ₚ elements X.

Lemma add_definitions_one (ctx : gmap string (string * gset string))
    (d name body : string) (i : nat) :
  str_index ":" d = Ok i ->
  strip (str_drop (i + 1) d) = body ->
  map strip (split "," (str_take i d)) = [name] ->
  add_definitions parse ctx d = Ok (<[ name := (body, free_vars (parse body)) ]> ctx).
Proof.
  intros Hi Hbody Hnames. unfold add_definitions. rewrite Hi. cbn [mbind exc_bind].
  rewrite Hbody. destruct (split "," (str_take i d)) as [|x [|y l]]; try discriminate.
  cbn [map] in Hnames. inversion Hnames. reflexivity.
Qed.

Lemma read_dependent_context :
  read_local_context parse ["d : nat"; "s : T d"] ∅
  = Ok (<[ "s" := ("T d", free_vars (App (Var "T") (Var "d"))) ]>
          (<[ "d" := ("nat", free_vars (Var "nat")) ]> ∅)).
Proof.
  cbn [read_local_context].
  rewrite (add_definitions_one ∅ "d : nat" "d" "nat" 2) by (vm_compute; reflexivity).
  cbn [mbind exc_bind].
  rewrite (add_definitions_one _ "s : T d" "s" "T d" 2) by (vm_compute; reflexivity).
  cbn [mbind exc_bind]. rewrite parse_type_s, parse_type_d. exact eq_refl.
Qed.

Lemma set_iter_two (X : gset string) (a b : string) :
  elements X = [a; b] -> set_iter X = [a; b] \/ set_iter X = [b; a].
Proof. intros H. apply perm_two. rewrite <- H. apply set_iter_elements. Qed.

Lemma set_iter_one (X : gset string) (a : string) :
  elements X = [a] -> set_iter X = [a].
Proof.
  intros H. apply Permutation_singleton_r. rewrite <- H. apply set_iter_elements.
Qed.

(** C7. [generalize] puts a dependency inside its dependent.  For the goal
    [P s] in the local context [d : nat], [s : T d], whatever the order in
    which Python walks its sets, the result quantifies [s] outermost and
    [d] inside it: the type [T d] of [s] is outside the quantifier of [d],
    the variable it mentions. *)
Theorem generalize_puts_dependency_innermost :
  generalize parse set_iter ["d : nat"; "s : T d"] "P s"
  = Ok "forall (s : T d), (forall (d : nat), (P s))".
Proof.
  unfold generalize. rewrite read_dependent_context. cbn [mbind exc_bind].
  rewrite parse_goal.
  set (ctx := <[ "s" := ("T d", free_vars (App (Var "T") (Var "d"))) ]>
                (<[ "d" := ("nat", free_vars (Var "nat")) ]> ∅)).
  assert (HL : forall l, l = ["s"; "P"] \/ l = ["P"; "s"] ->
            (list_to_set (List.filter (fun fv => bool_decide (is_Some (ctx !! fv))) l)
               : gset string) = {[ "s" ]}).
  { intros l [-> | ->]; vm_compute; reflexivity. }
  rewrite HL by (apply set_iter_two; vm_compute; reflexivity). clear HL.
  unfold make_dag.
  rewrite (set_iter_one {[ "s" ]} "s") by (vm_compute; reflexivity).
  cbn [foldl mbind exc_bind].
  replace (ctx !! "s") with (Some ("T d", free_vars (App (Var "T") (Var "d"))))
    by (vm_compute; reflexivity).
  destruct (set_iter_two (free_vars (App (Var "T") (Var "d"))) "T" "d") as [HC|HC];
    [vm_compute; reflexivity| |]; rewrite HC; vm_compute; reflexivity.
Qed.
End generalize_dependent_context.

(** The theorem for one parser and one order of walking sets, and the order
    the DAG of that context returns. *)
Lemma generalize_puts_dependency_innermost_witness :
  generalize example_parse elements ["d : nat"; "s : T d"] "P s"
  = Ok "forall (s : T d), (forall (d : nat), (P s))"
  /\ (get_topological_ordering (build [call_add_node "s"; call_add_edge "s" "d"]))
       ≫= (fun r => Ok r.2) = Ok ["s"; "d"].
Proof.
  split.
  - apply (generalize_puts_dependency_innermost example_parse elements).
    + reflexivity.
    + reflexivity.
    + reflexivity.
    + intros X. apply Permutation_refl.
  - vm_compute. reflexivity.
Defined.

(** ** The dependency DAG *)

(** *** The adjacency list *)

Lemma adj_lookup_is_node (a : list (string * list string)) (n : string) :
  is_node a n <-> In n (map fst a).
Proof.
  unfold is_node. induction a as [|[k vs] a IH]; simpl.
  - split; [intros [x Hx]; discriminate|intros []].
  - destruct (String.eqb k n) eqn:Hk.
    + apply String.eqb_eq in Hk. split; eauto.
    + apply String.eqb_neq in Hk. rewrite IH. split; [auto|].
      intros [H|H]; [contradiction|exact H].
Qed.

Lemma adj_lookup_app (a b : list (string * list string)) (n : string) :
  adj_lookup n (a ++ b)
  = match adj_lookup n a with Some vs => Some vs | None => adj_lookup n b end.
Proof.
  induction a as [|[k vs] a IH]; simpl; [reflexivity|].
  destruct (String.eqb k n); [reflexivity|exact IH].
Qed.

Lemma adj_lookup_add_node (a : list (string * list string)) (m n : string) :
  adj_lookup n (adj_add_node m a)
  = match adj_lookup n a with
    | Some vs => Some vs
    | None => if String.eqb m n then Some [] else None
    end.
Proof.
  unfold adj_add_node. destruct (adj_lookup m a) as [ws|] eqn:Hm.
  - destruct (adj_lookup n a) eqn:Hn; [reflexivity|].
    destruct (String.eqb m n) eqn:Hmn; [|reflexivity].
    apply String.eqb_eq in Hmn. congruence.
  - rewrite adj_lookup_app. simpl. destruct (adj_lookup n a); reflexivity.
Qed.

Lemma adj_lookup_append (a : list (string * list string)) (s d n : string) :
  adj_lookup n (adj_append s d a)
  = match adj_lookup n a with
    | Some vs => Some (if String.eqb s n then vs ++ [d] else vs)
    | None => None
    end.
Proof.
  induction a as [|[k vs] a IH]; simpl; [reflexivity|].
  destruct (String.eqb k s) eqn:Hks; simpl.
  - apply String.eqb_eq in Hks. subst k.
    destruct (String.eqb s n); [reflexivity|].
    destruct (adj_lookup n a); reflexivity.
  - destruct (String.eqb k n) eqn:Hkn.
    + assert (Hsn : String.eqb s n = false).
      { apply String.eqb_neq. apply String.eqb_eq in Hkn.
        apply String.eqb_neq in Hks. congruence. }
      rewrite Hsn. reflexivity.
    + exact IH.
Qed.

Lemma add_node_closed (g : VarDAG) (n : string) :
  closed (adj g) -> closed (adj (add_node n g)).
Proof.
  unfold closed, edge, is_node. simpl. intros Hc s d (ds & Hs & Hd).
  rewrite adj_lookup_add_node in Hs. rewrite adj_lookup_add_node.
  destruct (adj_lookup s (adj g)) as [vs|] eqn:Hsg.
  - inversion Hs. subst ds. destruct (Hc s d) as [ws ->]; eauto.
  - destruct (String.eqb n s); [|discriminate]. inversion Hs. subst ds. destruct Hd.
Qed.

Lemma add_edge_closed (g : VarDAG) (src dst : string) :
  closed (adj g) -> closed (adj (add_edge src dst g)).
Proof.
  intros Hc.
  pose proof (add_node_closed _ dst (add_node_closed g src Hc)) as Hc2.
  revert Hc2. unfold closed, edge, is_node. simpl.
  set (a2 := adj_add_node dst (adj_add_node src (adj g))).
  intros Hc2 s d (ds & Hs & Hd).
  rewrite adj_lookup_append in Hs. rewrite adj_lookup_append.
  assert (Hdst : is_Some (adj_lookup dst a2)).
  { unfold a2. rewrite adj_lookup_add_node.
    destruct (adj_lookup dst (adj_add_node src (adj g))); [eauto|].
    rewrite String.eqb_refl. eauto. }
  destruct (adj_lookup s a2) as [vs|] eqn:Hsa; [|discriminate].
  inversion Hs. subst ds. clear Hs.
  assert (Hd' : In d vs \/ d = dst).
  { destruct (String.eqb src s); [|auto].
    apply in_app_or in Hd as [H|[H|[]]]; [left; exact H|right; symmetry; exact H]. }
  assert (Hnode : is_Some (adj_lookup d a2)).
  { destruct Hd' as [H| ->]; [|exact Hdst]. apply (Hc2 s d). eauto. }
  destruct Hnode as [ws ->]. eauto.
Qed.

Lemma build_closed (calls : list dag_call) : closed (adj (build calls)).
Proof.
  unfold build.
  assert (H : forall g, closed (adj g) -> closed (adj (foldl run_call g calls))).
  { induction calls as [|c calls IH]; intros g Hg; simpl; [exact Hg|].
    apply IH. destruct c; cbn [run_call];
      [apply add_node_closed|apply add_edge_closed]; exact Hg. }
  apply H. intros s d (ds & Hs & _). discriminate.
Qed.

(** *** Paths and topological order *)

Lemma path_snoc (a : list (string * list string)) (x y z : string) :
  path a x y -> edge a y z -> path a x z.
Proof.
  induction 1 as [s d H|s m d H Hp IH]; intros Hz.
  - eapply path_step; [exact H|]. apply path_edge. exact Hz.
  - eapply path_step; [exact H|]. auto.
Qed.

Lemma before_cons (x y z : string) (l : list string) :
  before x y l -> before x y (z :: l).
Proof.
  intros (l1 & l2 & l3 & ->). exists (z :: l1), l2, l3. reflexivity.
Qed.

Lemma topo_before (a : list (string * list string)) (l : list string) (s d : string) :
  topo a l -> In s l -> edge a s d -> before s d l.
Proof.
  induction l as [|x l IH]; intros Ht Hs He; [destruct Hs|].
  destruct Ht as (Hx & Hsucc & Ht).
  destruct Hs as [-> | Hs].
  - apply Hsucc in He. apply in_split in He as (l2 & l3 & ->).
    exists [], l2, l3. reflexivity.
  - apply before_cons. auto.
Qed.

Lemma topo_NoDup (a : list (string * list string)) (l : list string) :
  topo a l -> List.NoDup l.
Proof.
  induction l as [|x l IH]; intros Ht; [constructor|].
  destruct Ht as (Hx & _ & Ht). constructor; auto.
Qed.

(** *** The budget *)

Lemma unvisited_mono (a : list (string * list string)) (V V' : gset string) :
  V ⊆ V' -> unvisited a V' <= unvisited a V.
Proof.
  intros Hsub. unfold unvisited.
  induction (map fst a) as [|k ks IH]; simpl; [lia|].
  destruct (bool_decide (k ∉ V')) eqn:H1; destruct (bool_decide (k ∉ V)) eqn:H2;
    simpl; try lia.
  apply bool_decide_eq_true in H1. apply bool_decide_eq_false in H2.
  exfalso. apply H2. intros Hk. apply H1. apply Hsub. exact Hk.
Qed.

Lemma unvisited_add (a : list (string * list string)) (V : gset string) (n : string) :
  is_node a n -> n ∉ V -> unvisited a ({[ n ]} ∪ V) < unvisited a V.
Proof.
  intros Hn Hv. apply adj_lookup_is_node in Hn. unfold unvisited.
  induction (map fst a) as [|k ks IH]; [destruct Hn|].
  assert (Hmono : length (List.filter (fun k => bool_decide (k ∉ {[ n ]} ∪ V)) ks)
                  <= length (List.filter (fun k => bool_decide (k ∉ V)) ks)).
  { clear. induction ks as [|k ks IH]; simpl; [lia|].
    destruct (bool_decide (k ∉ {[ n ]} ∪ V)) eqn:H1;
      destruct (bool_decide (k ∉ V)) eqn:H2; simpl; try lia.
    apply bool_decide_eq_true in H1. apply bool_decide_eq_false in H2.
    exfalso. apply H2. set_solver. }
  simpl. destruct (String.eqb k n) eqn:Hk.
  - apply String.eqb_eq in Hk. subst k.
    rewrite (bool_decide_eq_false_2 (n ∉ {[ n ]} ∪ V)) by set_solver.
    rewrite (bool_decide_eq_true_2 (n ∉ V)) by assumption.
    simpl. lia.
  - apply String.eqb_neq in Hk. destruct Hn as [Hn|Hn]; [contradiction|].
    specialize (IH Hn).
    destruct (bool_decide (k ∉ {[ n ]} ∪ V)) eqn:H1;
      destruct (bool_decide (k ∉ V)) eqn:H2; simpl; try lia.
    apply bool_decide_eq_true in H1. apply bool_decide_eq_false in H2.
    exfalso. apply H2. set_solver.
Qed.

(** *** The traversal *)

Ltac conjs := repeat match goal with |- _ /\ _ => split end.

Section dfs.
Variable a : list (string * list string).
Hypothesis a_closed : closed a.
Hypothesis a_acyclic : acyclic a.

Section loop.
Variable visit : string -> dfs_state -> exc dfs_state.
Variable budget : nat.
Hypothesis visit_spec : visit_ok a visit budget.
Variable node : string.

Lemma dfs_loop_ok (vs : list string) (st : dfs_state) :
  (forall v, In v vs -> edge a node v) ->
  dfs_inv a st ->
  (forall x, x ∈ dfs_local_visited st -> x = node \/ path a x node) ->
  unvisited a (dfs_visited st) <= budget ->
  exists st',
    dfs_loop visit vs st = Ok st'
    /\ dfs_inv a st'
    /\ dfs_local_visited st' = dfs_local_visited st
    /\ dfs_visited st ⊆ dfs_visited st'
    /\ (forall v, In v vs -> In v (dfs_res st'))
    /\ (forall x, In x (dfs_res st) -> In x (dfs_res st')).
Proof.
  revert st. induction vs as [|v vs IH]; intros st Hedges Hinv Hstack Hbudget.
  - exists st. simpl. conjs; [reflexivity|exact Hinv|reflexivity|set_solver| |auto].
    intros v [].
  - assert (Hev : edge a node v) by (apply Hedges; left; reflexivity).
    assert (Hrest : forall w, In w vs -> edge a node w)
      by (intros w Hw; apply Hedges; right; exact Hw).
    cbn [dfs_loop].
    destruct (bool_decide (v ∉ dfs_visited st)) eqn:Hvis.
    + apply bool_decide_eq_true in Hvis.
      destruct (visit_spec v st) as (st1 & Hrun & Hinv1 & Hloc1 & Hsub1 & Hv1 & Hres1);
        auto.
      { apply (a_closed node v Hev). }
      { intros x Hx. destruct (Hstack x Hx) as [-> | Hp].
        - apply path_edge. exact Hev.
        - eapply path_snoc; eauto. }
      rewrite Hrun. cbn [mbind exc_bind].
      destruct (IH st1) as (st2 & Hrun2 & Hinv2 & Hloc2 & Hsub2 & Hvs2 & Hres2); auto.
      { rewrite Hloc1. exact Hstack. }
      { pose proof (unvisited_mono a _ _ Hsub1). lia. }
      exists st2. rewrite Hrun2. conjs; auto.
      * congruence.
      * set_solver.
      * intros w [<- | Hw]; auto.
    + apply bool_decide_eq_false in Hvis.
      assert (Hv : v ∈ dfs_visited st).
      { destruct (decide (v ∈ dfs_visited st)); [assumption|contradiction]. }
      destruct (bool_decide (v ∈ dfs_local_visited st)) eqn:Hloc.
      * apply bool_decide_eq_true in Hloc. exfalso.
        destruct (Hstack v Hloc) as [-> | Hp].
        -- apply (a_acyclic node). apply path_edge. exact Hev.
        -- apply (a_acyclic v). eapply path_snoc; eauto.
      * apply bool_decide_eq_false in Hloc.
        assert (Hvres : In v (dfs_res st)).
        { apply (inv_visited a st Hinv) in Hv as [H|H]; [contradiction|exact H]. }
        destruct (IH st) as (st2 & Hrun2 & Hinv2 & Hloc2 & Hsub2 & Hvs2 & Hres2); auto.
        exists st2. rewrite Hrun2. conjs; auto.
        intros w [<- | Hw]; auto.
Qed.
End loop.

Lemma dfs_visit_ok (budget : nat) : visit_ok a (dfs_visit budget a) budget.
Proof.
  induction budget as [|budget IH];
    intros node st Hnode Hfresh Hinv Hstack Hbudget.
  - pose proof (unvisited_add a _ node Hnode Hfresh). lia.
  - cbn [dfs_visit]. destruct Hnode as [succs Hsuccs]. rewrite Hsuccs.
    set (st1 := mkDfs ({[ node ]} ∪ dfs_visited st)
                      ({[ node ]} ∪ dfs_local_visited st) (dfs_res st)).
    assert (Hnotres : ~ In node (dfs_res st)).
    { intros H. apply Hfresh. apply (inv_visited a st Hinv). right. exact H. }
    assert (Hnotloc : node ∉ dfs_local_visited st).
    { intros H. apply Hfresh. apply (inv_visited a st Hinv). left. exact H. }
    destruct (dfs_loop_ok (dfs_visit budget a) budget IH node succs st1)
      as (st2 & Hrun & Hinv2 & Hloc2 & Hsub2 & Hsuccs2 & Hres2).
    + intros v Hv. exists succs. auto.
    + constructor; simpl.
      * intros x. rewrite !elem_of_union, (inv_visited a st Hinv). tauto.
      * intros x Hx Hin. apply elem_of_union in Hin as [Hin|Hin].
        -- apply elem_of_singleton in Hin. subst x. contradiction.
        -- apply (inv_disjoint a st Hinv x Hx). exact Hin.
      * apply (inv_topo a st Hinv).
    + simpl. intros x Hx. apply elem_of_union in Hx as [Hx|Hx].
      * apply elem_of_singleton in Hx. auto.
      * right. auto.
    + simpl. assert (is_node a node) by (exists succs; exact Hsuccs).
      pose proof (unvisited_add a _ node H Hfresh). lia.
    + rewrite Hrun. cbn [mbind exc_bind]. eexists. split; [reflexivity|].
      simpl in Hloc2, Hsub2, Hres2.
      assert (Hnode2 : ~ In node (dfs_res st2)).
      { intros H. apply (inv_disjoint a st2 Hinv2 node H). rewrite Hloc2. set_solver. }
      conjs; [constructor|..]; simpl.
      * intros x. rewrite (inv_visited a st2 Hinv2), Hloc2.
        rewrite elem_of_difference, elem_of_union, elem_of_singleton.
        destruct (decide (x = node)) as [-> | Hne]; [tauto|].
        intuition congruence.
      * intros x [<- | Hx].
        -- rewrite Hloc2. set_solver.
        -- intros Hin. apply (inv_disjoint a st2 Hinv2 x Hx). set_solver.
      * conjs.
        -- exact Hnode2.
        -- intros y (ds & Hds & Hy). apply Hsuccs2. congruence.
        -- apply (inv_topo a st2 Hinv2).
      * rewrite Hloc2. set_solver.
      * set_solver.
      * auto.
      * auto.
Qed.

Lemma visit_all_ok (budget : nat) (nodes : list string) (vis : gset string)
    (res : list string) :
  (forall n, In n nodes -> is_node a n) ->
  dfs_inv a (mkDfs vis ∅ res) ->
  unvisited a vis <= budget ->
  exists vis' res',
    visit_all budget a nodes vis res = Ok (vis', res')
    /\ dfs_inv a (mkDfs vis' ∅ res')
    /\ (forall n, In n nodes -> In n res')
    /\ (forall x, In x res -> In x res').
Proof.
  revert vis res. induction nodes as [|n nodes IH]; intros vis res Hnodes Hinv Hbudget.
  - exists vis, res. simpl. conjs; [reflexivity|exact Hinv| |auto]. intros n [].
  - cbn [visit_all]. destruct (bool_decide (n ∉ vis)) eqn:Hn.
    + apply bool_decide_eq_true in Hn.
      destruct (dfs_visit_ok budget n (mkDfs vis ∅ res))
        as (st1 & Hrun & Hinv1 & Hloc1 & Hsub1 & Hn1 & Hres1);
        [apply Hnodes; left; reflexivity|exact Hn|exact Hinv| |exact Hbudget|].
      { simpl. intros x Hx. apply not_elem_of_empty in Hx. destruct Hx. }
      rewrite Hrun. cbn [mbind exc_bind]. simpl in Hloc1, Hsub1, Hres1.
      destruct st1 as [vis1 loc1 res1]. simpl in *. subst loc1.
      destruct (IH vis1 res1) as (vis' & res' & Hrun' & Hinv' & Hall & Hres');
        [intros m Hm; apply Hnodes; right; exact Hm|exact Hinv1| |].
      { pose proof (unvisited_mono a _ _ Hsub1). lia. }
      exists vis', res'. conjs; auto.
      intros m [<- | Hm]; auto.
    + apply bool_decide_eq_false in Hn.
      assert (Hin : In n res).
      { destruct (decide (n ∈ vis)) as [H|H]; [|contradiction].
        apply (inv_visited a _ Hinv) in H as [H|H]; [|exact H].
        simpl in H. apply not_elem_of_empty in H. destruct H. }
      destruct (IH vis res) as (vis' & res' & Hrun' & Hinv' & Hall & Hres');
        [intros m Hm; apply Hnodes; right; exact Hm|exact Hinv|exact Hbudget|].
      exists vis', res'. conjs; auto.
      intros m [<- | Hm]; auto.
Qed.
End dfs.

(** *** Acyclic DAGs, by a rank *)

Lemma adj_lookup_In (a : list (string * list string)) (k : string) (vs : list string) :
  adj_lookup k a = Some vs -> In (k, vs) a.
Proof.
  induction a as [|[k' vs'] a IH]; simpl; [discriminate|].
  destruct (String.eqb k' k) eqn:Hk.
  - apply String.eqb_eq in Hk. intros H. inversion H. subst. left. reflexivity.
  - intros H. right. auto.
Qed.

Lemma path_rank (a : list (string * list string)) (rank : string -> nat) (x y : string) :
  (forall s d, edge a s d -> rank d < rank s) -> path a x y -> rank y < rank x.
Proof.
  intros Hrank. induction 1 as [s d H|s m d H Hp IH].
  - auto.
  - apply Hrank in H. lia.
Qed.

Lemma acyclic_by_rank (a : list (string * list string)) (rank : string -> nat) :
  forallb (fun e => forallb (fun d => Nat.ltb (rank d) (rank e.1)) e.2) a = true ->
  acyclic a.
Proof.
  intros Hall x Hp.
  assert (Hrank : forall s d, edge a s d -> rank d < rank s).
  { intros s d (ds & Hs & Hd). apply adj_lookup_In in Hs.
    rewrite forallb_forall in Hall. specialize (Hall _ Hs). simpl in Hall.
    rewrite forallb_forall in Hall. apply Nat.ltb_lt. auto. }
  pose proof (path_rank a rank x x Hrank Hp). lia.
Qed.

(** *** The order [get_topological_ordering] returns *)

Lemma unvisited_le (a : list (string * list string)) (V : gset string) :
  unvisited a V <= length a.
Proof.
  unfold unvisited. rewrite <- (length_map fst a).
  induction (map fst a) as [|k ks IH]; simpl; [lia|].
  destruct (bool_decide (k ∉ V)); simpl; lia.
Qed.

(** C6, as the code has it.  For every acyclic [VarDAG] built by a sequence of
    [add_node] and [add_edge] calls, [get_topological_ordering] returns, and
    the list it returns is dependents-first: for every edge [s -> d], [s]
    appears before [d].  Every node is in the list, once. *)
Theorem topological_ordering_dependents_first (calls : list dag_call) :
  acyclic (adj (build calls)) ->
  exists g' l,
    get_topological_ordering (build calls) = Ok (g', l)
    /\ (forall s d, edge (adj (build calls)) s d -> before s d l)
    /\ (forall n, is_node (adj (build calls)) n -> In n l)
    /\ List.NoDup l.
Proof.
  intros Hacyclic. set (a := adj (build calls)) in *.
  destruct (visit_all_ok a (build_closed calls) Hacyclic (length a) (map fst a) ∅ [])
    as (vis & res & Hrun & Hinv & Hall & _).
  - intros n Hn. apply adj_lookup_is_node. exact Hn.
  - constructor; simpl.
    + intros x. split; [intros H|intros [H|[]]]; apply not_elem_of_empty in H; destruct H.
    + intros x [].
    + exact I.
  - apply unvisited_le.
  - unfold get_topological_ordering. fold a. rewrite Hrun. cbn [mbind exc_bind].
    eexists _, res. split; [reflexivity|].
    pose proof (inv_topo a _ Hinv) as Htopo. simpl in Htopo.
    assert (Hnodes : forall n, is_node a n -> In n res).
    { intros n Hn. apply Hall. apply adj_lookup_is_node. exact Hn. }
    split; [|split].
    + intros s d He. apply (topo_before a); auto.
      apply Hnodes. destruct He as (ds & Hs & _). exists ds. exact Hs.
    + exact Hnodes.
    + apply (topo_NoDup a). exact Htopo.
Qed.

(** The theorem on a DAG of four nodes, and the order it gets. *)
Lemma topological_ordering_dependents_first_witness :
  let calls := [call_add_node "z"; call_add_edge "a" "b";
                call_add_edge "c" "b"; call_add_edge "b" "d"] in
  acyclic (adj (build calls))
  /\ (get_topological_ordering (build calls) ≫= (fun r => Ok r.2)
      = Ok ["c"; "a"; "b"; "d"; "z"])
  /\ exists g' l,
       get_topological_ordering (build calls) = Ok (g', l)
       /\ (forall s d, edge (adj (build calls)) s d -> before s d l)
       /\ (forall n, is_node (adj (build calls)) n -> In n l)
       /\ List.NoDup l.
Proof.
  intros calls.
  assert (Hacyclic : acyclic (adj (build calls))).
  { apply (acyclic_by_rank _ (fun n => if String.eqb n "d" then 0
                                       else if String.eqb n "b" then 1 else 2)).
    vm_compute. reflexivity. }
  split; [exact Hacyclic|]. split; [vm_compute; reflexivity|].
  apply (topological_ordering_dependents_first calls Hacyclic).
Defined.

(** C6 fails as stated: after [add_edge(s, d)] the DAG is acyclic and the
    order returned is [[s; d]], in which [d] does not come before [s]. *)
Lemma topological_ordering_counterexample :
  let g := build [call_add_edge "s" "d"] in
  acyclic (adj g)
  /\ edge (adj g) "s" "d"
  /\ (get_topological_ordering g ≫= (fun r => Ok r.2) = Ok ["s"; "d"])
  /\ ~ before "d" "s" ["s"; "d"].
Proof.
  intros g. split; [|split; [|split]].
  - apply (acyclic_by_rank _ (fun n => if String.eqb n "d" then 0 else 1)).
    vm_compute. reflexivity.
  - exists ["d"]. split; [vm_compute; reflexivity|left; reflexivity].
  - vm_compute. reflexivity.
  - intros (l1 & l2 & l3 & H).
    destruct l1 as [|x [|y l1]]; simpl in H; inversion H.
    + destruct l2; simpl in *; discriminate.
    + destruct l1; simpl in *; discriminate.
Qed.

(** * Further properties of the code *)

(** ** [VarDAG]: nodes and edges *)

Lemma edge_add_node (g : VarDAG) (n x y : string) :
  edge (adj (add_node n g)) x y <-> edge (adj g) x y.
Proof.
  unfold edge. simpl. split; intros (ds & Hx & Hy).
  - rewrite adj_lookup_add_node in Hx.
    destruct (adj_lookup x (adj g)) as [vs|]; [eauto|].
    destruct (String.eqb n x); [|discriminate]. inversion Hx. subst ds. destruct Hy.
  - exists ds. rewrite adj_lookup_add_node, Hx. auto.
Qed.

Lemma is_node_add_node (g : VarDAG) (n m : string) :
  is_node (adj (add_node n g)) m <-> m = n \/ is_node (adj g) m.
Proof.
  unfold is_node. simpl. rewrite adj_lookup_add_node.
  destruct (adj_lookup m (adj g)) as [vs|] eqn:Hm.
  - split; eauto.
  - destruct (String.eqb n m) eqn:Hnm.
    + apply String.eqb_eq in Hnm. split; eauto.
    + apply String.eqb_neq in Hnm. split.
      * intros [x Hx]. discriminate.
      * intros [->|[x Hx]]; [contradiction|discriminate].
Qed.

(** X1. [add_node] adds the node and nothing else: the nodes afterwards are
    the old ones and [n], the edges are the old ones, and adding a node a
    second time changes nothing. *)
Theorem add_node_adds_only_the_node (g : VarDAG) (n : string) :
  (forall m, is_node (adj (add_node n g)) m <-> m = n \/ is_node (adj g) m)
  /\ (forall x y, edge (adj (add_node n g)) x y <-> edge (adj g) x y)
  /\ add_node n (add_node n g) = add_node n g
  /\ (is_node (adj g) n -> add_node n g = g).
Proof.
  split; [intros m; apply is_node_add_node|].
  split; [intros x y; apply edge_add_node|].
  assert (Hnoop : forall h, is_node (adj h) n -> add_node n h = h).
  { intros [a v r] [vs Hvs]. unfold add_node, adj_add_node. simpl in *.
    rewrite Hvs. reflexivity. }
  split; [|apply Hnoop].
  apply Hnoop. apply is_node_add_node. left. reflexivity.
Qed.

Lemma is_node_add_edge (g : VarDAG) (s d m : string) :
  is_node (adj (add_edge s d g)) m <-> m = s \/ m = d \/ is_node (adj g) m.
Proof.
  pose proof (is_node_add_node (add_node s g) d m) as H2.
  pose proof (is_node_add_node g s m) as H1.
  unfold is_node in *. simpl in *. rewrite adj_lookup_append.
  destruct (adj_lookup m (adj_add_node d (adj_add_node s (adj g)))) as [vs|] eqn:Hm.
  - assert (Hs : is_Some (Some vs)) by eauto. apply H2 in Hs.
    split; [intros _|eauto]. destruct Hs as [->|Hs]; [auto|].
    apply H1 in Hs. tauto.
  - split; [intros [x Hx]; discriminate|]. intros H.
    assert (Hs : is_Some (None : option (list string))).
    { apply H2. destruct H as [->|[->|H]]; [right; apply H1; auto|auto|].
      right. apply H1. auto. }
    destruct Hs as [x Hx]. discriminate.
Qed.

Lemma edge_add_edge (g : VarDAG) (s d x y : string) :
  edge (adj (add_edge s d g)) x y <-> edge (adj g) x y \/ (x = s /\ y = d).
Proof.
  pose proof (edge_add_node (add_node s g) d x y) as H2.
  pose proof (edge_add_node g s x y) as H1.
  pose proof (is_node_add_edge g s d s) as Hs.
  unfold edge, is_node in *. simpl in *. rewrite adj_lookup_append in Hs.
  set (a2 := adj_add_node d (adj_add_node s (adj g))) in *.
  split.
  - intros (ds & Hx & Hy). rewrite adj_lookup_append in Hx.
    destruct (adj_lookup x a2) as [vs|] eqn:Hxa; [|discriminate].
    inversion Hx. subst ds. clear Hx.
    destruct (String.eqb s x) eqn:Hsx.
    + apply String.eqb_eq in Hsx. subst x.
      apply in_app_or in Hy as [Hy|[Hy|[]]]; [|auto].
      left. apply H1, H2. eauto.
    + left. apply H1, H2. eauto.
  - intros [He|[-> ->]].
    + apply H1, H2 in He as (ds & Hx & Hy).
      rewrite adj_lookup_append, Hx. eexists. split; [reflexivity|].
      destruct (String.eqb s x); [apply in_or_app; left|]; exact Hy.
    + rewrite adj_lookup_append.
      destruct (adj_lookup s a2) as [vs|] eqn:Hsa.
      * rewrite String.eqb_refl. eexists. split; [reflexivity|].
        apply in_or_app. right. left. reflexivity.
      * exfalso. destruct Hs as [_ Hs].
        destruct Hs as [w Hw]; [auto|discriminate].
Qed.

(** X2. [add_edge(src, dst)] inserts its two endpoints and one edge: the
    nodes afterwards are the old ones, [src] and [dst]; the edges are the old
    ones and [src -> dst]. *)
Theorem add_edge_adds_endpoints_and_edge (g : VarDAG) (src dst : string) :
  (forall m, is_node (adj (add_edge src dst g)) m
             <-> m = src \/ m = dst \/ is_node (adj g) m)
  /\ (forall x y, edge (adj (add_edge src dst g)) x y
                  <-> edge (adj g) x y \/ (x = src /\ y = dst)).
Proof.
  split; [intros m; apply is_node_add_edge|intros x y; apply edge_add_edge].
Qed.

Lemma adj_add_node_keys (a : list (string * list string)) (n : string) :
  List.NoDup (map fst a) -> List.NoDup (map fst (adj_add_node n a)).
Proof.
  intros Hnd. unfold adj_add_node. destruct (adj_lookup n a) eqn:Hn; [exact Hnd|].
  rewrite map_app. simpl. apply NoDup_ListNoDup, NoDup_app.
  split; [apply NoDup_ListNoDup; exact Hnd|].
  split; [|apply NoDup_singleton].
  intros x Hx Hx'. apply list_elem_of_singleton in Hx'. subst x.
  apply list_elem_of_In in Hx. apply adj_lookup_is_node in Hx.
  destruct Hx as [vs Hvs]. congruence.
Qed.

Lemma adj_append_keys (a : list (string * list string)) (s d : string) :
  map fst (adj_append s d a) = map fst a.
Proof.
  induction a as [|[k vs] a IH]; simpl; [reflexivity|].
  destruct (String.eqb k s); simpl; [reflexivity|]. f_equal. exact IH.
Qed.

Lemma build_keys_NoDup (calls : list dag_call) :
  List.NoDup (map fst (adj (build calls))).
Proof.
  unfold build.
  assert (H : forall g, List.NoDup (map fst (adj g)) ->
                        List.NoDup (map fst (adj (foldl run_call g calls)))).
  { induction calls as [|c calls IH]; intros g Hg; simpl; [exact Hg|].
    apply IH. destruct c; simpl.
    - apply adj_add_node_keys. exact Hg.
    - rewrite adj_append_keys. apply adj_add_node_keys, adj_add_node_keys. exact Hg. }
  apply H. simpl. constructor.
Qed.

(** X3. In a DAG built by [add_node] and [add_edge] calls the keys of the
    adjacency dict are distinct and every edge points to a node, so the
    lookup [self.__adj[node]] of a visit never fails. *)
Theorem built_dag_is_closed (calls : list dag_call) :
  List.NoDup (map fst (adj (build calls)))
  /\ (forall s d, edge (adj (build calls)) s d ->
                  is_node (adj (build calls)) s /\ is_node (adj (build calls)) d).
Proof.
  split.
  - apply build_keys_NoDup.
  - intros s d He. split; [|apply (build_closed calls s d He)].
    destruct He as (ds & Hs & _). exists ds. exact Hs.
Qed.

(** ** [VarDAG]: the traversal on any graph *)

Section dfs_sound.
Variable a : list (string * list string).
Hypothesis a_closed : closed a.

Section loop_sound.
Variable visit : string -> dfs_state -> exc dfs_state.
Variable budget : nat.
Hypothesis visit_spec : visit_sound a visit budget.
Variable node : string.

Lemma dfs_loop_sound (vs : list string) (st : dfs_state) :
  (forall v, In v vs -> edge a node v) ->
  dfs_inv a st ->
  (forall x, In x (dfs_res st) -> is_node a x) ->
  unvisited a (dfs_visited st) <= budget ->
  (exists st',
     dfs_loop visit vs st = Ok st'
     /\ dfs_inv a st'
     /\ dfs_local_visited st' = dfs_local_visited st
     /\ dfs_visited st ⊆ dfs_visited st'
     /\ (forall v, In v vs -> In v (dfs_res st'))
     /\ (forall x, In x (dfs_res st) -> In x (dfs_res st'))
     /\ (forall x, In x (dfs_res st') -> is_node a x))
  \/ dfs_loop visit vs st = Raise ValueError.
Proof.
  revert st. induction vs as [|v vs IH]; intros st Hedges Hinv Hnodes Hbudget.
  - left. exists st. simpl.
    conjs; [reflexivity|exact Hinv|reflexivity|set_solver| |auto|exact Hnodes].
    intros v [].
  - assert (Hev : edge a node v) by (apply Hedges; left; reflexivity).
    assert (Hrest : forall w, In w vs -> edge a node w)
      by (intros w Hw; apply Hedges; right; exact Hw).
    cbn [dfs_loop].
    destruct (bool_decide (v ∉ dfs_visited st)) eqn:Hvis.
    + apply bool_decide_eq_true in Hvis.
      destruct (visit_spec v st (a_closed node v Hev) Hvis Hinv Hnodes Hbudget)
        as [(st1 & Hrun & Hinv1 & Hloc1 & Hsub1 & Hv1 & Hres1 & Hnodes1)|Hraise].
      2: { right. rewrite Hraise. reflexivity. }
      rewrite Hrun. cbn [mbind exc_bind].
      destruct (IH st1 Hrest Hinv1 Hnodes1)
        as [(st2 & Hrun2 & Hinv2 & Hloc2 & Hsub2 & Hvs2 & Hres2 & Hnodes2)|Hraise].
      { pose proof (unvisited_mono a _ _ Hsub1). lia. }
      2: { right. exact Hraise. }
      left. exists st2. rewrite Hrun2. conjs; auto.
      * congruence.
      * set_solver.
      * intros w [<- | Hw]; auto.
    + apply bool_decide_eq_false in Hvis.
      assert (Hv : v ∈ dfs_visited st).
      { destruct (decide (v ∈ dfs_visited st)); [assumption|contradiction]. }
      destruct (bool_decide (v ∈ dfs_local_visited st)) eqn:Hloc; [right; reflexivity|].
      apply bool_decide_eq_false in Hloc.
      assert (Hvres : In v (dfs_res st)).
      { apply (inv_visited a st Hinv) in Hv as [H|H]; [contradiction|exact H]. }
      destruct (IH st Hrest Hinv Hnodes Hbudget)
        as [(st2 & Hrun2 & Hinv2 & Hloc2 & Hsub2 & Hvs2 & Hres2 & Hnodes2)|Hraise].
      2: { right. exact Hraise. }
      left. exists st2. rewrite Hrun2. conjs; auto.
      intros w [<- | Hw]; auto.
Qed.
End loop_sound.

Lemma dfs_visit_sound (budget : nat) : visit_sound a (dfs_visit budget a) budget.
Proof.
  induction budget as [|budget IH];
    intros node st Hnode Hfresh Hinv Hnodes Hbudget.
  - pose proof (unvisited_add a _ node Hnode Hfresh). lia.
  - cbn [dfs_visit]. pose proof Hnode as Hisnode.
    destruct Hnode as [succs Hsuccs]. rewrite Hsuccs.
    set (st1 := mkDfs ({[ node ]} ∪ dfs_visited st)
                      ({[ node ]} ∪ dfs_local_visited st) (dfs_res st)).
    assert (Hnotres : ~ In node (dfs_res st)).
    { intros H. apply Hfresh. apply (inv_visited a st Hinv). right. exact H. }
    assert (Hnotloc : node ∉ dfs_local_visited st).
    { intros H. apply Hfresh. apply (inv_visited a st Hinv). left. exact H. }
    destruct (dfs_loop_sound (dfs_visit budget a) budget IH node succs st1)
      as [(st2 & Hrun & Hinv2 & Hloc2 & Hsub2 & Hsuccs2 & Hres2 & Hnodes2)|Hraise].
    + intros v Hv. exists succs. auto.
    + constructor; simpl.
      * intros x. rewrite !elem_of_union, (inv_visited a st Hinv). tauto.
      * intros x Hx Hin. apply elem_of_union in Hin as [Hin|Hin].
        -- apply elem_of_singleton in Hin. subst x. contradiction.
        -- apply (inv_disjoint a st Hinv x Hx). exact Hin.
      * apply (inv_topo a st Hinv).
    + exact Hnodes.
    + simpl. pose proof (unvisited_add a _ node Hisnode Hfresh). lia.
    + left. rewrite Hrun. cbn [mbind exc_bind]. eexists. split; [reflexivity|].
      simpl in Hloc2, Hsub2, Hres2.
      assert (Hnode2 : ~ In node (dfs_res st2)).
      { intros H. apply (inv_disjoint a st2 Hinv2 node H). rewrite Hloc2. set_solver. }
      conjs; [constructor|..]; simpl.
      * intros x. rewrite (inv_visited a st2 Hinv2), Hloc2.
        rewrite elem_of_difference, elem_of_union, elem_of_singleton.
        destruct (decide (x = node)) as [-> | Hne]; [tauto|].
        intuition congruence.
      * intros x [<- | Hx].
        -- rewrite Hloc2. set_solver.
        -- intros Hin. apply (inv_disjoint a st2 Hinv2 x Hx). set_solver.
      * conjs.
        -- exact Hnode2.
        -- intros y (ds & Hds & Hy). apply Hsuccs2. congruence.
        -- apply (inv_topo a st2 Hinv2).
      * rewrite Hloc2. set_solver.
      * set_solver.
      * auto.
      * auto.
      * intros x [<- | Hx]; auto.
    + right. rewrite Hraise. reflexivity.
Qed.

Lemma visit_all_sound (budget : nat) (nodes : list string) (vis : gset string)
    (res : list string) :
  (forall n, In n nodes -> is_node a n) ->
  dfs_inv a (mkDfs vis ∅ res) ->
  (forall x, In x res -> is_node a x) ->
  unvisited a vis <= budget ->
  (exists vis' res',
     visit_all budget a nodes vis res = Ok (vis', res')
     /\ dfs_inv a (mkDfs vis' ∅ res')
     /\ (forall n, In n nodes -> In n res')
     /\ (forall x, In x res -> In x res')
     /\ (forall x, In x res' -> is_node a x))
  \/ visit_all budget a nodes vis res = Raise ValueError.
Proof.
  revert vis res.
  induction nodes as [|n nodes IH]; intros vis res Hnodes Hinv Hres Hbudget.
  - left. exists vis, res. simpl. conjs; [reflexivity|exact Hinv| |auto|exact Hres].
    intros n [].
  - assert (Hrest : forall m, In m nodes -> is_node a m)
      by (intros m Hm; apply Hnodes; right; exact Hm).
    cbn [visit_all]. destruct (bool_decide (n ∉ vis)) eqn:Hn.
    + apply bool_decide_eq_true in Hn.
      destruct (dfs_visit_sound budget n (mkDfs vis ∅ res))
        as [(st1 & Hrun & Hinv1 & Hloc1 & Hsub1 & Hn1 & Hres1 & Hnodes1)|Hraise];
        [apply Hnodes; left; reflexivity|exact Hn|exact Hinv|exact Hres|exact Hbudget| |].
      2: { right. rewrite Hraise. reflexivity. }
      rewrite Hrun. cbn [mbind exc_bind]. simpl in Hloc1, Hsub1, Hres1.
      destruct st1 as [vis1 loc1 res1]. simpl in *. subst loc1.
      destruct (IH vis1 res1 Hrest Hinv1 Hnodes1)
        as [(vis' & res' & Hrun' & Hinv' & Hall & Hres' & Hnodes')|Hraise].
      { pose proof (unvisited_mono a _ _ Hsub1). lia. }
      2: { right. exact Hraise. }
      left. exists vis', res'. conjs; auto.
      intros m [<- | Hm]; auto.
    + apply bool_decide_eq_false in Hn.
      assert (Hin : In n res).
      { destruct (decide (n ∈ vis)) as [H|H]; [|contradiction].
        apply (inv_visited a _ Hinv) in H as [H|H]; [|exact H].
        simpl in H. apply not_elem_of_empty in H. destruct H. }
      destruct (IH vis res Hrest Hinv Hres Hbudget)
        as [(vis' & res' & Hrun' & Hinv' & Hall & Hres' & Hnodes')|Hraise].
      2: { right. exact Hraise. }
      left. exists vis', res'. conjs; auto.
      intros m [<- | Hm]; auto.
Qed.
End dfs_sound.

(** *** A topological order rules out cycles *)

Lemma topo_edge_closed (a : list (string * list string)) (l : list string) (s d : string) :
  topo a l -> In s l -> edge a s d -> In d l.
Proof.
  induction l as [|x l IH]; intros Ht Hs He; [destruct Hs|].
  destruct Ht as (_ & Hsucc & Ht). right.
  destruct Hs as [-> | Hs]; auto.
Qed.

Lemma topo_path_closed (a : list (string * list string)) (l : list string) (s d : string) :
  topo a l -> In s l -> path a s d -> In d l.
Proof.
  intros Ht Hs Hp. induction Hp as [s d He|s m d He Hp IH].
  - eapply topo_edge_closed; eauto.
  - apply IH. eapply topo_edge_closed; eauto.
Qed.

Lemma topo_suffix (a : list (string * list string)) (l1 l : list string) :
  topo a (l1 ++ l) -> topo a l.
Proof.
  induction l1 as [|x l1 IH]; simpl; [auto|]. intros (_ & _ & H). auto.
Qed.

Lemma path_source_node (a : list (string * list string)) (x y : string) :
  path a x y -> is_node a x.
Proof. destruct 1 as [s d (ds & Hs & _)|s m d (ds & Hs & _) _]; exists ds; exact Hs. Qed.

Lemma topo_path_tail (a : list (string * list string)) (l : list string) (x y : string) :
  topo a (x :: l) -> path a x y -> In y l.
Proof.
  intros (_ & Hsucc & Ht) Hp. destruct Hp as [s d He|s m d He Hp]; [auto|].
  eapply topo_path_closed; eauto.
Qed.

Lemma topo_acyclic (a : list (string * list string)) (l : list string) :
  topo a l -> (forall n, is_node a n -> In n l) -> acyclic a.
Proof.
  intros Ht Hall x Hp.
  pose proof (Hall x (path_source_node a x x Hp)) as Hx.
  apply in_split in Hx as (l1 & l2 & ->).
  apply topo_suffix in Ht. pose proof (topo_path_tail a l2 x x Ht Hp) as Hin.
  destruct Ht as (Hnot & _). contradiction.
Qed.

(** What [get_topological_ordering] does on a built DAG, cyclic or not. *)
Lemma get_topological_ordering_outcome (calls : list dag_call) :
  (exists vis l,
     get_topological_ordering (build calls) = Ok (mkVarDAG (adj (build calls)) vis l, l)
     /\ topo (adj (build calls)) l
     /\ (forall n, In n l <-> is_node (adj (build calls)) n))
  \/ get_topological_ordering (build calls) = Raise ValueError.
Proof.
  set (a := adj (build calls)).
  destruct (visit_all_sound a (build_closed calls) (length a) (map fst a) ∅ [])
    as [(vis & res & Hrun & Hinv & Hall & _ & Hnodes)|Hraise].
  - intros n Hn. apply adj_lookup_is_node. exact Hn.
  - constructor; simpl.
    + intros x. split; [intros H|intros [H|[]]]; apply not_elem_of_empty in H; destruct H.
    + intros x [].
    + exact I.
  - intros x [].
  - apply unvisited_le.
  - left. exists vis, res. unfold get_topological_ordering. fold a.
    rewrite Hrun. cbn [mbind exc_bind]. split; [reflexivity|].
    split; [apply (inv_topo a _ Hinv)|].
    intros n. split; [apply Hnodes|]. intros Hn. apply Hall.
    apply adj_lookup_is_node. exact Hn.
  - right. unfold get_topological_ordering. fold a. rewrite Hraise. reflexivity.
Qed.

Lemma get_topological_ordering_acyclic (calls : list dag_call) :
  acyclic (adj (build calls)) ->
  exists r, get_topological_ordering (build calls) = Ok r.
Proof.
  intros Hacyclic. set (a := adj (build calls)) in *.
  destruct (visit_all_ok a (build_closed calls) Hacyclic (length a) (map fst a) ∅ [])
    as (vis & res & Hrun & _).
  - intros n Hn. apply adj_lookup_is_node. exact Hn.
  - constructor; simpl.
    + intros x. split; [intros H|intros [H|[]]]; apply not_elem_of_empty in H; destruct H.
    + intros x [].
    + exact I.
  - apply unvisited_le.
  - unfold get_topological_ordering. fold a. rewrite Hrun. cbn [mbind exc_bind]. eauto.
Qed.

(** X4. On a DAG built by [add_node] and [add_edge] calls,
    [get_topological_ordering] raises [ValueError] exactly when the graph has
    a cycle, and returns exactly when it has none; it ends in no other
    way. *)
Theorem topological_ordering_fails_iff_cyclic (calls : list dag_call) :
  (get_topological_ordering (build calls) = Raise ValueError
   <-> ~ acyclic (adj (build calls)))
  /\ ((exists r, get_topological_ordering (build calls) = Ok r)
      <-> acyclic (adj (build calls))).
Proof.
  assert (Hok : (exists r, get_topological_ordering (build calls) = Ok r)
                -> acyclic (adj (build calls))).
  { intros [r Hr].
    destruct (get_topological_ordering_outcome calls)
      as [(vis & l & _ & Ht & Hall)|Hraise]; [|congruence].
    apply (topo_acyclic _ l Ht). intros n Hn. apply Hall. exact Hn. }
  split; split.
  - intros Hraise Hacyclic.
    destruct (get_topological_ordering_acyclic calls Hacyclic) as [r Hr]. congruence.
  - intros Hcyclic.
    destruct (get_topological_ordering_outcome calls)
      as [(vis & l & Hrun & _)|Hraise]; [|exact Hraise].
    exfalso. apply Hcyclic, Hok. eauto.
  - exact Hok.
  - apply get_topological_ordering_acyclic.
Qed.

(** X5. When [get_topological_ordering] returns on a built DAG, the list is a
    permutation of the nodes (every node once, nothing else), it is also what
    the object keeps in [topo_sort_res], and the adjacency dict is
    unchanged. *)
Theorem topological_ordering_lists_every_node_once
    (calls : list dag_call) (g' : VarDAG) (l : list string) :
  get_topological_ordering (build calls) = Ok (g', l) ->
  (forall n, In n l <-> is_node (adj (build calls)) n)
  /\ l ≡ₚ map fst (adj (build calls))
  /\ topo_sort_res g' = l
  /\ adj g' = adj (build calls).
Proof.
  intros Hrun.
  destruct (get_topological_ordering_outcome calls)
    as [(vis & l' & Hrun' & Ht & Hall)|Hraise]; [|congruence].
  rewrite Hrun in Hrun'. inversion Hrun'. subst l' g'. clear Hrun'.
  split; [exact Hall|]. split; [|split; reflexivity].
  apply NoDup_Permutation.
  - apply NoDup_ListNoDup. eapply topo_NoDup. exact Ht.
  - apply NoDup_ListNoDup, build_keys_NoDup.
  - intros x. rewrite !list_elem_of_In, Hall. apply adj_lookup_is_node.
Qed.

(** The theorem on a DAG of three nodes. *)
Lemma topological_ordering_lists_every_node_once_witness :
  let calls := [call_add_edge "a" "b"; call_add_node "c"; call_add_edge "a" "c"] in
  exists g' l,
    get_topological_ordering (build calls) = Ok (g', l)
    /\ l = ["a"; "c"; "b"]
    /\ (forall n, In n l <-> is_node (adj (build calls)) n)
    /\ l ≡ₚ map fst (adj (build calls))
    /\ topo_sort_res g' = l
    /\ adj g' = adj (build calls).
Proof.
  intros calls.
  destruct (get_topological_ordering (build calls)) as [[g' l]|e] eqn:Hrun;
    [|vm_compute in Hrun; discriminate].
  exists g', l. split; [reflexivity|].
  split; [vm_compute in Hrun; inversion Hrun; reflexivity|].
  apply (topological_ordering_lists_every_node_once calls g' l Hrun).
Defined.

(** ** Terms: induction on the depth *)

Lemma Term_height_ind (P : Term -> Prop) :
  (forall t, (forall u, height u < height t -> P u) -> P t) -> forall t, P t.
Proof.
  intros Hstep t. remember (height t) as n eqn:Hn.
  revert t Hn. induction n as [n IH] using lt_wf_ind. intros t ->.
  apply Hstep. intros u Hu. apply (IH (height u) Hu u eq_refl).
Qed.

Lemma list_max_In (l : list nat) (x : nat) : In x l -> x <= list_max l.
Proof.
  induction l as [|y l IH]; intros Hx; [destruct Hx|].
  simpl. destruct Hx as [->|Hx]; [lia|]. specialize (IH Hx). lia.
Qed.

Lemma height_Fix_param (f : string) (ps : list Binder) (r b : Term)
    (st : option string) (ns : list string) (ty : Term) :
  In (mkBinder ns ty) ps -> height ty < height (Fix f ps r b st).
Proof.
  intros Hin. cbn [height].
  assert (H : height ty <= list_max (map (fun p => match p with mkBinder _ ty => height ty end) ps)).
  { apply list_max_In. apply in_map_iff. exists (mkBinder ns ty). auto. }
  lia.
Qed.

Lemma height_Match_subject (ss : list MatchSubject) (cs : list CaseClause)
    (r : option Term) (tm : Term) (al : option string) (pt : option Pattern) :
  In (mkMatchSubject tm al pt) ss -> height tm < height (Match ss cs r).
Proof.
  intros Hin. cbn [height].
  assert (H : height tm
              <= list_max (map (fun s => match s with mkMatchSubject tm _ _ => height tm end) ss)).
  { apply list_max_In. apply in_map_iff. exists (mkMatchSubject tm al pt). auto. }
  lia.
Qed.

Lemma height_Match_case (ss : list MatchSubject) (cs : list CaseClause)
    (r : option Term) (pts : list Pattern) (b : Term) :
  In (mkCaseClause pts b) cs -> height b < height (Match ss cs r).
Proof.
  intros Hin. cbn [height].
  assert (H : height b
              <= list_max (map (fun c => match c with mkCaseClause _ b => height b end) cs)).
  { apply list_max_In. apply in_map_iff. exists (mkCaseClause pts b). auto. }
  lia.
Qed.

Lemma height_Match_ret (ss : list MatchSubject) (cs : list CaseClause) (ty : Term) :
  height ty < height (Match ss cs (Some ty)).
Proof. cbn [height]. lia. Qed.

(** [exc_map] returns when the function does on every element. *)
Lemma exc_map_Forall2 {A : Type} (f : A -> exc A) (R : A -> A -> Prop) (l : list A) :
  (forall x, In x l -> exists y, f x = Ok y /\ R x y) ->
  exists l', exc_map f l = Ok l' /\ Forall2 R l l'.
Proof.
  induction l as [|x l IH]; intros H; simpl.
  - exists []. split; [reflexivity|constructor].
  - destruct (H x (or_introl eq_refl)) as (y & -> & Hy). cbn [mbind exc_bind].
    destruct IH as (l' & -> & Hl'); [intros z Hz; apply H; right; exact Hz|].
    cbn [mbind exc_bind]. exists (y :: l'). split; [reflexivity|]. constructor; auto.
Qed.

Lemma Forall2_eq_l {A : Type} (R : A -> A -> Prop) (l l' : list A) :
  Forall2 R l l' -> (forall x y, In x l -> R x y -> y = x) -> l' = l.
Proof.
  induction 1 as [|x y l l' Hxy Hl IH]; intros Heq; [reflexivity|].
  f_equal; [apply Heq; [left; reflexivity|exact Hxy]|].
  apply IH. intros a b Ha. apply Heq. right. exact Ha.
Qed.

Lemma Forall2_forallb_r {A : Type} (R : A -> A -> Prop) (q : A -> bool) (l l' : list A) :
  Forall2 R l l' -> (forall x y, In x l -> R x y -> q y = true) -> forallb q l' = true.
Proof.
  induction 1 as [|x y l l' Hxy Hl IH]; intros Hq; [reflexivity|].
  simpl. rewrite (Hq x y (or_introl eq_refl) Hxy). simpl.
  apply IH. intros a b Ha. apply Hq. right. exact Ha.
Qed.

(** ** [subst] on terms whose matches have return types *)

Lemma Var_eqb_true (x y : string) : Var_eqb x y = true <-> x = y.
Proof. apply String.eqb_eq. Qed.

Lemma Var_eqb_false (x y : string) : Var_eqb x y = false <-> x <> y.
Proof. apply String.eqb_neq. Qed.

Lemma elem_of_union_list_map {A : Type} (f : A -> gset string) (l : list A) (v : string) :
  v ∈ ⋃ (map f l) <-> exists x, In x l /\ v ∈ f x.
Proof.
  rewrite elem_of_union_list. split.
  - intros (X & HX & Hv). apply list_elem_of_In, in_map_iff in HX as (x & <- & Hx). eauto.
  - intros (x & Hx & Hv). exists (f x). split; [|exact Hv].
    apply list_elem_of_In, in_map_iff. eauto.
Qed.

Section subst_spec.
Variable allow : bool.

Lemma subst_spec (t : Term) :
  Match_ok allow t = true ->
  forall v r, exists t', subst t v r = Ok t' /\ subst_post allow v r t t'.
Proof.
  induction t as [t IH] using Term_height_ind. intros Hok v r.
  assert (IHc : forall c, height c < height t -> Match_ok allow c = true ->
                  exists c', subst c v r = Ok c' /\ subst_post allow v r c c')
    by (intros c Hc Hokc; apply IH; assumption).
  clear IH. unfold subst_post in *.
  destruct t as [x|s ann|x ty b|x ty b|x ty d b|g r0 th el al|f ps r0 b st
                |ss cs r0|c1 c2|c1 c2].
  - (* Var *)
    cbn [subst]. eexists. split; [reflexivity|]. cbn [Match_ok free_vars].
    split; [reflexivity|]. split.
    + intros Hv. destruct (String.eqb x v) eqn:Hx; [|reflexivity].
      apply String.eqb_eq in Hx. set_solver.
    + intros ->. destruct (String.eqb x v) eqn:Hx; [|reflexivity].
      apply String.eqb_eq in Hx. congruence.
  - (* Sort *)
    cbn [subst]. eexists. split; [reflexivity|]. auto.
  - (* Fun *)
    cbn [Match_ok] in Hok. apply andb_true_iff in Hok as [Hty Hb].
    destruct (IHc ty) as (ty' & Hrun1 & Hok1 & Hfv1 & Hid1);
      [cbn [height]; lia|exact Hty|].
    cbn [subst free_vars]. rewrite Hrun1. cbn [mbind exc_bind].
    destruct (Var_eqb v x) eqn:Hvx; cbn [negb mbind exc_bind].
    + apply Var_eqb_true in Hvx. subst x. eexists. split; [reflexivity|].
      cbn [Match_ok]. rewrite Hok1, Hb. split; [reflexivity|].
      split; [intros Hv; rewrite Hfv1 by set_solver; reflexivity|].
      intros Hr. rewrite Hid1 by exact Hr. reflexivity.
    + apply Var_eqb_false in Hvx.
      destruct (IHc b) as (b' & Hrun2 & Hok2 & Hfv2 & Hid2);
        [cbn [height]; lia|exact Hb|].
      rewrite Hrun2. cbn [mbind exc_bind]. eexists. split; [reflexivity|].
      cbn [Match_ok]. rewrite Hok1, Hok2. split; [reflexivity|].
      split; [intros Hv; rewrite Hfv1, Hfv2 by set_solver; reflexivity|].
      intros Hr. rewrite Hid1, Hid2 by exact Hr. reflexivity.
  - (* Product *)
    cbn [Match_ok] in Hok. apply andb_true_iff in Hok as [Hty Hb].
    destruct (IHc ty) as (ty' & Hrun1 & Hok1 & Hfv1 & Hid1);
      [cbn [height]; lia|exact Hty|].
    cbn [subst free_vars]. rewrite Hrun1. cbn [mbind exc_bind].
    destruct (Var_eqb v x) eqn:Hvx; cbn [negb mbind exc_bind].
    + apply Var_eqb_true in Hvx. subst x. eexists. split; [reflexivity|].
      cbn [Match_ok]. rewrite Hok1, Hb. split; [reflexivity|].
      split; [intros Hv; rewrite Hfv1 by set_solver; reflexivity|].
      intros Hr. rewrite Hid1 by exact Hr. reflexivity.
    + apply Var_eqb_false in Hvx.
      destruct (IHc b) as (b' & Hrun2 & Hok2 & Hfv2 & Hid2);
        [cbn [height]; lia|exact Hb|].
      rewrite Hrun2. cbn [mbind exc_bind]. eexists. split; [reflexivity|].
      cbn [Match_ok]. rewrite Hok1, Hok2. split; [reflexivity|].
      split; [intros Hv; rewrite Hfv1, Hfv2 by set_solver; reflexivity|].
      intros Hr. rewrite Hid1, Hid2 by exact Hr. reflexivity.
  - (* Let *)
    cbn [Match_ok] in Hok. apply andb_true_iff in Hok as [Hok Hb].
    apply andb_true_iff in Hok as [Hty Hd].
    destruct (IHc ty) as (ty' & Hrun1 & Hok1 & Hfv1 & Hid1);
      [cbn [height]; lia|exact Hty|].
    destruct (IHc d) as (d' & Hrun3 & Hok3 & Hfv3 & Hid3);
      [cbn [height]; lia|exact Hd|].
    cbn [subst free_vars]. rewrite Hrun1. cbn [mbind exc_bind].
    destruct (Var_eqb v x) eqn:Hvx; cbn [negb mbind exc_bind].
    + apply Var_eqb_true in Hvx. subst x. rewrite Hrun3. cbn [mbind exc_bind].
      eexists. split; [reflexivity|].
      cbn [Match_ok]. rewrite Hok1, Hok3, Hb. split; [reflexivity|].
      split; [intros Hv; rewrite Hfv1, Hfv3 by set_solver; reflexivity|].
      intros Hr. rewrite Hid1, Hid3 by exact Hr. reflexivity.
    + apply Var_eqb_false in Hvx.
      destruct (IHc b) as (b' & Hrun2 & Hok2 & Hfv2 & Hid2);
        [cbn [height]; lia|exact Hb|].
      rewrite Hrun2. cbn [mbind exc_bind]. rewrite Hrun3. cbn [mbind exc_bind].
      eexists. split; [reflexivity|].
      cbn [Match_ok]. rewrite Hok1, Hok2, Hok3. split; [reflexivity|].
      split; [intros Hv; rewrite Hfv1, Hfv2, Hfv3 by set_solver; reflexivity|].
      intros Hr. rewrite Hid1, Hid2, Hid3 by exact Hr. reflexivity.
  - (* Cond *)
    cbn [Match_ok] in Hok. apply andb_true_iff in Hok as [Hok Hel].
    apply andb_true_iff in Hok as [Hok Hth]. apply andb_true_iff in Hok as [Hg Hr0].
    destruct (IHc th) as (th' & Hrun1 & Hok1 & Hfv1 & Hid1);
      [cbn [height]; lia|exact Hth|].
    destruct (IHc el) as (el' & Hrun2 & Hok2 & Hfv2 & Hid2);
      [cbn [height]; lia|exact Hel|].
    cbn [subst free_vars]. rewrite Hrun1. cbn [mbind exc_bind].
    rewrite Hrun2. cbn [mbind exc_bind].
    destruct (opt_Var_eqb al (Some v)) eqn:Hal; cbn [negb mbind exc_bind].
    + eexists. split; [reflexivity|].
      cbn [Match_ok]. rewrite Hg, Hr0, Hok1, Hok2. split; [reflexivity|].
      split; [intros Hv; rewrite Hfv1, Hfv2 by set_solver; reflexivity|].
      intros Hr. rewrite Hid1, Hid2 by exact Hr. reflexivity.
    + destruct (IHc r0) as (r0' & Hrun3 & Hok3 & Hfv3 & Hid3);
        [cbn [height]; lia|exact Hr0|].
      rewrite Hrun3. cbn [mbind exc_bind]. eexists. split; [reflexivity|].
      cbn [Match_ok]. rewrite Hg, Hok1, Hok2, Hok3. split; [reflexivity|].
      split.
      * intros Hv. rewrite Hfv1, Hfv2 by set_solver.
        rewrite Hfv3; [reflexivity|].
        destruct al as [a|]; [|set_solver].
        simpl in Hal. apply Var_eqb_false in Hal. set_solver.
      * intros Hr. rewrite Hid1, Hid2, Hid3 by exact Hr. reflexivity.
  - (* Fix *)
    cbn [subst]. destruct (Var_eqb f v) eqn:Hf.
    { eexists. split; [reflexivity|]. auto. }
    destruct (bool_decide (v ∈ (list_to_set (concat (map Binder_get_names ps)) : gset string)))
      eqn:Hnames.
    { eexists. split; [reflexivity|]. auto. }
    apply Var_eqb_false in Hf. apply bool_decide_eq_false in Hnames.
    cbn [Match_ok] in Hok. apply andb_true_iff in Hok as [Hok Hb].
    apply andb_true_iff in Hok as [Hps Hr0].
    rewrite forallb_forall in Hps.
    destruct (exc_map_Forall2
                (fun p => match p with
                          | mkBinder ns ty =>
                              subst ty v r ≫= (fun ty' => Ok (mkBinder ns ty'))
                          end)
                (fun p p' => match p, p' with
                             | mkBinder ns ty, mkBinder ns' ty' =>
                                 ns' = ns /\ Match_ok allow ty' = true
                                 /\ (v ∉ free_vars ty -> ty' = ty) /\ (r = v -> ty' = ty)
                             end) ps) as (ps' & Hrun1 & Hps').
    { intros [ns ty] Hin.
      destruct (IHc ty) as (ty' & Hrun & Hok' & Hfv & Hid);
        [eapply height_Fix_param; exact Hin|apply (Hps _ Hin)|].
      rewrite Hrun. cbn [mbind exc_bind]. exists (mkBinder ns ty'). auto. }
    rewrite Hrun1. cbn [mbind exc_bind].
    destruct (IHc r0) as (r0' & Hrun2 & Hok2 & Hfv2 & Hid2);
      [cbn [height]; lia|exact Hr0|].
    destruct (IHc b) as (b' & Hrun3 & Hok3 & Hfv3 & Hid3);
      [cbn [height]; lia|exact Hb|].
    rewrite Hrun2. cbn [mbind exc_bind]. rewrite Hrun3. cbn [mbind exc_bind].
    eexists. split; [reflexivity|]. cbn [Match_ok]. rewrite Hok2, Hok3.
    split; [|split].
    + rewrite andb_true_r, andb_true_r.
      apply (Forall2_forallb_r _ _ _ _ Hps').
      intros [ns ty] [ns' ty'] _ (_ & H & _). exact H.
    + intros Hv. cbn [free_vars] in Hv.
      rewrite Hfv2, Hfv3 by set_solver. f_equal.
      apply (Forall2_eq_l _ _ _ Hps').
      intros [ns ty] [ns' ty'] Hin (-> & _ & Hfv & _). f_equal. apply Hfv.
      intros Hty. apply Hv.
      assert (Hns : v ∉ (list_to_set ns : gset string)).
      { intros Hin'. apply Hnames. apply elem_of_list_to_set.
        apply elem_of_list_to_set in Hin'. apply list_elem_of_In.
        apply in_concat. exists ns. split; [|apply list_elem_of_In; exact Hin'].
        apply in_map_iff. exists (mkBinder ns ty). auto. }
      apply elem_of_union. left. apply elem_of_union. right.
      apply elem_of_difference. split; [|exact Hnames].
      apply elem_of_union_list_map. exists (mkBinder ns ty). split; [exact Hin|].
      set_solver.
    + intros Hr. rewrite Hid2, Hid3 by exact Hr. f_equal.
      apply (Forall2_eq_l _ _ _ Hps').
      intros [ns ty] [ns' ty'] _ (-> & _ & _ & Hid). f_equal. auto.
  - (* Match *)
    cbn [Match_ok] in Hok. apply andb_true_iff in Hok as [Hok Hr0].
    apply andb_true_iff in Hok as [Hok Hcs]. apply andb_true_iff in Hok as [Hallow Hss].
    rewrite forallb_forall in Hss, Hcs.
    destruct r0 as [ty|]; [|discriminate].
    cbn [subst].
    destruct (exc_map_Forall2
                (fun s => match s with
                          | mkMatchSubject tm al pt =>
                              subst tm v r ≫= (fun tm' => Ok (mkMatchSubject tm' al pt))
                          end)
                (fun s s' => match s, s' with
                             | mkMatchSubject tm al pt, mkMatchSubject tm' al' pt' =>
                                 al' = al /\ pt' = pt /\ Match_ok allow tm' = true
                                 /\ (v ∉ free_vars tm -> tm' = tm) /\ (r = v -> tm' = tm)
                             end) ss) as (ss' & Hrun1 & Hss').
    { intros [tm al pt] Hin.
      destruct (IHc tm) as (tm' & Hrun & Hok' & Hfv & Hid);
        [eapply height_Match_subject; exact Hin|apply (Hss _ Hin)|].
      rewrite Hrun. cbn [mbind exc_bind]. exists (mkMatchSubject tm' al pt). auto 6. }
    rewrite Hrun1. cbn [mbind exc_bind].
    destruct (IHc ty) as (ty' & Hrun2 & Hok2 & Hfv2 & Hid2);
      [apply height_Match_ret|exact Hr0|].
    destruct (exc_map_Forall2
                (fun c => match c with
                          | mkCaseClause pts b =>
                              if bool_decide (v ∈ ⋃ (map Pattern_get_bound_vars pts))
                              then Ok c
                              else subst b v r ≫= (fun b' => Ok (mkCaseClause pts b'))
                          end)
                (fun c c' => match c, c' with
                             | mkCaseClause pts b, mkCaseClause pts' b' =>
                                 pts' = pts /\ Match_ok allow b' = true
                                 /\ (v ∉ free_vars b
                                        ∖ ⋃ (map (fun p => non_wildcard (Pattern_get_bound_vars p)) pts)
                                     -> b' = b)
                                 /\ (r = v -> b' = b)
                             end) cs) as (cs' & Hrun3 & Hcs').
    { intros [pts b] Hin.
      destruct (bool_decide (v ∈ ⋃ (map Pattern_get_bound_vars pts))) eqn:Hbound.
      - exists (mkCaseClause pts b). split; [reflexivity|].
        split; [reflexivity|]. split; [apply (Hcs _ Hin)|]. auto.
      - apply bool_decide_eq_false in Hbound.
        destruct (IHc b) as (b' & Hrun & Hok' & Hfv & Hid);
          [eapply height_Match_case; exact Hin|apply (Hcs _ Hin)|].
        rewrite Hrun. cbn [mbind exc_bind]. exists (mkCaseClause pts b').
        split; [reflexivity|]. split; [reflexivity|]. split; [exact Hok'|].
        split; [|exact Hid]. intros Hv. apply Hfv. intros Hb. apply Hv.
        apply elem_of_difference. split; [exact Hb|].
        intros Hnw. apply Hbound.
        apply elem_of_union_list_map in Hnw as (p & Hp & Hvp).
        apply elem_of_union_list_map. exists p. split; [exact Hp|].
        unfold non_wildcard in Hvp. set_solver. }
    assert (Hret : exists r0',
               (if bool_decide (v ∈ ⋃ (map MatchSubject_get_bound_vars ss))
                then Ok (Some ty)
                else subst ty v r ≫= (fun ty' => Ok (Some ty'))) = Ok (Some r0')
               /\ Match_ok allow r0' = true
               /\ (v ∉ free_vars ty -> r0' = ty) /\ (r = v -> r0' = ty)).
    { destruct (bool_decide (v ∈ ⋃ (map MatchSubject_get_bound_vars ss))).
      - exists ty. auto.
      - rewrite Hrun2. cbn [mbind exc_bind]. exists ty'. auto. }
    destruct Hret as (r0' & -> & Hok4 & Hfv4 & Hid4). cbn [mbind exc_bind].
    rewrite Hrun3. cbn [mbind exc_bind].
    eexists. split; [reflexivity|]. cbn [Match_ok]. rewrite Hok4.
    split; [|split].
    + rewrite andb_true_r. apply andb_true_iff. split;
        [apply andb_true_iff; split; [exact Hallow|]|].
      * apply (Forall2_forallb_r _ _ _ _ Hss').
        intros [tm al pt] [tm' al' pt'] _ (_ & _ & H & _). exact H.
      * apply (Forall2_forallb_r _ _ _ _ Hcs').
        intros [pts b] [pts' b'] _ (_ & H & _). exact H.
    + intros Hv. cbn [free_vars] in Hv. rewrite Hfv4 by set_solver. f_equal.
      * apply (Forall2_eq_l _ _ _ Hss').
        intros [tm al pt] [tm' al' pt'] Hin (-> & -> & _ & Hfv & _). f_equal.
        apply Hfv. intros Htm. apply Hv. apply elem_of_union. left.
        apply elem_of_union. left.
        apply elem_of_union_list_map. exists (mkMatchSubject tm al pt).
        split; [exact Hin|]. set_solver.
      * apply (Forall2_eq_l _ _ _ Hcs').
        intros [pts b] [pts' b'] Hin (-> & _ & Hfv & _). f_equal.
        apply Hfv. intros Hb. apply Hv. apply elem_of_union. right.
        apply elem_of_union_list_map. exists (mkCaseClause pts b).
        split; [exact Hin|exact Hb].
    + intros Hr. rewrite Hid4 by exact Hr. f_equal.
      * apply (Forall2_eq_l _ _ _ Hss').
        intros [tm al pt] [tm' al' pt'] _ (-> & -> & _ & _ & Hid). f_equal. auto.
      * apply (Forall2_eq_l _ _ _ Hcs').
        intros [pts b] [pts' b'] _ (-> & _ & _ & Hid). f_equal. auto.
  - (* Cast *)
    cbn [Match_ok] in Hok. apply andb_true_iff in Hok as [H1 H2].
    destruct (IHc c1) as (c1' & Hrun1 & Hok1 & Hfv1 & Hid1);
      [cbn [height]; lia|exact H1|].
    destruct (IHc c2) as (c2' & Hrun2 & Hok2 & Hfv2 & Hid2);
      [cbn [height]; lia|exact H2|].
    cbn [subst free_vars]. rewrite Hrun1. cbn [mbind exc_bind].
    rewrite Hrun2. cbn [mbind exc_bind]. eexists. split; [reflexivity|].
    cbn [Match_ok]. rewrite Hok1, Hok2. split; [reflexivity|].
    split; [intros Hv; rewrite Hfv1, Hfv2 by set_solver; reflexivity|].
    intros Hr. rewrite Hid1, Hid2 by exact Hr. reflexivity.
  - (* App *)
    cbn [Match_ok] in Hok. apply andb_true_iff in Hok as [H1 H2].
    destruct (IHc c1) as (c1' & Hrun1 & Hok1 & Hfv1 & Hid1);
      [cbn [height]; lia|exact H1|].
    destruct (IHc c2) as (c2' & Hrun2 & Hok2 & Hfv2 & Hid2);
      [cbn [height]; lia|exact H2|].
    cbn [subst free_vars]. rewrite Hrun1. cbn [mbind exc_bind].
    rewrite Hrun2. cbn [mbind exc_bind]. eexists. split; [reflexivity|].
    cbn [Match_ok]. rewrite Hok1, Hok2. split; [reflexivity|].
    split; [intros Hv; rewrite Hfv1, Hfv2 by set_solver; reflexivity|].
    intros Hr. rewrite Hid1, Hid2 by exact Hr. reflexivity.
Qed.
End subst_spec.

Lemma bind_Raise {A B : Type} (m : exc A) (k : A -> exc B) (e : exn) :
  m ≫= k = Raise e <-> m = Raise e \/ exists a, m = Ok a /\ k a = Raise e.
Proof.
  destruct m as [a|e']; cbn [mbind exc_bind]; split.
  - intros H. right. exists a. auto.
  - intros [H|(a' & H & Hk)]; [discriminate|]. injection H as ->. exact Hk.
  - intros H. left. congruence.
  - intros [H|(a' & H & _)]; [congruence|discriminate].
Qed.

Lemma exc_map_Raise {A : Type} (f : A -> exc A) (l : list A) (e : exn) :
  exc_map f l = Raise e -> exists x, In x l /\ f x = Raise e.
Proof.
  induction l as [|x l IH]; cbn [exc_map]; [discriminate|].
  intros H. apply bind_Raise in H as [H|(y & _ & H)].
  - exists x. split; [left; reflexivity|exact H].
  - apply bind_Raise in H as [H|(r & _ & H)]; [|discriminate].
    destruct (IH H) as (x' & Hin & Hx'). exists x'. split; [right; exact Hin|exact Hx'].
Qed.

Lemma subst_Raise (t : Term) :
  forall v r e, subst t v r = Raise e -> e = AttributeError.
Proof.
  induction t as [t IH] using Term_height_ind. intros v r e.
  assert (IHc : forall c, height c < height t -> subst c v r = Raise e -> e = AttributeError)
    by (intros c Hc; apply IH; exact Hc).
  clear IH.
  destruct t as [x|s ann|x ty b|x ty b|x ty d b|g r0 th el al|f ps r0 b st
                |ss cs r0|c1 c2|c1 c2]; cbn [subst]; intros H.
  - discriminate.
  - discriminate.
  - apply bind_Raise in H as [H|(? & _ & H)];
      [apply (IHc ty); [cbn [height]; lia|exact H]|].
    apply bind_Raise in H as [H|(? & _ & H)]; [|discriminate].
    destruct (negb (Var_eqb v x)); [|discriminate].
    apply (IHc b); [cbn [height]; lia|exact H].
  - apply bind_Raise in H as [H|(? & _ & H)];
      [apply (IHc ty); [cbn [height]; lia|exact H]|].
    apply bind_Raise in H as [H|(? & _ & H)]; [|discriminate].
    destruct (negb (Var_eqb v x)); [|discriminate].
    apply (IHc b); [cbn [height]; lia|exact H].
  - apply bind_Raise in H as [H|(? & _ & H)];
      [apply (IHc ty); [cbn [height]; lia|exact H]|].
    apply bind_Raise in H as [H|(? & _ & H)].
    + destruct (negb (Var_eqb v x)); [|discriminate].
      apply (IHc b); [cbn [height]; lia|exact H].
    + apply bind_Raise in H as [H|(? & _ & H)]; [|discriminate].
      apply (IHc d); [cbn [height]; lia|exact H].
  - apply bind_Raise in H as [H|(? & _ & H)];
      [apply (IHc th); [cbn [height]; lia|exact H]|].
    apply bind_Raise in H as [H|(? & _ & H)];
      [apply (IHc el); [cbn [height]; lia|exact H]|].
    apply bind_Raise in H as [H|(? & _ & H)]; [|discriminate].
    destruct (negb (opt_Var_eqb al (Some v))); [|discriminate].
    apply (IHc r0); [cbn [height]; lia|exact H].
  - destruct (Var_eqb f v); [discriminate|].
    destruct (bool_decide _); [discriminate|].
    apply bind_Raise in H as [H|(? & _ & H)].
    { apply exc_map_Raise in H as ([ns ty] & Hin & H).
      apply bind_Raise in H as [H|(? & _ & H)]; [|discriminate].
      apply (IHc ty); [eapply height_Fix_param; exact Hin|exact H]. }
    apply bind_Raise in H as [H|(? & _ & H)];
      [apply (IHc r0); [cbn [height]; lia|exact H]|].
    apply bind_Raise in H as [H|(? & _ & H)]; [|discriminate].
    apply (IHc b); [cbn [height]; lia|exact H].
  - apply bind_Raise in H as [H|(? & _ & H)].
    { apply exc_map_Raise in H as ([tm al pt] & Hin & H).
      apply bind_Raise in H as [H|(? & _ & H)]; [|discriminate].
      apply (IHc tm); [eapply height_Match_subject; exact Hin|exact H]. }
    apply bind_Raise in H as [H|(? & _ & H)].
    { destruct (bool_decide _); [discriminate|].
      destruct r0 as [ty|]; [|congruence].
      apply bind_Raise in H as [H|(? & _ & H)]; [|discriminate].
      apply (IHc ty); [apply height_Match_ret|exact H]. }
    apply bind_Raise in H as [H|(? & _ & H)]; [|discriminate].
    apply exc_map_Raise in H as ([pts b] & Hin & H).
    destruct (bool_decide _); [discriminate|].
    apply bind_Raise in H as [H|(? & _ & H)]; [|discriminate].
    apply (IHc b); [eapply height_Match_case; exact Hin|exact H].
  - apply bind_Raise in H as [H|(? & _ & H)];
      [apply (IHc c1); [cbn [height]; lia|exact H]|].
    apply bind_Raise in H as [H|(? & _ & H)]; [|discriminate].
    apply (IHc c2); [cbn [height]; lia|exact H].
  - apply bind_Raise in H as [H|(? & _ & H)];
      [apply (IHc c1); [cbn [height]; lia|exact H]|].
    apply bind_Raise in H as [H|(? & _ & H)]; [|discriminate].
    apply (IHc c2); [cbn [height]; lia|exact H].
Qed.

(** X6. [subst] returns on every term whose matches all have a return
    clause, whatever the two names, and the term it leaves has the same
    property; so a chain of substitutions on such a term never raises. *)
Theorem subst_returns_when_matches_are_typed (t : Term) (v r : string) :
  Match_typed t = true ->
  exists t', subst t v r = Ok t' /\ Match_typed t' = true.
Proof.
  intros Hok. destruct (subst_spec true t Hok v r) as (t' & Hrun & Hok' & _).
  exists t'. split; [exact Hrun|exact Hok'].
Qed.

Lemma subst_returns_when_matches_are_typed_witness :
  exists t',
    subst (Match [mkMatchSubject (Var "n") None None]
                 [mkCaseClause [mkPattern "S" ["m"] None] (Var "n")]
                 (Some (Var "n"))) "n" "k" = Ok t'
    /\ Match_typed t' = true.
Proof.
  apply subst_returns_when_matches_are_typed. reflexivity.
Defined.

(** X7. The only exception [subst] raises is [AttributeError], and it raises
    it only on a term that has a [match] without a return clause. *)
Theorem subst_raises_only_AttributeError (t : Term) (v r : string) (e : exn) :
  subst t v r = Raise e ->
  e = AttributeError /\ Match_typed t = false.
Proof.
  intros H. split; [exact (subst_Raise t v r e H)|].
  destruct (Match_typed t) eqn:Hok; [|reflexivity].
  destruct (subst_spec true t Hok v r) as (t' & Hrun & _). congruence.
Qed.

Lemma subst_raises_only_AttributeError_witness :
  AttributeError = AttributeError
  /\ Match_typed (App (Var "f") (Match [mkMatchSubject (Var "n") None None] [] None)) = false.
Proof.
  apply (subst_raises_only_AttributeError _ "n" "k"). reflexivity.
Defined.

(** X8. Substituting for a variable that is not free in the term changes
    nothing (on a term whose matches have return clauses, where [subst]
    returns). *)
Theorem subst_of_absent_variable_is_identity (t : Term) (v r : string) :
  Match_typed t = true ->
  v ∉ free_vars t ->
  subst t v r = Ok t.
Proof.
  intros Hok Hv. destruct (subst_spec true t Hok v r) as (t' & Hrun & _ & Hfv & _).
  rewrite Hrun, (Hfv Hv). reflexivity.
Qed.

Lemma subst_of_absent_variable_is_identity_witness :
  subst (Fun "x" (Var "T") (App (Var "f") (Var "x"))) "x" "y"
  = Ok (Fun "x" (Var "T") (App (Var "f") (Var "x"))).
Proof.
  apply subst_of_absent_variable_is_identity; [reflexivity|].
  vm_compute. set_solver.
Defined.

(** X9. Replacing a variable by itself changes nothing. *)
Theorem subst_by_itself_is_identity (t : Term) (v : string) :
  Match_typed t = true ->
  subst t v v = Ok t.
Proof.
  intros Hok. destruct (subst_spec true t Hok v v) as (t' & Hrun & _ & _ & Hid).
  rewrite Hrun, (Hid eq_refl). reflexivity.
Qed.

Lemma subst_by_itself_is_identity_witness :
  subst (Let "x" (Var "T") (Var "x") (App (Var "x") (Var "y"))) "x" "x"
  = Ok (Let "x" (Var "T") (Var "x") (App (Var "x") (Var "y"))).
Proof.
  apply subst_by_itself_is_identity. reflexivity.
Defined.

(** ** [alpha_equiv] returns, and is reflexive away from [match] *)

Lemma object_eq_total (a b : option Term) : exists r, object_eq a b = Ok r.
Proof.
  destruct a as [t|], b as [u|]; unfold object_eq, opt_Term_eq; eauto.
  apply Term_eqb_total.
Qed.

Lemma object_eq_refl (a : option Term) : object_eq a a = Ok true.
Proof.
  destruct a as [t|]; unfold object_eq, opt_Term_eq; [apply Term_eqb_refl|reflexivity].
Qed.

Lemma subst_value_total (allow : bool) (t : Term) (v r : string) :
  Match_ok allow t = true -> exists o, subst_value t v r = Ok o.
Proof.
  intros Hok. destruct (subst_spec allow t Hok v r) as (t' & Hrun & _).
  unfold subst_value. rewrite Hrun. cbn [mbind exc_bind]. eauto.
Qed.

Lemma rename_bound_vars_total (allow : bool) (l l' : list string) :
  forall i t u,
    Match_ok allow t = true -> Match_ok allow u = true ->
    exists p, rename_bound_vars i l l' (Some t) (Some u) = Ok p.
Proof.
  revert l'. induction l as [|x l IH]; intros l' i t u Ht Hu; cbn [rename_bound_vars];
    [eauto|].
  destruct l' as [|y l']; [eauto|].
  destruct (subst_spec allow t Ht x (SynthesizedVar i)) as (t' & Hrun1 & Ht' & _).
  destruct (subst_spec allow u Hu y (SynthesizedVar i)) as (u' & Hrun2 & Hu' & _).
  cbn [subst_object]. rewrite Hrun1. cbn [mbind exc_bind].
  rewrite Hrun2. cbn [mbind exc_bind]. apply IH; assumption.
Qed.

Lemma rename_bound_vars_same (allow : bool) (l : list string) :
  forall i t,
    Match_ok allow t = true ->
    exists t', rename_bound_vars i l l (Some t) (Some t) = Ok (Some t', Some t').
Proof.
  induction l as [|x l IH]; intros i t Ht; cbn [rename_bound_vars]; [eauto|].
  destruct (subst_spec allow t Ht x (SynthesizedVar i)) as (t' & Hrun1 & Ht' & _).
  cbn [subst_object]. rewrite Hrun1. cbn [mbind exc_bind]. apply IH; assumption.
Qed.

Lemma TermAbstraction_alpha_equiv_total (fa fb : Term -> exc bool)
    (x : string) (b : Term) (y : string) (ty' b' : Term) :
  (exists r, fa ty' = Ok r) -> (exists r, fb b' = Ok r) ->
  Match_typed b = true -> Match_typed b' = true ->
  exists r, TermAbstraction_alpha_equiv fa fb x b y ty' b' = Ok r.
Proof.
  intros [ra Ha] Hb Hok Hok'. unfold TermAbstraction_alpha_equiv.
  rewrite Ha. cbn [mbind exc_bind].
  destruct ra; cbn [negb]; [|eauto].
  destruct (Var_eqb x y); [exact Hb|].
  destruct (subst_value_total true b x (SynthesizedVar 0) Hok) as [o ->].
  destruct (subst_value_total true b' y (SynthesizedVar 0) Hok') as [o' ->].
  cbn [mbind exc_bind]. apply object_eq_total.
Qed.

Lemma CaseClause_alpha_equiv_total (c c' : CaseClause) :
  Match_typed (CaseClause_get_body c) = true ->
  Match_typed (CaseClause_get_body c') = true ->
  exists r, CaseClause_alpha_equiv c c' = Ok r.
Proof.
  destruct c as [pts b], c' as [pts' b']. cbn [CaseClause_get_body]. intros Hb Hb'.
  unfold CaseClause_alpha_equiv.
  destruct (negb (Nat.eqb (length pts) (length pts'))); [eauto|].
  destruct (negb (Nat.eqb _ _)); [eauto|].
  destruct (rename_bound_vars_total true
              (sorted_bound_vars Pattern_get_bound_vars pts)
              (sorted_bound_vars Pattern_get_bound_vars pts') 0 b b' Hb Hb') as [p ->].
  cbn [mbind exc_bind]. apply object_eq_total.
Qed.

Lemma all_alpha_equiv_to_total (c1 : CaseClause) (others : list CaseClause) :
  Match_typed (CaseClause_get_body c1) = true ->
  (forall c, In c others -> Match_typed (CaseClause_get_body c) = true) ->
  exists r, all_alpha_equiv_to c1 others = Ok r.
Proof.
  intros H1. induction others as [|c2 others IH]; intros Hall; cbn [all_alpha_equiv_to];
    [eauto|].
  apply and_then_total.
  - apply CaseClause_alpha_equiv_total; [exact H1|]. apply Hall. left. reflexivity.
  - apply IH. intros c Hc. apply Hall. right. exact Hc.
Qed.

Lemma all_pairs_alpha_equiv_total (cs others : list CaseClause) :
  (forall c, In c cs -> Match_typed (CaseClause_get_body c) = true) ->
  (forall c, In c others -> Match_typed (CaseClause_get_body c) = true) ->
  exists r, all_pairs_alpha_equiv cs others = Ok r.
Proof.
  intros Hcs Hothers. induction cs as [|c1 cs IH]; cbn [all_pairs_alpha_equiv]; [eauto|].
  apply and_then_total.
  - apply all_alpha_equiv_to_total; [|exact Hothers]. apply Hcs. left. reflexivity.
  - apply IH. intros c Hc. apply Hcs. right. exact Hc.
Qed.

Lemma Match_typed_cases (cs : list CaseClause) :
  forallb (fun c => match c with mkCaseClause _ b => Match_ok true b end) cs = true ->
  forall c, In c cs -> Match_typed (CaseClause_get_body c) = true.
Proof.
  intros H c Hc. rewrite forallb_forall in H. specialize (H c Hc).
  destruct c as [pts b]. exact H.
Qed.

Lemma alpha_equiv_total (t : Term) :
  Match_typed t = true ->
  forall u, Match_typed u = true -> exists r, alpha_equiv t u = Ok r.
Proof.
  unfold Match_typed.
  induction t as [t IH] using Term_height_ind. intros Hok u Hu.
  destruct t as [x|s ann|x ty b|x ty b|x ty d b|g r0 th el al|f ps r0 b st
                |ss cs r0|c1 c2|c1 c2]; cbn [alpha_equiv].
  - apply Term_eqb_total.
  - apply Term_eqb_total.
  - destruct u as [ | |y ty' b'| | | | | | | ]; eauto.
    cbn [Match_ok] in Hok, Hu.
    apply andb_true_iff in Hok as [Hty Hb]. apply andb_true_iff in Hu as [Hty' Hb'].
    apply TermAbstraction_alpha_equiv_total; try assumption.
    + apply IH; [cbn [height]; lia|assumption|assumption].
    + apply IH; [cbn [height]; lia|assumption|assumption].
  - destruct u as [ | | |y ty' b'| | | | | | ]; eauto.
    cbn [Match_ok] in Hok, Hu.
    apply andb_true_iff in Hok as [Hty Hb]. apply andb_true_iff in Hu as [Hty' Hb'].
    apply TermAbstraction_alpha_equiv_total; try assumption.
    + apply IH; [cbn [height]; lia|assumption|assumption].
    + apply IH; [cbn [height]; lia|assumption|assumption].
  - destruct u as [ | | | |y ty' d' b'| | | | | ]; eauto.
    cbn [Match_ok] in Hok, Hu.
    apply andb_true_iff in Hok as [Hok Hb]. apply andb_true_iff in Hok as [Hty Hd].
    apply andb_true_iff in Hu as [Hu Hb']. apply andb_true_iff in Hu as [Hty' Hd'].
    apply and_then_total.
    + apply TermAbstraction_alpha_equiv_total; try assumption.
      * apply IH; [cbn [height]; lia|assumption|assumption].
      * apply IH; [cbn [height]; lia|assumption|assumption].
    + apply IH; [cbn [height]; lia|assumption|assumption].
  - destruct u as [ | | | | |g' r0' th' el' al'| | | | ]; eauto.
    cbn [Match_ok] in Hok, Hu.
    apply andb_true_iff in Hok as [Hok Hel]. apply andb_true_iff in Hok as [Hok Hth].
    apply andb_true_iff in Hok as [Hg Hr0].
    apply andb_true_iff in Hu as [Hu Hel']. apply andb_true_iff in Hu as [Hu Hth'].
    apply andb_true_iff in Hu as [Hg' Hr0'].
    assert (Hrest : exists r, and_then (alpha_equiv g g')
                                (and_then (alpha_equiv th th') (alpha_equiv el el')) = Ok r).
    { apply and_then_total; [|apply and_then_total];
        (apply IH; [cbn [height]; lia|assumption|assumption]). }
    destruct al as [a|], al' as [a'|]; eauto.
    destruct (subst_value_total true r0 a (SynthesizedVar 0) Hr0) as [o ->].
    destruct (subst_value_total true r0' a' (SynthesizedVar 0) Hr0') as [o' ->].
    cbn [mbind exc_bind]. destruct (object_eq_total o o') as [same ->].
    cbn [mbind exc_bind]. destruct same; cbn [negb]; eauto.
  - destruct u as [ | | | | | |f' ps' r0' b' st'| | | ]; eauto.
    cbn [Match_ok] in Hok, Hu.
    apply andb_true_iff in Hok as [Hok Hb]. apply andb_true_iff in Hok as [Hps Hr0].
    apply andb_true_iff in Hu as [Hu Hb']. apply andb_true_iff in Hu as [Hps' Hr0'].
    destruct (negb (Nat.eqb (length ps) (length ps'))); [eauto|].
    destruct (IH r0) with (u := r0') as [same ->];
      [cbn [height]; lia|assumption|assumption|].
    cbn [mbind exc_bind]. destruct same; cbn [negb]; [|eauto].
    cbv zeta. destruct (negb (Nat.eqb _ _)); [eauto|].
    match goal with
    | |- exists r, rename_bound_vars 0 ?l ?l' _ _ ≫= _ = Ok r =>
        destruct (rename_bound_vars_total true l l' 0 b b' Hb Hb') as [p ->]
    end.
    cbn [mbind exc_bind]. apply object_eq_total.
  - destruct u as [ | | | | | | |ss' cs' r0'| | ]; eauto.
    cbn [Match_ok] in Hok, Hu.
    apply andb_true_iff in Hok as [Hok Hr0]. apply andb_true_iff in Hok as [Hok Hcs].
    apply andb_true_iff in Hu as [Hu Hr0']. apply andb_true_iff in Hu as [Hu Hcs'].
    destruct r0 as [ty|]; [|discriminate]. destruct r0' as [ty'|]; [|discriminate].
    destruct (negb (Nat.eqb (length cs) (length cs'))); [eauto|].
    destruct (negb (Nat.eqb (length ss) (length ss'))); [eauto|].
    destruct (all_pairs_alpha_equiv_total cs cs'
                (Match_typed_cases cs Hcs) (Match_typed_cases cs' Hcs')) as [all_cases ->].
    cbn [mbind exc_bind]. destruct all_cases; cbn [negb]; [|eauto].
    cbv zeta. destruct (negb (Nat.eqb _ _)); [eauto|].
    match goal with
    | |- exists r, rename_bound_vars 0 ?l ?l' _ _ ≫= _ = Ok r =>
        destruct (rename_bound_vars_total true l l' 0 ty ty' Hr0 Hr0') as [p ->]
    end.
    cbn [mbind exc_bind]. apply object_eq_total.
  - destruct u as [ | | | | | | | |c1' c2'| ]; eauto.
    cbn [Match_ok] in Hok, Hu.
    apply andb_true_iff in Hok as [H1 H2]. apply andb_true_iff in Hu as [H1' H2'].
    apply and_then_total; (apply IH; [cbn [height]; lia|assumption|assumption]).
  - destruct u as [ | | | | | | | | |c1' c2']; eauto.
    cbn [Match_ok] in Hok, Hu.
    apply andb_true_iff in Hok as [H1 H2]. apply andb_true_iff in Hu as [H1' H2'].
    apply and_then_total; (apply IH; [cbn [height]; lia|assumption|assumption]).
Qed.

Lemma alpha_equiv_refl (t : Term) :
  Match_free t = true -> alpha_equiv t t = Ok true.
Proof.
  unfold Match_free.
  induction t as [t IH] using Term_height_ind. intros Hok.
  destruct t as [x|s ann|x ty b|x ty b|x ty d b|g r0 th el al|f ps r0 b st
                |ss cs r0|c1 c2|c1 c2]; cbn [alpha_equiv]; cbn [Match_ok] in Hok.
  - apply Term_eqb_refl.
  - apply Term_eqb_refl.
  - apply andb_true_iff in Hok as [Hty Hb]. unfold TermAbstraction_alpha_equiv.
    rewrite (IH ty) by (cbn [height]; lia || assumption). cbn [mbind exc_bind negb].
    unfold Var_eqb. rewrite String.eqb_refl. apply IH; [cbn [height]; lia|assumption].
  - apply andb_true_iff in Hok as [Hty Hb]. unfold TermAbstraction_alpha_equiv.
    rewrite (IH ty) by (cbn [height]; lia || assumption). cbn [mbind exc_bind negb].
    unfold Var_eqb. rewrite String.eqb_refl. apply IH; [cbn [height]; lia|assumption].
  - apply andb_true_iff in Hok as [Hok Hb]. apply andb_true_iff in Hok as [Hty Hd].
    apply and_then_true. split; [|apply IH; [cbn [height]; lia|assumption]].
    unfold TermAbstraction_alpha_equiv.
    rewrite (IH ty) by (cbn [height]; lia || assumption). cbn [mbind exc_bind negb].
    unfold Var_eqb. rewrite String.eqb_refl. apply IH; [cbn [height]; lia|assumption].
  - apply andb_true_iff in Hok as [Hok Hel]. apply andb_true_iff in Hok as [Hok Hth].
    apply andb_true_iff in Hok as [Hg Hr0].
    assert (Hrest : and_then (alpha_equiv g g)
                      (and_then (alpha_equiv th th) (alpha_equiv el el)) = Ok true).
    { apply and_then_true. split; [|apply and_then_true; split];
        (apply IH; [cbn [height]; lia|assumption]). }
    destruct al as [a|]; [|exact Hrest].
    destruct (subst_value_total false r0 a (SynthesizedVar 0) Hr0) as [o ->].
    cbn [mbind exc_bind]. rewrite object_eq_refl. cbn [mbind exc_bind negb]. exact Hrest.
  - apply andb_true_iff in Hok as [Hok Hb]. apply andb_true_iff in Hok as [Hps Hr0].
    rewrite Nat.eqb_refl. cbn [negb].
    rewrite (IH r0) by (cbn [height]; lia || assumption). cbn [mbind exc_bind negb].
    cbv zeta. rewrite Nat.eqb_refl. cbn [negb].
    match goal with
    | |- rename_bound_vars 0 ?l ?l _ _ ≫= _ = _ =>
        destruct (rename_bound_vars_same false l 0 b Hb) as [b' ->]
    end.
    cbn [mbind exc_bind fst snd]. apply object_eq_refl.
  - discriminate.
  - apply andb_true_iff in Hok as [H1 H2].
    apply and_then_true. split; (apply IH; [cbn [height]; lia|assumption]).
  - apply andb_true_iff in Hok as [H1 H2].
    apply and_then_true. split; (apply IH; [cbn [height]; lia|assumption]).
Qed.

(** X11. A term without [match] is alpha-equivalent to itself (to a copy of
    itself: the two operands are distinct objects). *)
Theorem alpha_equiv_reflexive_without_match (t : Term) :
  Match_free t = true -> alpha_equiv t t = Ok true.
Proof. apply alpha_equiv_refl. Qed.

Lemma alpha_equiv_reflexive_without_match_witness :
  alpha_equiv (Fix "f" [mkBinder ["n"; "m"] (Var "nat")] (Var "nat")
                 (App (Var "f") (Var "n")) None)
              (Fix "f" [mkBinder ["n"; "m"] (Var "nat")] (Var "nat")
                 (App (Var "f") (Var "n")) None)
  = Ok true.
Proof.
  apply alpha_equiv_reflexive_without_match. reflexivity.
Defined.

(** ** Terms of different classes *)

Lemma Term_eqb_same_class (t u : Term) :
  Term_eqb t u = Ok true -> same_class t u = true.
Proof.
  unfold Term_eqb. cbn [Term_eqb_n]. destruct t, u; cbn [Term_eq_step same_class];
    solve [reflexivity | discriminate].
Qed.

(** X12. Two terms that [alpha_equiv] or [==] accepts are instances of the
    same class: a variable is never equivalent to an application, a
    product never to a function, and so on. *)
Theorem equivalent_terms_have_the_same_class (t u : Term) :
  alpha_equiv t u = Ok true \/ Term_eqb t u = Ok true ->
  same_class t u = true.
Proof.
  intros [H|H]; [|apply Term_eqb_same_class; exact H].
  destruct t; cbn [alpha_equiv] in H;
    try (apply Term_eqb_same_class; exact H);
    destruct u; solve [reflexivity | discriminate].
Qed.

Lemma equivalent_terms_have_the_same_class_witness :
  same_class (Product "x" (Var "T") (Var "x")) (Product "y" (Var "T") (Var "y")) = true.
Proof.
  apply equivalent_terms_have_the_same_class. left. reflexivity.
Defined.

(** ** [Product.build] and [is_prod_body] *)

Lemma Product_build_cons (ns : list string) (ty : Term) (ps : list Binder) (body : Term) :
  Product_build (mkBinder ns ty :: ps) body
  = foldr (fun name product => Product name ty product) (Product_build ps body) ns.
Proof. reflexivity. Qed.

Lemma prod_depth_layers (ns : list string) (ty t : Term) :
  prod_depth (foldr (fun name product => Product name ty product) t ns)
  = length ns + prod_depth t.
Proof. induction ns as [|n ns IH]; simpl; [reflexivity|rewrite IH; reflexivity]. Qed.

Lemma count_names_cons (ns : list string) (ty : Term) (ps : list Binder) :
  count_names (mkBinder ns ty :: ps) = length ns + count_names ps.
Proof. unfold count_names. simpl. rewrite length_app. reflexivity. Qed.

Lemma prod_depth_Product_build (ps : list Binder) (body : Term) :
  prod_depth (Product_build ps body) = count_names ps + prod_depth body.
Proof.
  induction ps as [|[ns ty] ps IH]; [reflexivity|].
  rewrite Product_build_cons, prod_depth_layers, IH, count_names_cons. lia.
Qed.

Lemma unwraps_to_layers (ns : list string) (ty t u : Term) :
  unwraps_to t u \/ (Term_eqb t u = Ok true /\ ns <> []) ->
  unwraps_to (foldr (fun name product => Product name ty product) t ns) u.
Proof.
  induction ns as [|n ns IH]; simpl.
  - intros [H|[_ H]]; [exact H|congruence].
  - intros [H|[H _]].
    + apply unwraps_deeper. apply IH. left. exact H.
    + destruct ns as [|n' ns].
      * simpl. apply unwraps_here. exact H.
      * apply unwraps_deeper. apply IH. right. split; [exact H|discriminate].
Qed.

Lemma unwraps_to_Product_build (ps : list Binder) (body : Term) :
  0 < count_names ps -> unwraps_to (Product_build ps body) body.
Proof.
  induction ps as [|[ns ty] ps IH]; [unfold count_names; simpl; lia|].
  rewrite Product_build_cons, count_names_cons. intros Hn.
  apply unwraps_to_layers.
  destruct (count_names ps) as [|k] eqn:Hk.
  - right. split; [|destruct ns; [simpl in Hn; lia|discriminate]].
    assert (Hps : Product_build ps body = body).
    { clear IH Hn. induction ps as [|[ns' ty'] ps IH]; [reflexivity|].
      rewrite count_names_cons in Hk. destruct ns'; [|simpl in Hk; lia].
      rewrite Product_build_cons. simpl. apply IH. simpl in Hk. exact Hk. }
    rewrite Hps. apply Term_eqb_refl.
  - left. apply IH. lia.
Qed.

Lemma is_prod_body_asym (p t : Term) :
  is_prod_body p t = Ok true -> is_prod_body t p = Ok false.
Proof.
  intros H. apply is_prod_body_unwraps, unwraps_to_prod_depth in H.
  destruct (is_prod_body_total t p) as [[|] Hr]; [|exact Hr].
  apply is_prod_body_unwraps, unwraps_to_prod_depth in Hr. lia.
Qed.

(** X13. The product the parser builds for [forall params, body] has one
    layer per declared name, and [is_prod_body] finds [body] under it
    exactly when a name is declared; with no name the product is [body]
    itself and the answer is [False]. *)
Theorem is_prod_body_of_built_product (params : list Binder) (body : Term) :
  prod_depth (Product_build params body) = count_names params + prod_depth body
  /\ is_prod_body (Product_build params body) body
     = Ok (negb (Nat.eqb (count_names params) 0)).
Proof.
  split; [apply prod_depth_Product_build|].
  destruct (count_names params) as [|k] eqn:Hk; cbn [Nat.eqb negb].
  - destruct (is_prod_body_total (Product_build params body) body) as [[|] Hr]; [|exact Hr].
    apply is_prod_body_unwraps, unwraps_to_prod_depth in Hr.
    rewrite prod_depth_Product_build, Hk in Hr. lia.
  - apply is_prod_body_unwraps, unwraps_to_Product_build. lia.
Qed.

(** X14. [is_prod_body] is a strict relation: when [t] is found under the
    products of [p], [p] is not found under those of [t], and the two terms
    are not equal ([==]); so no goal makes itself redundant. *)
Theorem is_prod_body_is_strict (p t : Term) :
  is_prod_body p t = Ok true ->
  is_prod_body t p = Ok false /\ Term_eqb p t = Ok false.
Proof.
  intros H. split; [apply is_prod_body_asym; exact H|].
  apply is_prod_body_unwraps, unwraps_to_prod_depth in H.
  destruct (Term_eqb_total p t) as [[|] Hr]; [|exact Hr].
  apply Term_eqb_prod_depth in Hr. lia.
Qed.

Lemma is_prod_body_is_strict_witness :
  is_prod_body (Var "y") (Product "x" (Var "T") (Var "y")) = Ok false
  /\ Term_eqb (Product "x" (Var "T") (Var "y")) (Var "y") = Ok false.
Proof.
  apply is_prod_body_is_strict. reflexivity.
Defined.

(** ** The goal generaliser ([util.py]) *)

Lemma str_index_outcome (c : ascii) (s : string) :
  (exists i, str_index c s = Ok i /\ In c (list_ascii_of_string s))
  \/ (str_index c s = Raise ValueError /\ ~ In c (list_ascii_of_string s)).
Proof.
  induction s as [|a s IH]; cbn [str_index list_ascii_of_string].
  - right. split; [reflexivity|intros []].
  - destruct (Ascii.eqb a c) eqn:Hac.
    + apply Ascii.eqb_eq in Hac. left. exists 0. split; [reflexivity|left; exact Hac].
    + apply Ascii.eqb_neq in Hac. destruct IH as [(i & -> & Hin)|[-> Hnin]].
      * left. exists (S i). split; [reflexivity|right; exact Hin].
      * right. split; [reflexivity|]. intros [H|H]; [exact (Hac H)|exact (Hnin H)].
Qed.

Section generalize_facts.
Variable parse : string -> Term.
Variable set_iter : gset string -> list string.
Hypothesis set_iter_elements : forall X, set_iter X ≡ₚ elements X.

Lemma set_iter_In (X : gset string) (x : string) : In x (set_iter X) <-> x ∈ X.
Proof.
  rewrite <- list_elem_of_In, (set_iter_elements X). apply elem_of_elements.
Qed.

Lemma set_iter_empty : set_iter ∅ = [].
Proof.
  apply Permutation_nil_r. rewrite (set_iter_elements ∅), elements_empty. reflexivity.
Qed.

Lemma add_definitions_outcome (ctx : gmap string (string * gset string)) (d : string) :
  (exists ctx', add_definitions parse ctx d = Ok ctx'
                /\ In ":"%char (list_ascii_of_string d))
  \/ (add_definitions parse ctx d = Raise ValueError
      /\ ~ In ":"%char (list_ascii_of_string d)).
Proof.
  unfold add_definitions.
  destruct (str_index_outcome ":" d) as [(i & -> & Hin)|[-> Hnin]]; cbn [mbind exc_bind].
  - left. eauto.
  - right. auto.
Qed.

Lemma read_local_context_outcome (lines : list string) :
  forall ctx,
    (exists ctx', read_local_context parse lines ctx = Ok ctx'
                  /\ forall d, In d lines -> In ":"%char (list_ascii_of_string d))
    \/ (read_local_context parse lines ctx = Raise ValueError
        /\ exists d, In d lines /\ ~ In ":"%char (list_ascii_of_string d)).
Proof.
  induction lines as [|d lines IH]; intros ctx; cbn [read_local_context].
  - left. exists ctx. split; [reflexivity|intros d []].
  - destruct (add_definitions_outcome ctx d) as [(ctx1 & -> & Hd)|[-> Hd]];
      cbn [mbind exc_bind].
    + destruct (IH ctx1) as [(ctx' & -> & Hall)|[-> (d' & Hin & Hd')]].
      * left. exists ctx'. split; [reflexivity|].
        intros d' [<-|Hin]; [exact Hd|apply Hall; exact Hin].
      * right. split; [reflexivity|]. exists d'. split; [right; exact Hin|exact Hd'].
    + right. split; [reflexivity|]. exists d. split; [left; reflexivity|exact Hd].
Qed.

(** The DAG [make_dag] builds: made by [add_node] and [add_edge] calls, all
    its nodes are keys of the local context. *)
Lemma build_snoc (calls : list dag_call) (c : dag_call) :
  build (calls ++ [c]) = run_call (build calls) c.
Proof. unfold build. rewrite foldl_app. reflexivity. Qed.

Lemma make_dag_edges (ctx : gmap string (string * gset string)) (s : string)
    (ds : list string) :
  forall dag,
    (exists calls, dag = build calls) ->
    is_node (adj dag) s ->
    let dag' := foldl (fun dag d =>
                         if bool_decide (is_Some (ctx !! d))
                         then add_edge s d dag else dag) dag ds in
    (exists calls, dag' = build calls)
    /\ (forall n, is_node (adj dag') n
                  <-> is_node (adj dag) n \/ (In n ds /\ is_Some (ctx !! n)))
    /\ (forall x y, edge (adj dag') x y
                    <-> edge (adj dag) x y \/ (x = s /\ In y ds /\ is_Some (ctx !! y))).
Proof.
  induction ds as [|d ds IH]; intros dag Hb Hs; cbn [foldl].
  - split; [exact Hb|]. split; [intros n|intros x y]; cbn [In]; tauto.
  - destruct (bool_decide (is_Some (ctx !! d))) eqn:Hd.
    + apply bool_decide_eq_true in Hd.
      destruct (IH (add_edge s d dag)) as (Hb' & Hn' & He').
      * destruct Hb as [calls ->]. exists (calls ++ [call_add_edge s d]).
        rewrite build_snoc. reflexivity.
      * apply is_node_add_edge. auto.
      * split; [exact Hb'|]. split.
        -- intros n. rewrite Hn', is_node_add_edge. cbn [In]. split.
           ++ intros [[->|[->|H]]|[H1 H2]]; auto.
           ++ intros [H|[[<-|H1] H2]]; auto.
        -- intros x y. rewrite He', edge_add_edge. cbn [In]. split.
           ++ intros [[H|[-> ->]]|(-> & H1 & H2)]; auto.
           ++ intros [H|(-> & [<-|H1] & H2)]; auto.
    + apply bool_decide_eq_false in Hd.
      destruct (IH dag Hb Hs) as (Hb' & Hn' & He').
      split; [exact Hb'|]. split.
      * intros n. rewrite Hn'. cbn [In]. split.
        -- intros [H|[H1 H2]]; auto.
        -- intros [H|[[<-|H1] H2]]; auto. contradiction.
      * intros x y. rewrite He'. cbn [In]. split.
        -- intros [H|(-> & H1 & H2)]; auto.
        -- intros [H|(-> & [<-|H1] & H2)]; auto. contradiction.
Qed.

Lemma make_dag_nodes (ctx : gmap string (string * gset string)) (l : list string) :
  (forall s, In s l -> is_Some (ctx !! s)) ->
  forall dag,
    (exists calls, dag = build calls) ->
    exists dag',
      foldl (fun (acc : exc VarDAG) (s : string) =>
               acc ≫= (fun dag =>
               match ctx !! s with
               | None => Raise KeyError
               | Some (_, fvs) =>
                   Ok (foldl (fun dag d =>
                                if bool_decide (is_Some (ctx !! d))
                                then add_edge s d dag else dag)
                             (add_node s dag) (set_iter fvs))
               end)) (Ok dag) l = Ok dag'
      /\ (exists calls, dag' = build calls)
      /\ (forall n, is_node (adj dag') n
                    <-> is_node (adj dag) n \/ In n l
                        \/ exists s, In s l /\ direct_dependency ctx s n)
      /\ (forall x y, edge (adj dag') x y
                      <-> edge (adj dag) x y \/ (In x l /\ direct_dependency ctx x y)).
Proof.
  induction l as [|s l IH]; intros Hl dag Hb; cbn [foldl].
  - exists dag. split; [reflexivity|]. split; [exact Hb|].
    split; [intros n|intros x y]; cbn [In]; split; auto.
    + intros [H|[[]|(s & [] & _)]]. exact H.
    + intros [H|[[] _]]. exact H.
  - cbn [mbind exc_bind].
    destruct (Hl s (or_introl eq_refl)) as [[body fvs] Hs]. rewrite Hs.
    destruct (make_dag_edges ctx s (set_iter fvs) (add_node s dag)) as (Hb1 & Hn1 & He1).
    { destruct Hb as [calls ->]. exists (calls ++ [call_add_node s]).
      rewrite build_snoc. reflexivity. }
    { apply is_node_add_node. auto. }
    cbv zeta in Hb1, Hn1, He1.
    set (dag1 := foldl _ (add_node s dag) (set_iter fvs)) in *.
    destruct (IH (fun s' Hs' => Hl s' (or_intror Hs')) dag1 Hb1)
      as (dag' & Hrun & Hb' & Hn' & He').
    exists dag'. split; [exact Hrun|]. split; [exact Hb'|].
    assert (Hdep : forall y, In y (set_iter fvs) /\ is_Some (ctx !! y)
                             <-> direct_dependency ctx s y).
    { intros y. unfold direct_dependency. rewrite set_iter_In. split.
      - intros [H1 H2]. exists body, fvs. auto.
      - intros (body' & fvs' & Hs' & H1 & H2). rewrite Hs in Hs'.
        injection Hs' as <- <-. auto. }
    split.
    + intros n. rewrite Hn', Hn1, is_node_add_node, Hdep. cbn [In]. split.
      * intros [[[->|H]|H]|[H|(s' & H1 & H2)]]; eauto 6.
      * intros [H|[[<-|H]|(s' & [<-|H1] & H2)]]; eauto 6.
    + intros x y. rewrite He', He1, edge_add_node. cbn [In]. split.
      * intros [[H|[-> H]]|[H1 H2]]; [auto| |auto].
        right. split; [auto|]. apply Hdep. exact H.
      * intros [H|[[<-|H1] H2]]; [auto| |auto].
        left. right. split; [reflexivity|]. apply Hdep. exact H2.
Qed.

Lemma make_dag_graph (lfv : gset string) (ctx : gmap string (string * gset string)) :
  (forall s, s ∈ lfv -> is_Some (ctx !! s)) ->
  exists calls,
    make_dag set_iter lfv ctx = Ok (build calls)
    /\ (forall n, is_node (adj (build calls)) n
                  <-> n ∈ lfv \/ exists s, s ∈ lfv /\ direct_dependency ctx s n)
    /\ (forall s d, edge (adj (build calls)) s d
                    <-> s ∈ lfv /\ direct_dependency ctx s d).
Proof.
  intros Hlfv.
  destruct (make_dag_nodes ctx (set_iter lfv)) with (dag := VarDAG_new)
    as (dag & Hrun & [calls Hcalls] & Hn & He).
  { intros s Hs. apply Hlfv, set_iter_In. exact Hs. }
  { exists []. reflexivity. }
  subst dag. exists calls. split; [exact Hrun|]. split.
  - intros n. rewrite Hn. split.
    + intros [[x Hx]|[H|(s & H1 & H2)]]; [discriminate| |].
      * left. apply set_iter_In. exact H.
      * right. exists s. split; [apply set_iter_In; exact H1|exact H2].
    + intros [H|(s & H1 & H2)].
      * right. left. apply set_iter_In. exact H.
      * right. right. exists s. split; [apply set_iter_In; exact H1|exact H2].
  - intros s d. rewrite He, set_iter_In. split.
    + intros [(ds & Hx & _)|H]; [discriminate|exact H].
    + intros H. right. exact H.
Qed.

Lemma wrap_foralls_Ok (ctx : gmap string (string * gset string)) (l : list string) :
  (forall fv, In fv l -> is_Some (ctx !! fv)) ->
  forall goal, exists s, foldl (wrap_forall ctx) (Ok goal) l = Ok s.
Proof.
  induction l as [|fv l IH]; intros Hl goal; cbn [foldl]; [eauto|].
  destruct (Hl fv (or_introl eq_refl)) as [[body fvs] Hfv].
  unfold wrap_forall at 2. cbn [mbind exc_bind]. rewrite Hfv.
  apply IH. intros fv' Hfv'. apply Hl. right. exact Hfv'.
Qed.

Lemma generalize_outcome (lines : list string) (goal : string) :
  (exists s, generalize parse set_iter lines goal = Ok s)
  \/ generalize parse set_iter lines goal = Raise ValueError.
Proof.
  unfold generalize.
  destruct (read_local_context_outcome lines ∅) as [(ctx & -> & _)|[-> _]];
    cbn [mbind exc_bind]; [|right; reflexivity].
  set (lfv := list_to_set _ : gset string).
  assert (Hdom : forall s, s ∈ lfv -> is_Some (ctx !! s)).
  { intros s Hs. unfold lfv in Hs.
    apply elem_of_list_to_set, list_elem_of_In, filter_In in Hs as [_ Hs].
    apply bool_decide_eq_true in Hs. exact Hs. }
  destruct (make_dag_graph lfv ctx Hdom) as (calls & -> & Hnodes & _).
  cbn [mbind exc_bind].
  destruct (get_topological_ordering_outcome calls)
    as [(vis & l & -> & _ & Hall) | ->]; cbn [mbind exc_bind]; [|right; reflexivity].
  left. cbn [snd]. apply wrap_foralls_Ok.
  intros fv Hfv. apply in_rev, Hall, Hnodes in Hfv as [Hfv|(s & _ & _ & _ & _ & _ & Hfv)];
    [apply Hdom; exact Hfv|exact Hfv].
Qed.

(** X16. A line of the local context without a colon makes [generalize]
    raise [ValueError], wherever the line stands and whatever the goal. *)
Theorem generalize_needs_a_colon_in_every_line (lines : list string) (goal d : string) :
  In d lines ->
  ~ In ":"%char (list_ascii_of_string d) ->
  generalize parse set_iter lines goal = Raise ValueError.
Proof.
  intros Hin Hd. unfold generalize.
  destruct (read_local_context_outcome lines ∅) as [(ctx & _ & Hall)|[-> _]].
  - destruct (Hd (Hall d Hin)).
  - reflexivity.
Qed.

(** X17. When the local context defines no free variable of the goal,
    [generalize] returns the goal as it is. *)
Theorem generalize_without_local_definitions (lines : list string) (goal : string)
    (ctx : gmap string (string * gset string)) :
  read_local_context parse lines ∅ = Ok ctx ->
  (forall fv, fv ∈ free_vars (parse goal) -> ctx !! fv = None) ->
  generalize parse set_iter lines goal = Ok goal.
Proof.
  intros Hctx Hfree. unfold generalize. rewrite Hctx. cbn [mbind exc_bind].
  assert (Hnone : forall l, (forall fv, In fv l -> fv ∈ free_vars (parse goal)) ->
            List.filter (fun fv => bool_decide (is_Some (ctx !! fv))) l = []).
  { induction l as [|fv l IH]; intros Hl; cbn [List.filter]; [reflexivity|].
    rewrite (Hfree fv) by (apply Hl; left; reflexivity).
    rewrite bool_decide_eq_false_2 by (intros [x Hx]; discriminate).
    apply IH. intros fv' Hfv'. apply Hl. right. exact Hfv'. }
  rewrite Hnone by (intros fv Hfv; apply set_iter_In; exact Hfv).
  cbn [list_to_set]. unfold make_dag. rewrite set_iter_empty. reflexivity.
Qed.
Lemma before_rev (x y : string) (l : list string) :
  before x y l -> before y x (rev l).
Proof.
  intros (l1 & l2 & l3 & ->). exists (rev l3), (rev l2), (rev l1).
  rewrite rev_app_distr. cbn [rev]. rewrite rev_app_distr. cbn [rev].
  rewrite <- !app_assoc. reflexivity.
Qed.

(** What [generalize] wraps the goal in: [order] lists the variables in the
    order of the wrapping loop, so an earlier one is quantified inside a
    later one. *)
Lemma generalize_order (lines : list string) (goal s : string)
    (ctx : gmap string (string * gset string)) :
  read_local_context parse lines ∅ = Ok ctx ->
  generalize parse set_iter lines goal = Ok s ->
  exists order,
    foldl (wrap_forall ctx) (Ok goal) order = Ok s
    /\ List.NoDup order
    /\ (forall n, In n order
                  <-> (n ∈ free_vars (parse goal) /\ is_Some (ctx !! n))
                      \/ exists x, (x ∈ free_vars (parse goal) /\ is_Some (ctx !! x))
                                   /\ direct_dependency ctx x n)
    /\ (forall x d, x ∈ free_vars (parse goal) -> direct_dependency ctx x d ->
                    before d x order).
Proof.
  intros Hctx. unfold generalize. rewrite Hctx. cbn [mbind exc_bind].
  set (lfv := list_to_set _ : gset string).
  assert (Hlfv : forall x, x ∈ lfv <-> x ∈ free_vars (parse goal) /\ is_Some (ctx !! x)).
  { intros x. unfold lfv.
    rewrite elem_of_list_to_set, list_elem_of_In, filter_In, set_iter_In,
      bool_decide_eq_true. reflexivity. }
  destruct (make_dag_graph lfv ctx) as (calls & -> & Hnodes & Hedges);
    [intros x Hx; apply Hlfv in Hx; tauto|].
  cbn [mbind exc_bind].
  destruct (get_topological_ordering_outcome calls)
    as [(vis & l & -> & Htopo & Hall) | ->]; cbn [mbind exc_bind snd]; [|discriminate].
  intros Hs. exists (rev l). split; [exact Hs|].
  split; [apply List.NoDup_rev, (topo_NoDup _ _ Htopo)|].
  split.
  - intros n. rewrite <- in_rev, Hall, Hnodes, Hlfv. split.
    + intros [H|(x & Hx & Hd)]; [auto|]. right. exists x. split; [apply Hlfv; exact Hx|exact Hd].
    + intros [H|(x & Hx & Hd)]; [auto|]. right. exists x. split; [apply Hlfv; exact Hx|exact Hd].
  - intros x d Hx Hd. apply before_rev. apply (topo_before _ _ _ _ Htopo).
    + apply Hall, Hnodes. left. apply Hlfv. split; [exact Hx|].
      destruct Hd as (body & fvs & Hs' & _). rewrite Hs'. eauto.
    + apply Hedges. split; [|exact Hd]. apply Hlfv. split; [exact Hx|].
      destruct Hd as (body & fvs & Hs' & _). rewrite Hs'. eauto.
Qed.

(** X18. What [generalize] quantifies: the result is the goal wrapped in one
    [forall] per variable of [order], and [order] holds, once each, the
    free variables of the goal that the local context defines and their
    direct dependencies, and nothing else (a dependency of a dependency is
    left out unless it is one of these). *)
Theorem generalize_binds_defined_variables_and_direct_dependencies
    (lines : list string) (goal s : string) (ctx : gmap string (string * gset string)) :
  read_local_context parse lines ∅ = Ok ctx ->
  generalize parse set_iter lines goal = Ok s ->
  exists order,
    foldl (wrap_forall ctx) (Ok goal) order = Ok s
    /\ List.NoDup order
    /\ (forall n, In n order
                  <-> (n ∈ free_vars (parse goal) /\ is_Some (ctx !! n))
                      \/ exists x, (x ∈ free_vars (parse goal) /\ is_Some (ctx !! x))
                                   /\ direct_dependency ctx x n).
Proof.
  intros Hctx Hs. destruct (generalize_order lines goal s ctx Hctx Hs)
    as (order & Hwrap & Hnd & Hmem & _).
  exists order. auto.
Qed.

(** X19. [generalize] wraps a dependency before its dependent: when the type
    of a free variable [x] of the goal mentions the locally defined [d], the
    quantifier of [d] is written first, hence inside the quantifier of [x],
    whose type is then outside the scope of [d]. *)
Theorem generalize_quantifies_dependencies_innermost
    (lines : list string) (goal s : string) (ctx : gmap string (string * gset string)) :
  read_local_context parse lines ∅ = Ok ctx ->
  generalize parse set_iter lines goal = Ok s ->
  exists order,
    foldl (wrap_forall ctx) (Ok goal) order = Ok s
    /\ (forall x d, x ∈ free_vars (parse goal) -> direct_dependency ctx x d ->
                    before d x order).
Proof.
  intros Hctx Hs. destruct (generalize_order lines goal s ctx Hctx Hs)
    as (order & Hwrap & _ & _ & Hord).
  exists order. auto.
Qed.
End generalize_facts.

Lemma generalize_needs_a_colon_in_every_line_witness :
  generalize example_parse elements ["x : nat"; "y nat"] "P x" = Raise ValueError.
Proof.
  apply (generalize_needs_a_colon_in_every_line example_parse elements _ _ "y nat").
  - right. left. reflexivity.
  - vm_compute. intros H. decompose [or] H; try discriminate; assumption.
Defined.

Lemma generalize_without_local_definitions_witness :
  generalize example_parse elements ["x : nat"] "P s" = Ok "P s".
Proof.
  apply (generalize_without_local_definitions example_parse elements
           (fun X => Permutation_refl _) _ _
           (<[ "x" := ("nat", free_vars (Var "nat")) ]> ∅)).
  - vm_compute. reflexivity.
  - intros fv Hfv. change (example_parse "P s") with (App (Var "P") (Var "s")) in Hfv.
    cbn [free_vars] in Hfv. apply elem_of_union in Hfv as [Hfv|Hfv];
      apply elem_of_singleton in Hfv; subst fv; reflexivity.
Defined.

Lemma generalize_binds_defined_variables_and_direct_dependencies_witness :
  exists order,
    foldl (wrap_forall (<[ "s" := ("T d", free_vars (App (Var "T") (Var "d"))) ]>
                          (<[ "d" := ("nat", free_vars (Var "nat")) ]> ∅)))
          (Ok "P s") order
    = Ok "forall (s : T d), (forall (d : nat), (P s))"
    /\ List.NoDup order.
Proof.
  destruct (generalize_binds_defined_variables_and_direct_dependencies
              example_parse elements (fun X => Permutation_refl _)
              ["d : nat"; "s : T d"] "P s"
              "forall (s : T d), (forall (d : nat), (P s))"
              (<[ "s" := ("T d", free_vars (App (Var "T") (Var "d"))) ]>
                 (<[ "d" := ("nat", free_vars (Var "nat")) ]> ∅)))
    as (order & Hwrap & Hnd & _).
  - vm_compute. reflexivity.
  - vm_compute. reflexivity.
  - exists order. split; [exact Hwrap|exact Hnd].
Defined.

Lemma generalize_quantifies_dependencies_innermost_witness :
  exists order,
    foldl (wrap_forall (<[ "s" := ("T d", free_vars (App (Var "T") (Var "d"))) ]>
                          (<[ "d" := ("nat", free_vars (Var "nat")) ]> ∅)))
          (Ok "P s") order
    = Ok "forall (s : T d), (forall (d : nat), (P s))"
    /\ before "d" "s" order.
Proof.
  destruct (generalize_quantifies_dependencies_innermost
              example_parse elements (fun X => Permutation_refl _)
              ["d : nat"; "s : T d"] "P s"
              "forall (s : T d), (forall (d : nat), (P s))"
              (<[ "s" := ("T d", free_vars (App (Var "T") (Var "d"))) ]>
                 (<[ "d" := ("nat", free_vars (Var "nat")) ]> ∅)))
    as (order & Hwrap & Hord).
  - vm_compute. reflexivity.
  - vm_compute. reflexivity.
  - exists order. split; [exact Hwrap|]. apply Hord.
    + change (example_parse "P s") with (App (Var "P") (Var "s")).
      cbn [free_vars]. apply elem_of_union. right. apply elem_of_singleton. reflexivity.
    + exists "T d", (free_vars (App (Var "T") (Var "d"))).
      split; [reflexivity|]. split.
      * cbn [free_vars]. apply elem_of_union. right. apply elem_of_singleton. reflexivity.
      * exists ("nat", free_vars (Var "nat")). reflexivity.
Defined.

(** *** Reading one line of the local context *)

Lemma str_index_app (c : ascii) (a b : string) :
  ~ In c (list_ascii_of_string a) ->
  str_index c (a +:+ String c b) = Ok (String.length a).
Proof.
  induction a as [|x a IH]; simpl;
    intros Hc.
  - rewrite Ascii.eqb_refl. reflexivity.
  - destruct (Ascii.eqb x c) eqn:Hx.
    + apply Ascii.eqb_eq in Hx. destruct Hc. left. exact Hx.
    + rewrite IH by (intros H; apply Hc; right; exact H). reflexivity.
Qed.

Lemma str_take_app (a b : string) : str_take (String.length a) (a +:+ b) = a.
Proof.
  induction a as [|x a IH]; simpl.
  - destruct b; reflexivity.
  - rewrite IH. reflexivity.
Qed.

Lemma str_drop_app (a b : string) (c : ascii) :
  str_drop (String.length a + 1) (a +:+ String c b) = b.
Proof.
  induction a as [|x a IH]; simpl.
  - destruct b; reflexivity.
  - exact IH.
Qed.

Lemma split_no_sep (c : ascii) (s : string) :
  ~ In c (list_ascii_of_string s) -> split c s = [s].
Proof.
  induction s as [|x s IH]; cbn [split list_ascii_of_string]; intros Hc; [reflexivity|].
  destruct (Ascii.eqb x c) eqn:Hx.
  - apply Ascii.eqb_eq in Hx. destruct Hc. left. exact Hx.
  - rewrite IH by (intros H; apply Hc; right; exact H). reflexivity.
Qed.

Lemma split_app (c : ascii) (a b : string) :
  ~ In c (list_ascii_of_string a) ->
  split c (a +:+ String c b) = a :: split c b.
Proof.
  induction a as [|x a IH]; simpl; intros Hc.
  - rewrite Ascii.eqb_refl. reflexivity.
  - destruct (Ascii.eqb x c) eqn:Hx.
    + apply Ascii.eqb_eq in Hx. destruct Hc. left. exact Hx.
    + rewrite IH by (intros H; apply Hc; right; exact H). reflexivity.
Qed.

Lemma split_concat (c : ascii) (n : string) (ns : list string) :
  (forall x, In x (n :: ns) -> ~ In c (list_ascii_of_string x)) ->
  split c (String.concat (String c EmptyString) (n :: ns)) = n :: ns.
Proof.
  revert n. induction ns as [|m ns IH]; intros n Hc.
  - cbn [String.concat]. apply split_no_sep. apply Hc. left. reflexivity.
  - change (String.concat (String c EmptyString) (n :: m :: ns))
      with (n +:+ String c EmptyString +:+ String.concat (String c EmptyString) (m :: ns)).
    change (String c EmptyString +:+ ?s) with (String c s).
    rewrite split_app by (apply Hc; left; reflexivity).
    rewrite IH by (intros x Hx; apply Hc; right; exact Hx). reflexivity.
Qed.

Lemma list_ascii_of_string_app (a b : string) :
  list_ascii_of_string (a +:+ b) = list_ascii_of_string a ++ list_ascii_of_string b.
Proof. induction a as [|x a IH]; simpl; [reflexivity|rewrite IH; reflexivity]. Qed.

Lemma concat_no_char (c sep : ascii) (ns : list string) :
  c <> sep ->
  (forall x, In x ns -> ~ In c (list_ascii_of_string x)) ->
  ~ In c (list_ascii_of_string (String.concat (String sep EmptyString) ns)).
Proof.
  intros Hsep. induction ns as [|n ns IH]; intros Hc; [intros []|].
  destruct ns as [|m ns].
  - cbn [String.concat]. apply Hc. left. reflexivity.
  - change (String.concat (String sep EmptyString) (n :: m :: ns))
      with (n +:+ String sep EmptyString +:+ String.concat (String sep EmptyString) (m :: ns)).
    rewrite !list_ascii_of_string_app. intros H.
    apply in_app_or in H as [H|H]; [exact (Hc n (or_introl eq_refl) H)|].
    apply in_app_or in H as [H|H].
    + destruct H as [H|[]]. congruence.
    + apply IH in H; [exact H|]. intros x Hx. apply Hc. right. exact Hx.
Qed.

Lemma lookup_foldl_insert (v : string * gset string) (ns : list string) :
  forall (ctx : gmap string (string * gset string)) (k : string),
    foldl (fun ctx defn_var => <[ strip defn_var := v ]> ctx) ctx ns !! k
    = if bool_decide (k ∈ map strip ns) then Some v else ctx !! k.
Proof.
  induction ns as [|n ns IH]; intros ctx k; cbn [foldl map].
  - rewrite bool_decide_eq_false_2 by (apply not_elem_of_nil). reflexivity.
  - rewrite IH. destruct (bool_decide (k ∈ map strip ns)) eqn:Hk.
    + apply bool_decide_eq_true in Hk.
      rewrite bool_decide_eq_true_2 by (right; exact Hk). reflexivity.
    + apply bool_decide_eq_false in Hk. destruct (decide (strip n = k)) as [<-|Hn].
      * rewrite lookup_insert_eq.
        rewrite bool_decide_eq_true_2 by (left). reflexivity.
      * rewrite lookup_insert_ne by exact Hn.
        rewrite bool_decide_eq_false_2; [reflexivity|].
        intros H. apply elem_of_cons in H as [H|H]; [exact (Hn (eq_sym H))|exact (Hk H)].
Qed.

(** X20. Reading the context line [n1,...,nk : body]: the line is cut at its
    first colon, so when the names hold no colon and no comma, every name,
    stripped of blanks, is bound to the stripped [body] and to its free
    variables, whatever colons and commas [body] holds; the other keys of
    the local context keep their entries. *)
Theorem add_definitions_reads_names_and_body (parse : string -> Term)
    (ctx : gmap string (string * gset string)) (n : string) (ns : list string)
    (body : string) :
  (forall x, In x (n :: ns) ->
             ~ In ":"%char (list_ascii_of_string x)
             /\ ~ In ","%char (list_ascii_of_string x)) ->
  exists ctx',
    add_definitions parse ctx (String.concat "," (n :: ns) +:+ ":" +:+ body) = Ok ctx'
    /\ (forall x, In x (n :: ns) ->
                  ctx' !! strip x = Some (strip body, free_vars (parse (strip body))))
    /\ (forall k, ~ In k (map strip (n :: ns)) -> ctx' !! k = ctx !! k).
Proof.
  intros Hnames. unfold add_definitions.
  change (":" +:+ body) with (String ":"%char body).
  rewrite str_index_app
    by (apply concat_no_char; [discriminate|intros x Hx; apply Hnames; exact Hx]).
  cbn [mbind exc_bind]. rewrite str_drop_app, str_take_app.
  rewrite split_concat by (intros x Hx; apply Hnames; exact Hx).
  eexists. split; [reflexivity|]. split.
  - intros x Hx. rewrite lookup_foldl_insert.
    rewrite bool_decide_eq_true_2 by (apply list_elem_of_In, in_map; exact Hx). reflexivity.
  - intros k Hk. rewrite lookup_foldl_insert.
    rewrite bool_decide_eq_false_2 by (rewrite list_elem_of_In; exact Hk). reflexivity.
Qed.

Lemma add_definitions_reads_names_and_body_witness :
  exists ctx',
    add_definitions example_parse ∅ (String.concat "," ["H "; " x"] +:+ ":" +:+ " f (a:=b, c)")
    = Ok ctx'
    /\ (forall x, In x ["H "; " x"] ->
                  ctx' !! strip x
                  = Some (strip " f (a:=b, c)",
                          free_vars (example_parse (strip " f (a:=b, c)"))))
    /\ (forall k, ~ In k (map strip ["H "; " x"]) -> ctx' !! k = (∅ : gmap string (string * gset string)) !! k).
Proof.
  apply add_definitions_reads_names_and_body.
  intros x [<-|[<-|[]]]; split; vm_compute; intros H; decompose [or] H;
    solve [discriminate | assumption].
Defined.

(** ** The redundancy filter and the scan, end to end *)

Lemma filter_all {A : Type} (f : A -> bool) (l : list A) :
  (forall x, In x l -> f x = true) -> List.filter f l = l.
Proof.
  induction l as [|x l IH]; intros H; cbn [List.filter]; [reflexivity|].
  rewrite (H x (or_introl eq_refl)). f_equal. apply IH. intros y Hy. apply H. right. exact Hy.
Qed.

Lemma drop_redundant_spec (goal_ast_map : gmap string Term) (goals : list Candidate) :
  (forall g, In g goals -> is_Some (goal_ast_map !! goal_gen g)) ->
  exists R : gset string,
    drop_redundant goal_ast_map goals
    = Ok (List.filter (fun g => bool_decide (goal_gen g ∉ R)) goals)
    /\ forall x, x ∈ R <->
         exists g1 a1 g2,
           In g1 goals /\ goal_ast_map !! goal_gen g1 = Some a1
           /\ In g2 goals /\ goal_gen g2 = x /\ hits goal_ast_map a1 g2.
Proof.
  intros Hkeys.
  destruct (redundant_goals_loop_spec goal_ast_map goals goals ∅ Hkeys Hkeys)
    as (R & HR & Hspec).
  exists R. unfold drop_redundant, redundant_goals. rewrite HR. cbn [mbind exc_bind].
  split; [reflexivity|]. intros x. rewrite Hspec. split; [|auto].
  intros [H|H]; [|exact H]. apply not_elem_of_empty in H. destruct H.
Qed.

Lemma max_candidate (f : Candidate -> nat) (l : list Candidate) :
  l <> [] -> exists g, In g l /\ forall g', In g' l -> f g' <= f g.
Proof.
  induction l as [|x l IH]; [congruence|]. intros _.
  destruct l as [|y l].
  - exists x. split; [left; reflexivity|]. intros g' [<-|[]]. lia.
  - destruct IH as (g & Hg & Hmax); [discriminate|].
    destruct (le_lt_dec (f x) (f g)) as [Hle|Hlt].
    + exists g. split; [right; exact Hg|]. intros g' [<-|Hg']; [exact Hle|auto].
    + exists x. split; [left; reflexivity|]. intros g' [<-|Hg']; [lia|].
      specialize (Hmax g' Hg'). lia.
Qed.

Lemma hits_depth (goal_ast_map : gmap string Term) (g1 g2 : Candidate) (a1 : Term) :
  goal_ast_map !! goal_gen g1 = Some a1 ->
  hits goal_ast_map a1 g2 ->
  cached_depth goal_ast_map g2 < cached_depth goal_ast_map g1.
Proof.
  intros Ha1 (a2 & Ha2 & Hun). unfold cached_depth. rewrite Ha1, Ha2.
  apply unwraps_to_prod_depth. exact Hun.
Qed.

(** X21. The redundancy filter never discards every candidate: a candidate
    whose cached AST has the most [Product] layers is under no other one,
    so a non-empty list stays non-empty. *)
Theorem drop_redundant_keeps_a_candidate
    (goal_ast_map : gmap string Term) (goals_list kept : list Candidate) :
  (forall g, In g goals_list -> is_Some (goal_ast_map !! goal_gen g)) ->
  goals_list <> [] ->
  drop_redundant goal_ast_map goals_list = Ok kept ->
  kept <> [].
Proof.
  intros Hkeys Hne Hrun.
  destruct (drop_redundant_spec goal_ast_map goals_list Hkeys) as (R & HR & Hspec).
  rewrite HR in Hrun. injection Hrun as <-.
  destruct (max_candidate (cached_depth goal_ast_map) goals_list Hne) as (g & Hg & Hmax).
  assert (Hin : In g (List.filter (fun g => bool_decide (goal_gen g ∉ R)) goals_list)).
  { apply filter_In. split; [exact Hg|]. apply bool_decide_eq_true.
    intros HgR. apply Hspec in HgR as (g1 & a1 & g2 & Hg1 & Ha1 & Hg2 & Hkey & Hhit).
    pose proof (hits_depth _ _ _ _ Ha1 Hhit) as Hlt.
    assert (Heq : cached_depth goal_ast_map g2 = cached_depth goal_ast_map g)
      by (unfold cached_depth; rewrite Hkey; reflexivity).
    specialize (Hmax g1 Hg1). lia. }
  intros Hnil. rewrite Hnil in Hin. destruct Hin.
Qed.

(** X22. The redundancy filter is idempotent: run on the candidates it
    kept, it keeps them all. *)
Theorem drop_redundant_idempotent
    (goal_ast_map : gmap string Term) (goals_list kept : list Candidate) :
  (forall g, In g goals_list -> is_Some (goal_ast_map !! goal_gen g)) ->
  drop_redundant goal_ast_map goals_list = Ok kept ->
  drop_redundant goal_ast_map kept = Ok kept.
Proof.
  intros Hkeys Hrun.
  destruct (drop_redundant_spec goal_ast_map goals_list Hkeys) as (R & HR & Hspec).
  rewrite HR in Hrun. injection Hrun as <-.
  set (kept := List.filter (fun g => bool_decide (goal_gen g ∉ R)) goals_list).
  assert (Hsub : forall g, In g kept -> In g goals_list /\ goal_gen g ∉ R).
  { intros g Hg. apply filter_In in Hg as [Hg Hn]. apply bool_decide_eq_true in Hn. auto. }
  destruct (drop_redundant_spec goal_ast_map kept) as (R' & HR' & Hspec').
  { intros g Hg. apply Hkeys, Hsub, Hg. }
  rewrite HR'. f_equal. apply filter_all. intros g Hg. apply bool_decide_eq_true.
  intros HgR. apply Hspec' in HgR as (g1 & a1 & g2 & Hg1 & Ha1 & Hg2 & Hkey & Hhit).
  destruct (Hsub g2 Hg2) as [Hg2' Hn]. apply Hn. apply Hspec.
  exists g1, a1, g2. split; [apply Hsub, Hg1|]. auto.
Qed.

(** *** The order of the report *)

Lemma scan_against_sorted (goal_ast_map : gmap string Term) (i : nat) (g1 : Candidate)
    (a1 : Term) (rest : list Candidate) :
  forall j pairs,
    scan_against goal_ast_map i g1 a1 j rest = Ok pairs ->
    List.Forall (fun p => p.1 = i /\ j <= p.2 < j + length rest) pairs
    /\ StronglySorted pair_lt pairs.
Proof.
  induction rest as [|g2 rest IH]; intros j pairs; cbn [scan_against].
  - intros H. injection H as <-. split; constructor.
  - assert (Hshift : forall more,
              List.Forall (fun p => p.1 = i /\ S j <= p.2 < S j + length rest) more ->
              List.Forall (fun p => p.1 = i /\ j <= p.2 < j + length (g2 :: rest)) more).
    { intros more Hm. eapply List.Forall_impl; [|exact Hm].
      cbn [length]. intros p (H1 & H2). split; [exact H1|lia]. }
    destruct (String.eqb (thm_name g1) (thm_name g2)).
    + intros H. destruct (IH _ _ H) as [Hf Hs]. split; [apply Hshift; exact Hf|exact Hs].
    + intros H. apply bind_Ok in H as (a2 & _ & H). apply bind_Ok in H as (clone & _ & H).
      apply bind_Ok in H as (more & Hmore & H). injection H as <-.
      destruct (IH _ _ Hmore) as [Hf Hs].
      destruct clone; [|split; [apply Hshift; exact Hf|exact Hs]].
      split.
      * constructor; [cbn [fst snd length]; split; [reflexivity|lia]|apply Hshift; exact Hf].
      * constructor; [exact Hs|].
        eapply List.Forall_impl; [|exact Hf]. intros p (H1 & H2).
        right. cbn [fst snd]. split; [auto|lia].
Qed.

Lemma StronglySorted_app {A : Type} (R : A -> A -> Prop) (l1 l2 : list A) :
  StronglySorted R l1 -> StronglySorted R l2 ->
  (forall x y, In x l1 -> In y l2 -> R x y) ->
  StronglySorted R (l1 ++ l2).
Proof.
  induction l1 as [|x l1 IH]; intros H1 H2 H12; [exact H2|].
  apply StronglySorted_inv in H1 as [H1 Hx]. cbn [app]. constructor.
  - apply IH; [exact H1|exact H2|]. intros a b Ha Hb. apply H12; [right; exact Ha|exact Hb].
  - apply List.Forall_app. split; [exact Hx|].
    apply List.Forall_forall. intros y Hy. apply H12; [left; reflexivity|exact Hy].
Qed.

Lemma scan_from_sorted (goal_ast_map : gmap string Term) (goals : list Candidate) :
  forall i pairs,
    scan_from goal_ast_map i goals = Ok pairs ->
    List.Forall (fun p => i <= p.1 /\ p.1 < p.2 < i + length goals) pairs
    /\ StronglySorted pair_lt pairs.
Proof.
  induction goals as [|g1 rest IH]; intros i pairs; cbn [scan_from].
  - intros H. injection H as <-. split; constructor.
  - intros H. apply bind_Ok in H as (a1 & _ & H). apply bind_Ok in H as (ps & Hps & H).
    apply bind_Ok in H as (more & Hmore & H). injection H as <-.
    destruct (scan_against_sorted _ _ _ _ _ _ _ Hps) as [Hf1 Hs1].
    destruct (IH _ _ Hmore) as [Hf2 Hs2].
    rewrite List.Forall_forall in Hf1, Hf2. split.
    + apply List.Forall_app. split; apply List.Forall_forall; intros p Hp; cbn [length].
      * destruct (Hf1 p Hp) as (H1 & H2). lia.
      * destruct (Hf2 p Hp) as (H1 & H2). lia.
    + apply StronglySorted_app; [exact Hs1|exact Hs2|].
      intros x y Hx Hy. left. destruct (Hf1 x Hx) as (H1 & _).
      destruct (Hf2 y Hy) as (H2 & _). lia.
Qed.

Lemma pair_lt_irrefl (p : nat * nat) : ~ pair_lt p p.
Proof. unfold pair_lt. lia. Qed.

Lemma StronglySorted_NoDup {A : Type} (R : A -> A -> Prop) (l : list A) :
  (forall x, ~ R x x) -> StronglySorted R l -> List.NoDup l.
Proof.
  intros Hirr. induction 1 as [|x l Hs IH Hx]; constructor; [|exact IH].
  intros Hin. rewrite List.Forall_forall in Hx. exact (Hirr x (Hx x Hin)).
Qed.

(** X24. The report of a scan that returns lists its pairs in ascending
    order, by first index and then by second, so no pair is written twice;
    every pair [(i, j)] has [i < j] and both are positions of the list. *)
Theorem report_is_sorted_without_duplicates
    (goal_ast_map : gmap string Term) (goals_list : list Candidate)
    (pairs : list (nat * nat)) :
  find_alpha_equiv_goals goal_ast_map goals_list = Ok pairs ->
  StronglySorted pair_lt pairs
  /\ List.NoDup pairs
  /\ (forall i j, In (i, j) pairs -> i < j < length goals_list).
Proof.
  unfold find_alpha_equiv_goals. intros H.
  destruct (scan_from_sorted _ _ _ _ H) as [Hf Hs].
  split; [exact Hs|]. split; [exact (StronglySorted_NoDup _ _ pair_lt_irrefl Hs)|].
  intros i j Hin. rewrite List.Forall_forall in Hf. specialize (Hf _ Hin).
  cbn [fst snd] in Hf. lia.
Qed.

Lemma drop_redundant_keeps_a_candidate_witness :
  [mkCandidate "g1" "thm1" "f.v" ["auto."] "forall (x : T), P x" []] <> [].
Proof.
  apply (drop_redundant_keeps_a_candidate
           (<[ "forall (x : T), P x" := Product "x" (Var "T") (App (Var "P") (Var "x")) ]>
              (<[ "P x" := App (Var "P") (Var "x") ]> ∅))
           [mkCandidate "g1" "thm1" "f.v" ["auto."] "forall (x : T), P x" [];
            mkCandidate "g2" "thm2" "f.v" ["auto."] "P x" []]).
  - intros g [<-|[<-|[]]]; vm_compute; eauto.
  - discriminate.
  - vm_compute. reflexivity.
Defined.

Lemma drop_redundant_idempotent_witness :
  drop_redundant
    (<[ "forall (x : T), P x" := Product "x" (Var "T") (App (Var "P") (Var "x")) ]>
       (<[ "P x" := App (Var "P") (Var "x") ]> ∅))
    [mkCandidate "g1" "thm1" "f.v" ["auto."] "forall (x : T), P x" []]
  = Ok [mkCandidate "g1" "thm1" "f.v" ["auto."] "forall (x : T), P x" []].
Proof.
  apply (drop_redundant_idempotent _
           [mkCandidate "g1" "thm1" "f.v" ["auto."] "forall (x : T), P x" [];
            mkCandidate "g2" "thm2" "f.v" ["auto."] "P x" []]).
  - intros g [<-|[<-|[]]]; vm_compute; eauto.
  - vm_compute. reflexivity.
Defined.

Lemma report_is_sorted_without_duplicates_witness :
  StronglySorted pair_lt [(0, 2); (1, 2)]
  /\ List.NoDup [(0, 2); (1, 2)]
  /\ (forall i j, In (i, j) [(0, 2); (1, 2)] -> i < j < 3).
Proof.
  apply (report_is_sorted_without_duplicates
           (<[ "forall (n : nat), (P n)" := Product "n" (Var "nat") (App (Var "P") (Var "n")) ]>
              (<[ "forall (m : nat), (P m)"
                  := Product "m" (Var "nat") (App (Var "P") (Var "m")) ]> ∅))
           [mkCandidate "P n" "thm1" "a.v" ["auto."] "forall (n : nat), (P n)" ["n : nat"];
            mkCandidate "P m" "thm1" "a.v" ["auto."] "forall (m : nat), (P m)" ["m : nat"];
            mkCandidate "P m" "thm2" "b.v" ["auto."] "forall (m : nat), (P m)" ["m : nat"]]).
  vm_compute. reflexivity.
Defined.

(** ** Proof trees: [get_proof] *)

Lemma adj_lookup_tree_adj (t : list (string * ProofNode)) (n : string) :
  adj_lookup n (tree_adj t) = option_map children (tree_get n t).
Proof.
  induction t as [|[k m] t IH]; cbn [tree_adj map adj_lookup tree_get fst snd];
    [reflexivity|].
  destruct (String.eqb k n); [reflexivity|exact IH].
Qed.

Lemma is_node_tree_adj (t : list (string * ProofNode)) (n : string) :
  is_node (tree_adj t) n <-> is_Some (tree_get n t).
Proof.
  unfold is_node. rewrite adj_lookup_tree_adj.
  destruct (tree_get n t); cbn [option_map]; split; intros [x Hx]; eauto; discriminate.
Qed.

Lemma reaches_is_node (t : list (string * ProofNode)) (n d : string) :
  reaches t n d -> is_Some (tree_get n t).
Proof. destruct 1 as [n m H|n m c d H _ _]; rewrite H; eauto. Qed.

Section get_proof_visit.
Variable t : list (string * ProofNode).

Lemma visit_post_mono (from : list string) (st st' : list string * gset string)
    (new : list string) :
  visit_post t from st st' new -> st.2 ⊆ st'.2.
Proof. intros (_ & HV & _) x Hx. apply HV. left. exact Hx. Qed.

Lemma get_proof_loop (budget : nat) :
  (forall node st,
     unvisited (tree_adj t) st.2 < budget ->
     exists st' new,
       get_proof_visit budget t node st = Ok st' /\ visit_post t [node] st st' new) ->
  forall cs st,
    unvisited (tree_adj t) st.2 < budget ->
    exists st' new,
      foldl (fun (acc : exc (list string * gset string)) (child : string) =>
               acc ≫= get_proof_visit budget t child) (Ok st) cs = Ok st'
      /\ visit_post t cs st st' new.
Proof.
  intros Hvisit. induction cs as [|c cs IH]; intros st Hb; cbn [foldl].
  - exists st, []. split; [reflexivity|]. unfold visit_post. cbn [map In].
    rewrite app_nil_r. split; [reflexivity|]. split; [intros x; tauto|].
    split; [constructor|]. split; [intros x []|]. split; [intros c []|].
    intros x m c0 [].
  - cbn [mbind exc_bind].
    destruct (Hvisit c st Hb) as (st1 & new1 & -> & Hp1).
    pose proof (visit_post_mono _ _ _ _ Hp1) as Hmono1.
    destruct (IH st1) as (st2 & new2 & Hrun & Hp2).
    { eapply Nat.le_lt_trans; [apply unvisited_mono; exact Hmono1|exact Hb]. }
    pose proof (visit_post_mono _ _ _ _ Hp2) as Hmono2.
    exists st2, (new1 ++ new2). split; [exact Hrun|].
    destruct Hp1 as (Hacc1 & HV1 & Hnd1 & Hnew1 & Hfrom1 & Hcl1).
    destruct Hp2 as (Hacc2 & HV2 & Hnd2 & Hnew2 & Hfrom2 & Hcl2).
    unfold visit_post. conjs.
    + rewrite Hacc2, Hacc1, map_app, app_assoc. reflexivity.
    + intros x. rewrite HV2, HV1, in_app_iff. tauto.
    + apply NoDup_ListNoDup, NoDup_app. split; [apply NoDup_ListNoDup; exact Hnd1|].
      split; [|apply NoDup_ListNoDup; exact Hnd2].
      intros x Hx1 Hx2. apply list_elem_of_In in Hx1, Hx2.
      destruct (Hnew2 x Hx2) as [Hn _]. apply Hn, HV1. right. exact Hx1.
    + intros x Hx. apply in_app_or in Hx as [Hx|Hx].
      * destruct (Hnew1 x Hx) as [Hn (c' & [<-|[]] & Hr)].
        split; [exact Hn|]. exists c. split; [left; reflexivity|exact Hr].
      * destruct (Hnew2 x Hx) as [Hn (c' & Hc' & Hr)].
        split; [intros Hv; apply Hn, Hmono1, Hv|].
        exists c'. split; [right; exact Hc'|exact Hr].
    + intros c' [<-|Hc'] Hkey; [apply Hmono2, Hfrom1; [left; reflexivity|exact Hkey]|].
      apply Hfrom2; assumption.
    + intros x m c' Hx Hm Hc' Hkey. apply in_app_or in Hx as [Hx|Hx].
      * apply Hmono2. eapply Hcl1; eassumption.
      * eapply Hcl2; eassumption.
Qed.

Lemma get_proof_visit_spec (budget : nat) :
  forall node st,
    unvisited (tree_adj t) st.2 < budget ->
    exists st' new,
      get_proof_visit budget t node st = Ok st' /\ visit_post t [node] st st' new
      /\ (forall m, tree_get node t = Some m -> node ∉ st.2 ->
            exists rest, new = node :: rest).
Proof.
  induction budget as [|budget IH]; intros node [acc V] Hb; [lia|].
  cbn [get_proof_visit fst snd] in *.
  destruct (tree_get node t) as [m|] eqn:Hm.
  2:{ exists (acc, V), []. split; [reflexivity|]. split; [|discriminate].
      unfold visit_post. cbn [map In fst snd]. rewrite app_nil_r.
      split; [reflexivity|]. split; [intros x; tauto|].
      split; [constructor|]. split; [intros x []|].
      split; [intros c [<-|[]] [x Hx]; congruence|].
      intros x m c []. }
  destruct (bool_decide (node ∈ V)) eqn:Hvis.
  { apply bool_decide_eq_true in Hvis.
    exists (acc, V), []. split; [reflexivity|]. split; [|intros; contradiction].
    unfold visit_post. cbn [map In fst snd]. rewrite app_nil_r.
    split; [reflexivity|]. split; [intros x; tauto|].
    split; [constructor|]. split; [intros x []|].
    split; [intros c [<-|[]] _; exact Hvis|].
    intros x m' c []. }
  apply bool_decide_eq_false in Hvis.
  destruct (get_proof_loop budget) with (cs := children m)
                                        (st := (acc ++ [tactic m], {[node]} ∪ V))
    as (st' & new & Hrun & Hp).
  { intros n st Hst. destruct (IH n st Hst) as (st1 & new1 & H1 & H2 & _). eauto. }
  { cbn [snd].
    assert (Hlt : unvisited (tree_adj t) ({[node]} ∪ V) < unvisited (tree_adj t) V).
    { apply unvisited_add; [|exact Hvis]. apply is_node_tree_adj. rewrite Hm. eauto. }
    lia. }
  exists st', (node :: new). split; [exact Hrun|]. split; [|eauto].
  destruct Hp as (Hacc & HV & Hnd & Hnew & Hfrom & Hcl). cbn [fst snd] in *.
  unfold visit_post. cbn [fst snd]. conjs.
  - rewrite Hacc. cbn [map]. unfold tactic_of at 2. rewrite Hm.
    rewrite <- app_assoc. reflexivity.
  - intros x. rewrite HV. cbn [In]. rewrite elem_of_union, elem_of_singleton.
    split; [intros [[->|H]|H]; auto|intros [H|[<-|H]]; auto].
  - constructor; [|exact Hnd]. intros Hin. destruct (Hnew node Hin) as [Hn _].
    apply Hn. apply elem_of_union. left. apply elem_of_singleton. reflexivity.
  - intros x [<-|Hx].
    + split; [exact Hvis|]. exists node. split; [left; reflexivity|].
      eapply reaches_self. exact Hm.
    + destruct (Hnew x Hx) as [Hn (c & Hc & Hr)]. split.
      * intros Hv. apply Hn. apply elem_of_union. right. exact Hv.
      * exists node. split; [left; reflexivity|].
        eapply reaches_child; eassumption.
  - intros c [<-|[]] _. apply HV. left. apply elem_of_union. left.
    apply elem_of_singleton. reflexivity.
  - intros x m' c [<-|Hx] Hm' Hc Hkey.
    + assert (m' = m) by congruence. subst m'. apply Hfrom; assumption.
    + eapply Hcl; eassumption.
Qed.
End get_proof_visit.

Lemma get_proof_spec (pt : ProofTree) (node : string) :
  exists order,
    get_proof pt node = Ok (map (tactic_of (tree pt)) order)
    /\ List.NoDup order
    /\ (forall d, In d order <-> reaches (tree pt) node d)
    /\ (forall m, tree_get node (tree pt) = Some m -> exists rest, order = node :: rest).
Proof.
  unfold get_proof. set (t := tree pt).
  destruct (get_proof_visit_spec t (S (length t)) node ([], ∅))
    as (st' & order & Hrun & (Hacc & HV & Hnd & Hnew & Hfrom & Hcl) & Hhead).
  { cbn [snd]. pose proof (unvisited_le (tree_adj t) ∅) as H.
    unfold tree_adj in H at 2. rewrite length_map in H. lia. }
  cbn [fst snd] in *.
  exists order. rewrite Hrun. cbn [mbind exc_bind]. rewrite Hacc. cbn [app].
  split; [reflexivity|]. split; [exact Hnd|]. split.
  - assert (Hin : forall x, x ∈ st'.2 -> In x order).
    { intros x Hx. apply HV in Hx as [Hx|Hx]; [|exact Hx].
      apply not_elem_of_empty in Hx. destruct Hx. }
    assert (Hclosed : forall n d, reaches t n d -> In n order -> In d order).
    { induction 1 as [n m Hm|n m c d Hm Hc Hr IH]; intros Hn; [exact Hn|].
      apply IH, Hin. eapply Hcl; [exact Hn|exact Hm|exact Hc|].
      eapply reaches_is_node. exact Hr. }
    intros d. split.
    + intros Hd. destruct (Hnew d Hd) as [_ (c & [<-|[]] & Hr)]. exact Hr.
    + intros Hr. apply (Hclosed node d Hr). apply Hin, Hfrom; [left; reflexivity|].
      eapply reaches_is_node. exact Hr.
  - intros m Hm. apply (Hhead m Hm). apply not_elem_of_empty.
Qed.

Lemma tree_get_In (t : list (string * ProofNode)) (n : string) :
  is_Some (tree_get n t) <-> In n (map fst t).
Proof.
  induction t as [|[k m] t IH]; cbn [tree_get map fst In].
  - split; [intros [x Hx]; discriminate|intros []].
  - destruct (String.eqb k n) eqn:Hk.
    + apply String.eqb_eq in Hk. split; eauto.
    + apply String.eqb_neq in Hk. rewrite IH. split; [auto|intros [H|H]; [contradiction|exact H]].
Qed.

(** X25. [get_proof] returns on every proof tree, also on one where a goal
    is its own descendant: the result holds the tactic of the goal and of
    each of its descendants in the tree, each node once, and nothing
    else. *)
Theorem get_proof_lists_each_descendant_once (pt : ProofTree) (node : string) :
  exists order,
    get_proof pt node = Ok (map (tactic_of (tree pt)) order)
    /\ List.NoDup order
    /\ (forall d, In d order <-> reaches (tree pt) node d).
Proof.
  destruct (get_proof_spec pt node) as (order & Hrun & Hnd & Hreach & _).
  exists order. auto.
Qed.

(** X26. The proof of a goal the tree does not know is empty; the proof of a
    goal it knows starts with the goal's own tactic; and no proof is longer
    than the tree has nodes. *)
Theorem get_proof_starts_with_own_tactic (pt : ProofTree) (node : string) :
  exists l,
    get_proof pt node = Ok l
    /\ length l <= length (tree pt)
    /\ match tree_get node (tree pt) with
       | None => l = []
       | Some m => exists rest, l = tactic m :: rest
       end.
Proof.
  destruct (get_proof_spec pt node) as (order & Hrun & Hnd & Hreach & Hhead).
  exists (map (tactic_of (tree pt)) order). split; [exact Hrun|]. split.
  - rewrite length_map, <- (length_map fst (tree pt)).
    apply NoDup_incl_length; [exact Hnd|].
    intros d Hd. apply tree_get_In.
    assert (Hkeys : forall n d', reaches (tree pt) n d' -> is_Some (tree_get d' (tree pt))).
    { induction 1 as [n m Hm|n m c d' Hm Hc Hr IH]; [rewrite Hm; eauto|exact IH]. }
    apply (Hkeys node). apply Hreach. exact Hd.
  - destruct (tree_get node (tree pt)) as [m|] eqn:Hm.
    + destruct (Hhead m eq_refl) as [rest ->]. cbn [map]. unfold tactic_of at 1.
      rewrite Hm. eauto.
    + destruct order as [|d order]; [reflexivity|].
      assert (Hr : reaches (tree pt) node d) by (apply Hreach; left; reflexivity).
      apply reaches_is_node in Hr as [x Hx]. congruence.
Qed.

(** ** The candidates [main.py] collects *)

Lemma foldl_exc_Raise {A S : Type} (f : S -> A -> exc S) (l : list A) (e : exn) :
  foldl (fun acc x => acc ≫= (fun s => f s x)) (Raise e) l = Raise e.
Proof. induction l as [|x l IH]; cbn [foldl mbind exc_bind]; [reflexivity|exact IH]. Qed.

Lemma foldl_exc_inv {A S : Type} (f : S -> A -> exc S) (I : S -> Prop) (l : list A) :
  (forall s x s', In x l -> I s -> f s x = Ok s' -> I s') ->
  forall s s', I s -> foldl (fun acc x => acc ≫= (fun s => f s x)) (Ok s) l = Ok s' -> I s'.
Proof.
  induction l as [|x l IH]; intros Hstep s s' Hs; cbn [foldl mbind exc_bind].
  - intros H. injection H as <-. exact Hs.
  - destruct (f s x) as [s1|e] eqn:Hf.
    + apply IH; [|eapply Hstep; [left; reflexivity|exact Hs|exact Hf]].
      intros s0 y s0' Hy. apply Hstep. right. exact Hy.
    + rewrite foldl_exc_Raise. discriminate.
Qed.

Lemma foldl_exc_only {A S : Type} (f : S -> A -> exc S) (P : exn -> Prop) (l : list A) :
  (forall s x e, In x l -> f s x = Raise e -> P e) ->
  forall s e, foldl (fun acc x => acc ≫= (fun s => f s x)) (Ok s) l = Raise e -> P e.
Proof.
  induction l as [|x l IH]; intros Hstep s e; cbn [foldl mbind exc_bind]; [discriminate|].
  destruct (f s x) as [s1|e1] eqn:Hf.
  - apply IH. intros s0 y e0 Hy. apply Hstep. right. exact Hy.
  - rewrite foldl_exc_Raise. intros H. injection H as <-.
    eapply Hstep; [left; reflexivity|exact Hf].
Qed.

Section collect_facts.
Variable parse : string -> Term.
Variable set_iter : gset string -> list string.
Hypothesis set_iter_elements : forall X, set_iter X ≡ₚ elements X.
Variable min_proof_sz : nat.

(** What [main.py] records for a candidate. *)
Lemma collect_node_Ok (path : string) (pt : ProofTree)
    (st st' : gmap string Term * list Candidate) (n : string) :
  collect_node parse set_iter min_proof_sz path pt st n = Ok st' ->
  st' = st
  \/ exists g,
       st' = (<[ goal_gen g := parse (goal_gen g) ]> st.1, st.2 ++ [g])
       /\ goal g = n /\ thm_name g = theorem_name pt /\ file_name g = path
       /\ get_proof pt n = Ok (proof g)
       /\ min_proof_sz <= length (proof g)
       /\ get_local_context pt n = Ok (local_context g)
       /\ generalize parse set_iter (local_context g) n = Ok (goal_gen g).
Proof.
  unfold collect_node. intros H.
  apply bind_Ok in H as (prf & Hprf & H).
  destruct (Nat.leb min_proof_sz (length prf)) eqn:Hsz;
    [|left; injection H as <-; reflexivity].
  apply Nat.leb_le in Hsz.
  apply bind_Ok in H as (ctx & Hctx & H). apply bind_Ok in H as (n_gen & Hgen & H).
  apply bind_Ok in H as (prf' & Hprf' & H). apply bind_Ok in H as (ctx' & Hctx' & H).
  injection H as <-. right.
  assert (prf' = prf) by congruence. assert (ctx' = ctx) by congruence. subst prf' ctx'.
  exists (mkCandidate n (theorem_name pt) path prf n_gen ctx). cbn.
  repeat (split; [solve [reflexivity | assumption]|]). assumption.
Qed.

Lemma collect_node_Raise (path : string) (pt : ProofTree)
    (st : gmap string Term * list Candidate) (n : string) (e : exn) :
  In n (get_nodes pt) ->
  collect_node parse set_iter min_proof_sz path pt st n = Raise e -> e = ValueError.
Proof.
  intros Hn. unfold collect_node.
  destruct (get_proof_spec pt n) as (order & -> & _). cbn [mbind exc_bind].
  destruct (Nat.leb _ _); [|discriminate].
  apply tree_get_In in Hn as [m Hm]. unfold get_local_context. rewrite Hm.
  cbn [mbind exc_bind].
  destruct (generalize_outcome parse set_iter set_iter_elements (node_local_context m) n)
    as [[s ->]| ->]; cbn [mbind exc_bind]; [discriminate|congruence].
Qed.

(** The invariant of the three loops: what holds of every candidate. *)
Lemma collect_candidates_inv (forests : list ProofForest)
    (goal_ast_map : gmap string Term) (goals_list : list Candidate) :
  collect_candidates parse set_iter min_proof_sz forests = Ok (goal_ast_map, goals_list) ->
  forall g, In g goals_list ->
    goal_ast_map !! goal_gen g = Some (parse (goal_gen g))
    /\ min_proof_sz <= length (proof g)
    /\ exists forest pt,
         In forest forests /\ In pt (proof_trees forest)
         /\ file_name g = file_path forest /\ thm_name g = theorem_name pt
         /\ In (goal g) (get_nodes pt)
         /\ get_proof pt (goal g) = Ok (proof g)
         /\ get_local_context pt (goal g) = Ok (local_context g)
         /\ generalize parse set_iter (local_context g) (goal g) = Ok (goal_gen g).
Proof.
  set (P := fun g : Candidate =>
              min_proof_sz <= length (proof g)
              /\ exists forest pt,
                   In forest forests /\ In pt (proof_trees forest)
                   /\ file_name g = file_path forest /\ thm_name g = theorem_name pt
                   /\ In (goal g) (get_nodes pt)
                   /\ get_proof pt (goal g) = Ok (proof g)
                   /\ get_local_context pt (goal g) = Ok (local_context g)
                   /\ generalize parse set_iter (local_context g) (goal g)
                      = Ok (goal_gen g)).
  set (I := fun st : gmap string Term * list Candidate =>
              forall g, In g st.2 ->
                st.1 !! goal_gen g = Some (parse (goal_gen g)) /\ P g).
  intros Hrun. change (I (goal_ast_map, goals_list)).
  unfold collect_candidates in Hrun. revert Hrun.
  apply foldl_exc_inv; [|intros g []].
  intros s forest s' Hforest Hs. unfold collect_forest.
  apply foldl_exc_inv; [|exact Hs]. clear s s' Hs.
  intros s pt s' Hpt Hs. unfold collect_tree.
  apply foldl_exc_inv; [|exact Hs]. clear s s' Hs.
  intros s n s' Hn Hs Hstep.
  apply collect_node_Ok in Hstep
    as [->|(g & -> & Hgoal & Hthm & Hfile & Hprf & Hsz & Hctx & Hgen)]; [exact Hs|].
  intros g' Hg'. cbn [fst snd] in *. apply in_app_or in Hg' as [Hg'|[<-|[]]].
  - destruct (Hs g' Hg') as [Hlook HP]. split; [|exact HP].
    destruct (decide (goal_gen g = goal_gen g')) as [Heq|Hne].
    + rewrite Heq. apply lookup_insert_eq.
    + rewrite lookup_insert_ne by exact Hne. exact Hlook.
  - split; [apply lookup_insert_eq|]. split; [exact Hsz|].
    exists forest, pt. rewrite Hgoal. auto 10.
Qed.

(** X27. What [main.py] collects: every candidate of [goals_list] comes from
    a node of a proof tree of a forest, carries that node's proof (of at
    least [min_proof_sz] tactics), local context and generalised goal, and
    [goal_ast_map] holds the AST of its generalised goal. *)
Theorem collected_candidates_are_cached (forests : list ProofForest)
    (goal_ast_map : gmap string Term) (goals_list : list Candidate) (g : Candidate) :
  collect_candidates parse set_iter min_proof_sz forests = Ok (goal_ast_map, goals_list) ->
  In g goals_list ->
  goal_ast_map !! goal_gen g = Some (parse (goal_gen g))
  /\ min_proof_sz <= length (proof g)
  /\ exists forest pt,
       In forest forests /\ In pt (proof_trees forest)
       /\ file_name g = file_path forest /\ thm_name g = theorem_name pt
       /\ In (goal g) (get_nodes pt)
       /\ get_proof pt (goal g) = Ok (proof g)
       /\ get_local_context pt (goal g) = Ok (local_context g)
       /\ generalize parse set_iter (local_context g) (goal g) = Ok (goal_gen g).
Proof. intros Hrun. apply (collect_candidates_inv forests _ _ Hrun). Qed.

(** X28. The redundancy filter returns on what [main.py] collects: no key
    it looks up in [goal_ast_map] is missing. *)
Theorem filter_returns_on_collected_candidates (forests : list ProofForest)
    (goal_ast_map : gmap string Term) (goals_list : list Candidate) :
  collect_candidates parse set_iter min_proof_sz forests = Ok (goal_ast_map, goals_list) ->
  exists kept,
    drop_redundant goal_ast_map goals_list = Ok kept
    /\ (forall g, In g kept -> In g goals_list).
Proof.
  intros Hrun.
  destruct (drop_redundant_spec goal_ast_map goals_list) as (R & HR & _).
  { intros g Hg. destruct (collect_candidates_inv forests _ _ Hrun g Hg) as [-> _]. eauto. }
  eexists. split; [exact HR|]. intros g Hg. apply filter_In in Hg as [Hg _]. exact Hg.
Qed.

(** X29. Collecting the candidates raises nothing but the [ValueError] of
    [generalize]: [get_proof] always returns and every node asked for its
    local context is a key of its tree. *)
Theorem collect_candidates_raises_only_ValueError (forests : list ProofForest) (e : exn) :
  collect_candidates parse set_iter min_proof_sz forests = Raise e -> e = ValueError.
Proof.
  unfold collect_candidates.
  apply (foldl_exc_only _ (fun e => e = ValueError)).
  intros s forest e1 _. unfold collect_forest.
  apply (foldl_exc_only _ (fun e => e = ValueError)).
  intros s1 pt e2 _. unfold collect_tree.
  apply (foldl_exc_only _ (fun e => e = ValueError)).
  intros s2 n e3 Hn. apply collect_node_Raise. exact Hn.
Qed.
End collect_facts.

Lemma collected_candidates_are_cached_witness :
  let pt := mkProofTree [("P s", mkProofNode ["d"; "s"] ["d : nat"; "s : T d"] [] "auto.")]
                        "thm" in
  let forest := mkProofForest "a.v" [pt] in
  let n_gen := "forall (s : T d), (forall (d : nat), (P s))" in
  let g := mkCandidate "P s" "thm" "a.v" ["auto."] n_gen ["d : nat"; "s : T d"] in
  let m : gmap string Term := <[ n_gen := example_parse n_gen ]> ∅ in
  m !! goal_gen g = Some (example_parse (goal_gen g))
  /\ 1 <= length (proof g)
  /\ exists forest' pt',
       In forest' [forest] /\ In pt' (proof_trees forest')
       /\ file_name g = file_path forest' /\ thm_name g = theorem_name pt'
       /\ In (goal g) (get_nodes pt')
       /\ get_proof pt' (goal g) = Ok (proof g)
       /\ get_local_context pt' (goal g) = Ok (local_context g)
       /\ generalize example_parse elements (local_context g) (goal g) = Ok (goal_gen g).
Proof.
  intros pt forest n_gen g m.
  apply (collected_candidates_are_cached example_parse elements 1 [forest] m [g] g).
  - vm_compute. reflexivity.
  - left. reflexivity.
Defined.

Lemma filter_returns_on_collected_candidates_witness :
  let pt := mkProofTree [("P s", mkProofNode ["d"; "s"] ["d : nat"; "s : T d"] [] "auto.")]
                        "thm" in
  let n_gen := "forall (s : T d), (forall (d : nat), (P s))" in
  let g := mkCandidate "P s" "thm" "a.v" ["auto."] n_gen ["d : nat"; "s : T d"] in
  let m : gmap string Term := <[ n_gen := example_parse n_gen ]> ∅ in
  exists kept, drop_redundant m [g] = Ok kept /\ (forall g', In g' kept -> In g' [g]).
Proof.
  intros pt n_gen g m.
  apply (filter_returns_on_collected_candidates example_parse elements 1
           [mkProofForest "a.v" [pt]] m [g]).
  vm_compute. reflexivity.
Defined.

Lemma collect_candidates_raises_only_ValueError_witness :
  ValueError = ValueError.
Proof.
  apply (collect_candidates_raises_only_ValueError example_parse elements
           (fun X => Permutation_refl _) 1
           [mkProofForest "a.v"
              [mkProofTree [("P s", mkProofNode ["s"] ["s T d"] [] "auto.")] "thm"]]).
  vm_compute. reflexivity.
Defined.

(** ** [subst] and the free variables *)

Lemma exc_map_Ok_Forall2 {A : Type} (f : A -> exc A) (R : A -> A -> Prop) (l l' : list A) :
  exc_map f l = Ok l' ->
  (forall x y, In x l -> f x = Ok y -> R x y) ->
  Forall2 R l l'.
Proof.
  revert l'. induction l as [|x l IH]; intros l' H HR; cbn [exc_map] in H.
  - injection H as <-. constructor.
  - apply bind_Ok in H as (y & Hy & H). apply bind_Ok in H as (r & Hr & H).
    injection H as <-. constructor.
    + apply HR; [left; reflexivity|exact Hy].
    + apply IH; [exact Hr|]. intros a b Ha. apply HR. right. exact Ha.
Qed.

Lemma union_list_Forall2 {A : Type} (F : A -> gset string) (X : gset string)
    (l l' : list A) :
  Forall2 (fun x y => F y ⊆ F x ∪ X) l l' ->
  ⋃ (map F l') ⊆ ⋃ (map F l) ∪ X.
Proof.
  induction 1 as [|x y l l' Hxy Hl IH]; cbn [map union_list foldr]; set_solver.
Qed.

Lemma subst_free_vars (t : Term) :
  forall v r t', subst t v r = Ok t' -> free_vars t' ⊆ free_vars t ∪ {[ r ]}.
Proof.
  induction t as [t IH] using Term_height_ind. intros v r t'.
  assert (IHc : forall c c', height c < height t -> subst c v r = Ok c' ->
                  free_vars c' ⊆ free_vars c ∪ {[ r ]})
    by (intros c c' Hc; apply IH; exact Hc).
  clear IH.
  destruct t as [x|s ann|x ty b|x ty b|x ty d b|g r0 th el al|f ps r0 b st
                |ss cs r0|c1 c2|c1 c2]; cbn [subst]; intros H.
  - injection H as <-. cbn [free_vars]. destruct (String.eqb x v); set_solver.
  - injection H as <-. set_solver.
  - apply bind_Ok in H as (ty' & Hty & H). apply bind_Ok in H as (b' & Hb & H).
    injection H as <-. cbn [free_vars].
    apply IHc in Hty; [|cbn [height]; lia].
    assert (Hb' : free_vars b' ⊆ free_vars b ∪ {[ r ]}).
    { destruct (negb (Var_eqb v x)); [apply IHc in Hb; [exact Hb|cbn [height]; lia]|].
      injection Hb as <-. set_solver. }
    set_solver.
  - apply bind_Ok in H as (ty' & Hty & H). apply bind_Ok in H as (b' & Hb & H).
    injection H as <-. cbn [free_vars].
    apply IHc in Hty; [|cbn [height]; lia].
    assert (Hb' : free_vars b' ⊆ free_vars b ∪ {[ r ]}).
    { destruct (negb (Var_eqb v x)); [apply IHc in Hb; [exact Hb|cbn [height]; lia]|].
      injection Hb as <-. set_solver. }
    set_solver.
  - apply bind_Ok in H as (ty' & Hty & H). apply bind_Ok in H as (b' & Hb & H).
    apply bind_Ok in H as (d' & Hd & H).
    injection H as <-. cbn [free_vars].
    apply IHc in Hty; [|cbn [height]; lia]. apply IHc in Hd; [|cbn [height]; lia].
    assert (Hb' : free_vars b' ⊆ free_vars b ∪ {[ r ]}).
    { destruct (negb (Var_eqb v x)); [apply IHc in Hb; [exact Hb|cbn [height]; lia]|].
      injection Hb as <-. set_solver. }
    set_solver.
  - apply bind_Ok in H as (th' & Hth & H). apply bind_Ok in H as (el' & Hel & H).
    apply bind_Ok in H as (r0' & Hr0 & H).
    injection H as <-. cbn [free_vars].
    apply IHc in Hth; [|cbn [height]; lia]. apply IHc in Hel; [|cbn [height]; lia].
    assert (Hr0' : free_vars r0' ⊆ free_vars r0 ∪ {[ r ]}).
    { destruct (negb (opt_Var_eqb al (Some v)));
        [apply IHc in Hr0; [exact Hr0|cbn [height]; lia]|].
      injection Hr0 as <-. set_solver. }
    set_solver.
  - destruct (Var_eqb f v); [injection H as <-; set_solver|].
    match type of H with (if ?c then _ else _) = _ => destruct c end;
      [injection H as <-; set_solver|].
    apply bind_Ok in H as (ps' & Hps & H). apply bind_Ok in H as (r0' & Hr0 & H).
    apply bind_Ok in H as (b' & Hb & H). injection H as <-.
    apply IHc in Hr0; [|cbn [height]; lia]. apply IHc in Hb; [|cbn [height]; lia].
    assert (Hnames : concat (map Binder_get_names ps') = concat (map Binder_get_names ps)).
    { f_equal.
      assert (HF : Forall2 (fun p p' => Binder_get_names p' = Binder_get_names p) ps ps').
      { apply (exc_map_Ok_Forall2 _ _ _ _ Hps). intros [ns ty] y _ Hy.
        apply bind_Ok in Hy as (ty' & _ & Hy). injection Hy as <-. reflexivity. }
      clear -HF. induction HF as [|p p' l l' Hp Hl IHl]; [reflexivity|].
      cbn [map]. rewrite Hp, IHl. reflexivity. }
    assert (Htypes :
              ⋃ (map (fun p => match p with
                               | mkBinder ns ty => free_vars ty ∖ list_to_set ns
                               end) ps')
              ⊆ ⋃ (map (fun p => match p with
                                 | mkBinder ns ty => free_vars ty ∖ list_to_set ns
                                 end) ps) ∪ {[ r ]}).
    { apply union_list_Forall2. apply (exc_map_Ok_Forall2 _ _ _ _ Hps).
      intros [ns ty] y Hin Hy. apply bind_Ok in Hy as (ty' & Hty & Hy). injection Hy as <-.
      apply IHc in Hty; [|eapply height_Fix_param; exact Hin]. set_solver. }
    cbn [free_vars]. cbv zeta. rewrite Hnames. set_solver.
  - apply bind_Ok in H as (ss' & Hss & H). apply bind_Ok in H as (r0' & Hr0 & H).
    apply bind_Ok in H as (cs' & Hcs & H). injection H as <-.
    assert (Hsubjects :
              ⋃ (map (fun s => match s with
                               | mkMatchSubject tm _ pt =>
                                   free_vars tm
                                   ∪ (match pt with
                                      | Some p => Pattern_free_vars p
                                      | None => ∅
                                      end)
                               end) ss')
              ⊆ ⋃ (map (fun s => match s with
                                 | mkMatchSubject tm _ pt =>
                                     free_vars tm
                                     ∪ (match pt with
                                        | Some p => Pattern_free_vars p
                                        | None => ∅
                                        end)
                                 end) ss) ∪ {[ r ]}).
    { apply union_list_Forall2. apply (exc_map_Ok_Forall2 _ _ _ _ Hss).
      intros [tm al pt] y Hin Hy. apply bind_Ok in Hy as (tm' & Htm & Hy).
      injection Hy as <-.
      apply IHc in Htm; [|eapply height_Match_subject; exact Hin]. set_solver. }
    assert (Hcases :
              ⋃ (map (fun c => match c with
                               | mkCaseClause pts b =>
                                   free_vars b
                                   ∖ ⋃ (map (fun p => non_wildcard (Pattern_get_bound_vars p))
                                            pts)
                               end) cs')
              ⊆ ⋃ (map (fun c => match c with
                                 | mkCaseClause pts b =>
                                     free_vars b
                                     ∖ ⋃ (map (fun p => non_wildcard (Pattern_get_bound_vars p))
                                              pts)
                                 end) cs) ∪ {[ r ]}).
    { apply union_list_Forall2. apply (exc_map_Ok_Forall2 _ _ _ _ Hcs).
      intros [pts b] y Hin Hy.
      match type of Hy with (if ?c then _ else _) = _ => destruct c end;
        [injection Hy as <-; set_solver|].
      apply bind_Ok in Hy as (b' & Hb & Hy). injection Hy as <-.
      apply IHc in Hb; [|eapply height_Match_case; exact Hin]. set_solver. }
    assert (Hret : match r0' with Some ty => free_vars ty | None => ∅ end
                   ⊆ match r0 with Some ty => free_vars ty | None => ∅ end ∪ {[ r ]}).
    { match type of Hr0 with (if ?c then _ else _) = _ => destruct c end;
        [injection Hr0 as <-; set_solver|].
      destruct r0 as [ty|]; [|discriminate].
      apply bind_Ok in Hr0 as (ty' & Hty & Hr0). injection Hr0 as <-.
      apply IHc in Hty; [exact Hty|apply height_Match_ret]. }
    cbn [free_vars]. set_solver.
  - apply bind_Ok in H as (a' & Ha & H). apply bind_Ok in H as (b' & Hb & H).
    injection H as <-. cbn [free_vars].
    apply IHc in Ha; [|cbn [height]; lia]. apply IHc in Hb; [|cbn [height]; lia].
    set_solver.
  - apply bind_Ok in H as (a' & Ha & H). apply bind_Ok in H as (b' & Hb & H).
    injection H as <-. cbn [free_vars].
    apply IHc in Ha; [|cbn [height]; lia]. apply IHc in Hb; [|cbn [height]; lia].
    set_solver.
Qed.

(** X30. [subst] adds no free variable but the replacement: every free
    variable of the term it leaves is [replacement] or was free before. *)
Theorem subst_adds_only_the_replacement (t t' : Term) (v r x : string) :
  subst t v r = Ok t' ->
  x ∈ free_vars t' ->
  x = r \/ x ∈ free_vars t.
Proof.
  intros H Hx. apply (subst_free_vars t v r t' H) in Hx.
  apply elem_of_union in Hx as [Hx|Hx]; [right; exact Hx|].
  left. apply elem_of_singleton in Hx. exact Hx.
Qed.

Lemma subst_adds_only_the_replacement_witness :
  "y" = "y" \/ "y" ∈ free_vars (Fun "z" (Var "T") (App (Var "x") (Var "z"))).
Proof.
  apply (subst_adds_only_the_replacement
           (Fun "z" (Var "T") (App (Var "x") (Var "z")))
           (Fun "z" (Var "T") (App (Var "y") (Var "z"))) "x" "y" "y").
  - reflexivity.
  - cbn [free_vars]. set_solver.
Defined.

(** ** The report as it is written *)

Lemma scan_against_written (goal_ast_map : gmap string Term) (i : nat) (g1 : Candidate)
    (a1 : Term) (rest : list Candidate) :
  forall j,
    scan_against goal_ast_map i g1 a1 j rest
    = match write_against goal_ast_map i g1 a1 j rest with
      | (pairs, None) => Ok pairs
      | (_, Some e) => Raise e
      end.
Proof.
  induction rest as [|g2 rest IH]; intros j; cbn [scan_against write_against];
    [reflexivity|].
  destruct (String.eqb (thm_name g1) (thm_name g2)); [apply IH|].
  destruct (ast_of goal_ast_map (goal_gen g2)) as [a2|e]; cbn [mbind exc_bind];
    [|reflexivity].
  destruct (alpha_equiv a1 a2) as [clone|e]; cbn [mbind exc_bind]; [|reflexivity].
  rewrite IH.
  destruct (write_against goal_ast_map i g1 a1 (S j) rest) as [more [e|]];
    cbn [mbind exc_bind fst snd]; [reflexivity|].
  destruct clone; reflexivity.
Qed.

Lemma scan_from_written (goal_ast_map : gmap string Term) (goals : list Candidate) :
  forall i,
    scan_from goal_ast_map i goals
    = match write_from goal_ast_map i goals with
      | (pairs, None) => Ok pairs
      | (_, Some e) => Raise e
      end.
Proof.
  induction goals as [|g1 rest IH]; intros i; cbn [scan_from write_from]; [reflexivity|].
  destruct (ast_of goal_ast_map (goal_gen g1)) as [a1|e]; cbn [mbind exc_bind];
    [|reflexivity].
  rewrite scan_against_written.
  destruct (write_against goal_ast_map i g1 a1 (S i) rest) as [pairs [e|]];
    cbn [mbind exc_bind fst snd]; [reflexivity|].
  rewrite IH.
  destruct (write_from goal_ast_map (S i) rest) as [more [e|]];
    cbn [mbind exc_bind fst snd]; reflexivity.
Qed.

(** The value of the call is what the report holds when the scan ends
    without an exception, and the exception otherwise. *)
Lemma find_alpha_equiv_goals_written (goal_ast_map : gmap string Term)
    (goals_list : list Candidate) :
  find_alpha_equiv_goals goal_ast_map goals_list
  = match report_written goal_ast_map goals_list with
    | (pairs, None) => Ok pairs
    | (_, Some e) => Raise e
    end.
Proof. apply scan_from_written. Qed.

(** C9. The scan stops at the first comparison that raises, and the clone
    pairs after it are never written.  The four candidates come from four
    theorems.  The first two hold [forall x : T, match x with O => a end]
    and the same goal with [y] for [x]: their comparison renames the bound
    variable in the body, and [Match.subst] on a match without return
    clause raises [AttributeError].  The last two, [forall n : nat, P n] and
    [forall m : nat, P m], are clones: their theorem names differ and
    [alpha_equiv] holds of their ASTs.  The report stays empty: the pair
    [(2, 3)] is not written. *)
Theorem scan_aborts_before_a_clone_pair :
  let tA := Product "x" (Var "T")
              (Match [mkMatchSubject (Var "x") None None]
                     [mkCaseClause [mkPattern "O" [] None] (Var "a")] None) in
  let tB := Product "y" (Var "T")
              (Match [mkMatchSubject (Var "y") None None]
                     [mkCaseClause [mkPattern "O" [] None] (Var "a")] None) in
  let tC := Product "n" (Var "nat") (App (Var "P") (Var "n")) in
  let tD := Product "m" (Var "nat") (App (Var "P") (Var "m")) in
  let cA := mkCandidate "gA" "thmA" "a.v" ["auto."] "kA" [] in
  let cB := mkCandidate "gB" "thmB" "a.v" ["auto."] "kB" [] in
  let cC := mkCandidate "gC" "thmC" "a.v" ["auto."] "kC" [] in
  let cD := mkCandidate "gD" "thmD" "a.v" ["auto."] "kD" [] in
  let m : gmap string Term :=
    <[ "kA" := tA ]> (<[ "kB" := tB ]> (<[ "kC" := tC ]> (<[ "kD" := tD ]> ∅))) in
  [cA; cB; cC; cD] !! 2 = Some cC /\ [cA; cB; cC; cD] !! 3 = Some cD
  /\ thm_name cC <> thm_name cD
  /\ m !! goal_gen cC = Some tC /\ m !! goal_gen cD = Some tD
  /\ alpha_equiv tC tD = Ok true
  /\ alpha_equiv tA tB = Raise AttributeError
  /\ report_written m [cA; cB; cC; cD] = ([], Some AttributeError)
  /\ find_alpha_equiv_goals m [cA; cB; cC; cD] = Raise AttributeError.
Proof.
  intros tA tB tC tD cA cB cC cD m.
  split; [reflexivity|]. split; [reflexivity|]. split; [discriminate|].
  split; [vm_compute; reflexivity|]. split; [vm_compute; reflexivity|].
  split; [vm_compute; reflexivity|]. split; [vm_compute; reflexivity|].
  split; vm_compute; reflexivity.
Qed.

(** ** Comparisons that return: terms without aliases *)

(** X10. [alpha_equiv] returns a boolean, and raises nothing, on any two
    terms in which every match has a return clause and which hold no alias:
    there is then no [None] to substitute in and no [Var] of a [Var] to
    sort. *)
Theorem alpha_equiv_returns_on_typed_alias_free_terms (t u : Term) :
  Match_typed t = true -> alias_free t = true ->
  Match_typed u = true -> alias_free u = true ->
  exists b, alpha_equiv t u = Ok b.
Proof. intros Ht _ Hu _. apply alpha_equiv_total; assumption. Qed.

Lemma alpha_equiv_returns_on_typed_alias_free_terms_witness :
  exists b,
    alpha_equiv
      (Match [mkMatchSubject (Var "n") None (Some (mkPattern "S" ["k"] None))]
             [mkCaseClause [mkPattern "S" ["m"] None] (Var "m")] (Some (Var "k")))
      (Match [mkMatchSubject (Var "n") None (Some (mkPattern "S" ["j"] None))]
             [mkCaseClause [mkPattern "S" ["p"] None] (Var "p")] (Some (Var "j")))
    = Ok b.
Proof.
  apply alpha_equiv_returns_on_typed_alias_free_terms; reflexivity.
Defined.

(** X23. The whole search on candidates whose cached ASTs have a return
    clause on every match and hold no alias: the redundancy filter and the
    scan return, the scan runs on a sublist of the candidates, and its
    report holds the pair [(i, j)] exactly when [i < j], the two kept
    candidates come from theorems of different names and [alpha_equiv]
    holds of their cached ASTs. *)
Theorem clone_search_on_typed_alias_free_goals
    (goal_ast_map : gmap string Term) (goals_list : list Candidate) :
  (forall g, In g goals_list ->
     exists a, goal_ast_map !! goal_gen g = Some a
               /\ Match_typed a = true /\ alias_free a = true) ->
  exists kept pairs,
    clone_search goal_ast_map goals_list = Ok (kept, pairs)
    /\ report_written goal_ast_map kept = (pairs, None)
    /\ (forall g, In g kept -> In g goals_list)
    /\ (forall i j,
          In (i, j) pairs <->
          exists g1 g2 a1 a2,
            i < j
            /\ kept !! i = Some g1 /\ kept !! j = Some g2
            /\ thm_name g1 <> thm_name g2
            /\ goal_ast_map !! goal_gen g1 = Some a1
            /\ goal_ast_map !! goal_gen g2 = Some a2
            /\ alpha_equiv a1 a2 = Ok true).
Proof.
  intros Hall.
  assert (Hkeys : forall g, In g goals_list -> is_Some (goal_ast_map !! goal_gen g)).
  { intros g Hg. destruct (Hall g Hg) as (a & Ha & _). rewrite Ha. eauto. }
  destruct (drop_redundant_spec goal_ast_map goals_list Hkeys) as (R & HR & _).
  set (kept := List.filter (fun g => bool_decide (goal_gen g ∉ R)) goals_list) in *.
  assert (Hsub : forall g, In g kept -> In g goals_list).
  { intros g Hg. apply filter_In in Hg as [Hg _]. exact Hg. }
  destruct (scan_reports_exactly_clones goal_ast_map kept) as (pairs & Hpairs & Hiff & _).
  { intros g Hg. apply Hkeys, Hsub, Hg. }
  { intros p q g1 g2 a1 a2 Hp Hq _ _ Ha1 Ha2.
    apply list_elem_of_lookup_2, list_elem_of_In, Hsub, Hall in Hp
      as (a1' & Ha1' & Ht1 & _).
    apply list_elem_of_lookup_2, list_elem_of_In, Hsub, Hall in Hq
      as (a2' & Ha2' & Ht2 & _).
    assert (a1' = a1) by congruence. assert (a2' = a2) by congruence. subst a1' a2'.
    apply alpha_equiv_total; assumption. }
  exists kept, pairs. split; [|split; [|split; [exact Hsub|exact Hiff]]].
  - unfold clone_search. rewrite HR. cbn [mbind exc_bind].
    rewrite Hpairs. reflexivity.
  - rewrite find_alpha_equiv_goals_written in Hpairs.
    destruct (report_written goal_ast_map kept) as [ps [e|]]; [discriminate|].
    injection Hpairs as ->. reflexivity.
Qed.

Lemma clone_search_on_typed_alias_free_goals_witness :
  let t1 := Product "n" (Var "nat") (App (Var "P") (Var "n")) in
  let t2 := Product "m" (Var "nat") (App (Var "P") (Var "m")) in
  let c1 := mkCandidate "P n" "thm1" "a.v" ["auto."] "forall (n : nat), (P n)" ["n : nat"] in
  let c2 := mkCandidate "P m" "thm2" "b.v" ["auto."] "forall (m : nat), (P m)" ["m : nat"] in
  let m : gmap string Term :=
    <[ "forall (n : nat), (P n)" := t1 ]> (<[ "forall (m : nat), (P m)" := t2 ]> ∅) in
  exists kept pairs,
    clone_search m [c1; c2] = Ok (kept, pairs)
    /\ report_written m kept = (pairs, None)
    /\ (forall g, In g kept -> In g [c1; c2])
    /\ (forall i j,
          In (i, j) pairs <->
          exists g1 g2 a1 a2,
            i < j
            /\ kept !! i = Some g1 /\ kept !! j = Some g2
            /\ thm_name g1 <> thm_name g2
            /\ m !! goal_gen g1 = Some a1
            /\ m !! goal_gen g2 = Some a2
            /\ alpha_equiv a1 a2 = Ok true).
Proof.
  intros t1 t2 c1 c2 m.
  apply (clone_search_on_typed_alias_free_goals m [c1; c2]).
  intros g [<-|[<-|[]]]; eexists; split; [| split | | split]; vm_compute; reflexivity.
Defined.

(** ** [generalize] as it is called *)

Section generalize_goal_facts.
Variable parse : string -> Term.
Variable set_iter : gset string -> list string.
Hypothesis set_iter_elements : forall X, set_iter X ≡ₚ elements X.

End generalize_goal_facts.

